(** * Brain-region taxonomy of ibllib: [ibllib/atlas/regions.py]

    A shallow embedding of the class [BrainRegions] and of the numpy and
    iblutil array primitives it calls, followed by the properties of row
    lookup, tree navigation, mapping construction, remapping and hemisphere
    filtering.

    Conventions.
    - A numpy integer array is a [list Z]; an array of store positions
      (the result of [np.where], of [return_indices] or of
      [return_inverse]) is a [list nat]; a boolean mask is a [list bool].
    - Ids are int64 values: negation and absolute value wrap at the
      smallest value ([Np.neg], [Np.abs]), addition wraps ([add64]).
    - The column [parent] is a float column in the data frame, because the
      root and the void rows have no parent (NaN).  It is a
      [list (option Z)], with [None] for NaN.  NaN equals nothing, itself
      included, and this is written out in [Np.isin_float].
    - A Python exception is a value [Err e] of the type [result]: indexing
      or assigning out of bounds is [IndexError], a failed [assert] is
      [AssertionError], a missing dictionary key is [KeyError].
    - A store is only ever built by the constructor, from the columns of
      one data frame: its six columns have one length ([same_length]), and
      the operations on masks are written for masks of that length.
    - [np.argsort] is a parameter of the mapping builder, see
      [argsort_ok]. *)

From Stdlib Require Import ZArith Lia String.
From stdpp Require Import base list strings gmap.

Local Open Scope Z_scope.

(** ** Exceptions and the error monad *)

Inductive error : Type :=
| IndexError
| ValueError
| AssertionError
| KeyError
| LoopBudget.   (* the closure loop did not exit within the model's step budget *)

Inductive result (A : Type) : Type :=
| Ok (a : A)
| Err (e : error).
Arguments Ok {A} a.
Arguments Err {A} e.

#[global] Instance result_ret : MRet result := fun A a => Ok a.
#[global] Instance result_bind : MBind result := fun A B k r =>
  match r with
  | Ok a => k a
  | Err e => Err e
  end.

#[global] Instance result_fmap : FMap result := fun A B f r =>
  match r with
  | Ok a => Ok (f a)
  | Err e => Err e
  end.

Definition of_option {A : Type} (e : error) (o : option A) : result A :=
  match o with
  | Some a => Ok a
  | None => Err e
  end.

(** ** numpy primitives *)

Module Np.

(** First position of [x] in [l]. *)
Fixpoint first_index (x : Z) (l : list Z) : option nat :=
  match l with
  | [] => None
  | y :: t => if Z.eqb x y then Some 0%nat else S <$> first_index x t
  end.

(** Insertion in a strictly increasing list. *)
Fixpoint insert_unique (x : Z) (l : list Z) : list Z :=
  match l with
  | [] => [x]
  | y :: t =>
      if Z.ltb x y then x :: y :: t
      else if Z.eqb x y then y :: t
      else y :: insert_unique x t
  end.

(** [np.unique(l)]: the distinct values of [l], in increasing order. *)
Definition unique (l : list Z) : list Z := foldr insert_unique [] l.

(** The second component of [np.unique(l, return_inverse=True)]: for every
    element of [l], its position in [unique l]. *)
Definition unique_inverse (l : list Z) : list nat :=
  omap (fun x => first_index x (unique l)) l.

(** [np.intersect1d(a, b, return_indices=True)]: the sorted common values,
    and for each of them the position of its first occurrence in [a] and
    in [b]. *)
Definition intersect1d (a b : list Z) : list Z * list nat * list nat :=
  let common := filter (fun x => x ∈ b) (unique a) in
  (common,
   omap (fun x => first_index x a) common,
   omap (fun x => first_index x b) common).

(** [np.isin(a, b)] on integer arrays. *)
Definition isin (a b : list Z) : list bool :=
  map (fun x => bool_decide (x ∈ b)) a.

(** [np.isin(a, b)] when one side is the float column: an integer [x] is
    compared as [Some x], and NaN is in no array. *)
Definition isin_float (a b : list (option Z)) : list bool :=
  map (fun x => match x with
                | Some _ => bool_decide (x ∈ b)
                | None => false
                end) a.

(** [np.sum(mask)]. *)
Definition sum (m : list bool) : nat := length (filter (fun b => b = true) m).

(** [np.where(mask)[0]]. *)
Fixpoint where_from (i : nat) (m : list bool) : list nat :=
  match m with
  | [] => []
  | b :: t => if b then i :: where_from (S i) t else where_from (S i) t
  end.
Definition where_true (m : list bool) : list nat := where_from 0 m.

(** [arr[mask]], boolean-mask indexing.  The mask has the length of the
    array wherever the store has columns of one length. *)
Fixpoint select {A : Type} (arr : list A) (m : list bool) : list A :=
  match arr, m with
  | x :: t, b :: m' => if b then x :: select t m' else select t m'
  | _, _ => []
  end.

(** [arr[idx]], integer-array indexing: an index out of bounds raises. *)
Definition take {A : Type} (arr : list A) (idx : list nat) : result (list A) :=
  of_option IndexError (mapM (fun i => arr !! i) idx).

(** [mask |= other], element by element, on two masks of one length. *)
Definition mask_or (m other : list bool) : list bool := zip_with orb m other.

(** The positions [idx] are within the bounds of [arr]. *)
Definition in_bounds {A : Type} (arr : list A) (idx : list nat) : bool :=
  forallb (fun p => Nat.ltb p (length arr)) idx.

(** [arr[idx] = v], one value scattered over the positions [idx]: a
    position out of bounds raises. *)
Definition scatter_at {A : Type} (arr : list A) (idx : list nat) (v : A)
    : list A :=
  foldl (fun acc p => <[p := v]> acc) arr idx.

Definition scatter {A : Type} (arr : list A) (idx : list nat) (v : A)
    : result (list A) :=
  if in_bounds arr idx then Ok (scatter_at arr idx v) else Err IndexError.

(** [arr[idx] = idx], each listed position set to itself. *)
Definition scatter_self_at (arr : list nat) (idx : list nat) : list nat :=
  foldl (fun acc p => <[p := p]> acc) arr idx.

Definition scatter_self (arr : list nat) (idx : list nat)
    : result (list nat) :=
  if in_bounds arr idx then Ok (scatter_self_at arr idx) else Err IndexError.

(** Negation and absolute value of int64 values: the smallest value wraps
    onto itself. *)
Definition int64_min : Z := - 2 ^ 63.
Definition neg (x : Z) : Z := if Z.eqb x int64_min then x else - x.
Definition abs (x : Z) : Z := if Z.ltb x 0 then neg x else x.

End Np.

(** [iblutil.numerical.ismember(a, b)]: the mask [lia] of the elements of
    [a] that are in [b], and [locb], for each such element in turn, the
    position of its first occurrence in [b]. *)
Definition ismember (a b : list Z) : list bool * list nat :=
  (Np.isin a b, omap (fun x => Np.first_index x b) a).

(** ** The store *)

Definition rgb_t : Type := (Z * Z * Z)%type.

(** The dataclass [_BrainRegions]; a [Bunch] returned by [get] carries the
    same six keys. *)
Record Regions : Type := mkRegions {
  id : list Z;
  name : list string;
  acronym : list string;
  rgb : list rgb_t;
  level : list Z;
  parent : list (option Z)
}.

(** [BrainRegions]: the six columns and the dictionary of mappings. *)
Record BrainRegions : Type := mkBrainRegions {
  regions :> Regions;
  mappings : gmap string (list nat)
}.

(** The columns of one data frame have one length. *)
Definition same_length (st : Regions) : Prop :=
  length (name st) = length (id st) /\
  length (acronym st) = length (id st) /\
  length (rgb st) = length (id st) /\
  length (level st) = length (id st) /\
  length (parent st) = length (id st).

(** ** [BrainRegions.get] *)

Definition get (st : Regions) (ids : list Z) : result Regions :=
  let uid := Np.unique ids in
  let uind := Np.unique_inverse ids in
  let '(_, iself, _) := Np.intersect1d (id st) uid in
  rows ← Np.take iself uind;
  b_id ← Np.take (id st) rows;
  b_name ← Np.take (name st) rows;
  b_acronym ← Np.take (acronym st) rows;
  b_rgb ← Np.take (rgb st) rows;
  b_level ← Np.take (level st) rows;
  b_parent ← Np.take (parent st) rows;
  Ok (mkRegions b_id b_name b_acronym b_rgb b_level b_parent).

(** ** [BrainRegions.__init__]: lateralization

    The rows of the hierarchy file are taken as read, with the colour
    already decoded; the constructor appends a copy of every row of
    positive id, with id and parent negated and the name annotated, and
    sets the colour of the first row to black. *)

Definition left_rows (raw : Regions) : Regions :=
  let keep := map (fun x => bool_decide (0 < x)) (id raw) in
  mkRegions
    (map Np.neg (Np.select (id raw) keep))
    (map (fun s => s +:+ " (left)") (Np.select (name raw) keep))
    (Np.select (acronym raw) keep)
    (Np.select (rgb raw) keep)
    (Np.select (level raw) keep)
    (map (fmap Np.neg) (Np.select (parent raw) keep)).

Definition lateralized (raw : Regions) : Regions :=
  let l := left_rows raw in
  mkRegions
    (id raw ++ id l)
    (name raw ++ name l)
    (acronym raw ++ acronym l)
    (<[0%nat := (0, 0, 0)]> (rgb raw ++ rgb l))
    (level raw ++ level l)
    (parent raw ++ parent l).

(** ** [BrainRegions._navigate_tree]

    The method is a small machine: line 96-97 computes the seed mask and
    its count, then every pass of [while True] tests the direction, applies
    one closure pass and compares the counts. *)

Inductive nav_state : Type :=
| NavInit                                        (* entry of the method *)
| NavLoop (indices : list bool) (count : nat)    (* head of [while True] *)
| NavExit (indices : list bool)                  (* after [break] *)
| NavRaise (e : error).

(** The body of the [if/elif/else] of lines 99-104. *)
Definition closure_pass (st : Regions) (direction : string)
    (indices : list bool) : result (list bool) :=
  if decide (direction = "down") then
    Ok (Np.mask_or indices
          (Np.isin_float (parent st) (Some <$> Np.select (id st) indices)))
  else if decide (direction = "up") then
    Ok (Np.mask_or indices
          (Np.isin_float (Some <$> id st) (Np.select (parent st) indices)))
  else Err ValueError.

Definition nav_step (st : Regions) (ids : list Z) (direction : string)
    (s : nav_state) : nav_state :=
  match s with
  | NavInit =>
      let indices := (ismember (id st) ids).1 in
      NavLoop indices (Np.sum indices)
  | NavLoop indices count =>
      match closure_pass st direction indices with
      | Err e => NavRaise e
      | Ok indices' =>
          if Nat.eqb count (Np.sum indices') then NavExit indices'
          else NavLoop indices' (Np.sum indices')
      end
  | NavExit _ | NavRaise _ => s
  end.

Fixpoint nav_run (st : Regions) (ids : list Z) (direction : string)
    (fuel : nat) (s : nav_state) : nav_state :=
  match fuel with
  | O => s
  | S f => nav_run st ids direction f (nav_step st ids direction s)
  end.

(** One step for the seed mask and at most [length id + 1] passes. *)
Definition nav_budget (st : Regions) : nat := (length (id st) + 2)%nat.

Definition _navigate_tree (st : Regions) (ids : list Z) (direction : string)
    : result Regions :=
  match nav_run st ids direction (nav_budget st) NavInit with
  | NavExit indices => get st (Np.select (id st) indices)
  | NavRaise e => Err e
  | NavInit | NavLoop _ _ => Err LoopBudget
  end.

Definition descendants (st : Regions) (ids : list Z) : result Regions :=
  _navigate_tree st ids "down".

Definition ancestors (st : Regions) (ids : list Z) : result Regions :=
  _navigate_tree st ids "up".

(** ** [BrainRegions._mapping_from_regions_list] *)

Definition I_ROOT : nat := 1.
Definition I_VOID : nat := 0.

(** Line 144: [np.unique(np.r_[-new_map, new_map])]. *)
Definition symmetrize (new_map : list Z) : list Z :=
  Np.unique (map Np.neg new_map ++ new_map).

(** Lines 155-157, for the member of rank [i] in [iid]. *)
Definition assign_subtree (st : Regions) (iid : list nat)
    (mapind : list nat) (i : nat) : result (list nat) :=
  p ← of_option IndexError (iid !! i);
  m ← of_option IndexError (id st !! p);
  d ← descendants st [m];
  let '(_, idesc, _) := Np.intersect1d (id st) (id d) in
  Np.scatter mapind idesc p.

(** The [for] loop of line 154 over a given order of ranks. *)
Fixpoint assign_loop (st : Regions) (iid : list nat) (order : list nat)
    (mapind : list nat) : result (list nat) :=
  match order with
  | [] => Ok mapind
  | i :: rest =>
      mapind' ← assign_subtree st iid mapind i;
      assign_loop st iid rest mapind'
  end.

(** [np.argsort] sorts with an unstable algorithm by default: the order it
    gives to equal keys is not specified.  The builder is therefore
    modelled over any [argsort], and the properties below ask of it only
    that, on the keys it is given, it returns a rearrangement of the ranks
    [0 .. n-1] along which the keys do not decrease. *)
Fixpoint nondecreasing (l : list Z) : bool :=
  match l with
  | x :: (y :: _) as t => Z.leb x y && nondecreasing t
  | _ => true
  end.

Definition argsort_ok (keys : list Z) (order : list nat) : bool :=
  Nat.eqb (length order) (length keys)
  && forallb (fun j => bool_decide (j ∈ order)) (seq 0 (length keys))
  && forallb (fun i => bool_decide (i < length keys)%nat) order
  && nondecreasing (omap (fun i => keys !! i) order).

Definition _mapping_from_regions_list (argsort : list Z -> list nat)
    (st : Regions) (new_map : list Z) (lateralize : bool)
    : result (list nat) :=
  let new_map := symmetrize new_map in
  if negb (forallb (fun b => b) (Np.isin new_map (id st)))
  then Err AssertionError
  else
    let iid := Np.where_true (ismember (id st) new_map).1 in
    let mapind := replicate (length (id st)) I_ROOT in
    mapind ← Np.scatter_self mapind iid;
    keys ← Np.take (level st) iid;
    mapind ← assign_loop st iid (argsort keys) mapind;
    mapind ← (match mapind with
              | [] => Err IndexError
              | _ :: _ => Ok (<[0%nat := I_VOID]> mapind)
              end);
    if lateralize then Ok mapind
    else
      let iregion := (ismember (map Np.abs (id st)) (id st)).2 in
      Np.take mapind iregion.

(** A stable [argsort], by insertion: what numpy computes on short arrays. *)
Fixpoint insert_rank (keys : list Z) (i : nat) (order : list nat) : list nat :=
  match order with
  | [] => [i]
  | j :: t =>
      if Z.ltb (default 0 (keys !! i)) (default 0 (keys !! j))
      then i :: j :: t
      else j :: insert_rank keys i t
  end.

Definition argsort_stable (keys : list Z) : list nat :=
  foldl (fun acc i => insert_rank keys i acc) [] (seq 0 (length keys)).

(** ** [BrainRegions._compute_mappings]

    The two coarse lists are read from files and are taken as arguments;
    the dictionary is assigned once every array is built. *)
Definition _compute_mappings (argsort : list Z -> list nat)
    (br : BrainRegions) (beryl cosmos : list Z) : result BrainRegions :=
  allen ← _mapping_from_regions_list argsort br
             (Np.unique (map Np.abs (id br))) false;
  let allen_lr := seq 0 (length (id br)) in
  beryl_ ← _mapping_from_regions_list argsort br beryl false;
  beryl_lr ← _mapping_from_regions_list argsort br beryl true;
  cosmos_ ← _mapping_from_regions_list argsort br cosmos false;
  cosmos_lr ← _mapping_from_regions_list argsort br cosmos true;
  Ok (mkBrainRegions br
        (<["Allen" := allen]> (<["Allen-lr" := allen_lr]>
        (<["Beryl" := beryl_]> (<["Beryl-lr" := beryl_lr]>
        (<["Cosmos" := cosmos_]> (<["Cosmos-lr" := cosmos_lr]> ∅))))))).

(** ** [BrainRegions.remap] *)

Definition remap (br : BrainRegions) (region_ids : list Z)
    (source_map target_map : string) : result (list Z) :=
  src ← of_option KeyError (mappings br !! source_map);
  src_ids ← Np.take (id br) src;
  let inds := (ismember region_ids src_ids).2 in
  tgt ← of_option KeyError (mappings br !! target_map);
  rep ← Np.take tgt inds;
  Np.take (id br) rep.

(** ** Hemisphere filtering *)

(** [sub in s] on Python strings. *)
Fixpoint contains (sub s : string) : bool :=
  String.prefix sub s ||
  match s with
  | EmptyString => false
  | String _ t => contains sub t
  end.

(** int64 addition. *)
Definition add64 (x y : Z) : Z := (x + y + 2 ^ 63) mod 2 ^ 64 - 2 ^ 63.

Inductive lr_values : Type :=
| OneColumn (values : list Z)
| TwoColumns (rows : list (Z * Z)).      (* [np.c_[a, b]] *)

Definition _infer_mapping (mapping : string) (hemisphere : option string)
    : string :=
  if contains "-lr" mapping then mapping
  else match hemisphere with
       | None => mapping
       | Some _ => mapping +:+ "-lr"
       end.

Definition _filter_lr_acro (values : list Z) (mapping : string)
    (hemisphere : option string) : lr_values :=
  if decide (hemisphere = Some "left") then
    OneColumn (map (fun v => add64 v 1327) values)
  else if decide (hemisphere = Some "right") then
    OneColumn values
  else if contains "lr" mapping then
    TwoColumns (zip (map (fun v => add64 v 1327) values) values)
  else OneColumn values.

(** ** [BrainRegions.leaves] *)

(** [np.setxor1d(a, b)] on the integer array [a] and the float column
    [b]: the sorted values that are in one array only.  Both arrays go
    through [np.unique]; NaN differs from everything, so the NaN of [b]
    is kept, after the numbers. *)
Definition setxor1d_float (a : list Z) (b : list (option Z))
    : list (option Z) :=
  let ua := Np.unique a in
  let ub := Np.unique (omap (fun o => o) b) in
  (Some <$> Np.unique (filter (fun x => x ∉ ub) ua ++
                       filter (fun x => x ∉ ua) ub))
  ++ (if bool_decide (None ∈ b) then [None] else []).

(** Line 133 drops the NaN entries and converts the rest to int64, which
    is [omap] of the identity. *)
Definition leaves (st : Regions) : result Regions :=
  let leaves := setxor1d_float (id st) (parent st) in
  get st (omap (fun o => o) leaves).

(** ** The lookups by id and by acronym *)

(** First position of [x] in [l], for ids and for acronyms. *)
Fixpoint first_index_of {A : Type} `{EqDecision A} (x : A) (l : list A)
    : option nat :=
  match l with
  | [] => None
  | y :: t => if decide (x = y) then Some 0%nat else S <$> first_index_of x t
  end.

(** [ismember] on arrays of any values that can be compared. *)
Definition ismember_of {A : Type} `{EqDecision A} (a b : list A)
    : list bool * list nat :=
  (map (fun x => bool_decide (x ∈ b)) a, omap (fun x => first_index_of x b) a).

(** [_find_inds]: a scalar is a list of one value; [vtype] is not read. *)
Definition _find_inds {A : Type} `{EqDecision A} (values all_values : list A)
    : list nat :=
  (ismember_of values all_values).2.

Definition remap_id2id (br : BrainRegions) (atlas_ids : list Z)
    (source_map target_map : string) : result (list Z) :=
  src ← of_option KeyError (mappings br !! source_map);
  src_ids ← Np.take (id br) src;
  let inds := (ismember atlas_ids src_ids).2 in
  tgt ← of_option KeyError (mappings br !! target_map);
  rep ← Np.take tgt inds;
  Np.take (id br) rep.

Definition remap_acro2acro (br : BrainRegions) (acronyms : list string)
    (source_map target_map : string) : result (list string) :=
  src ← of_option KeyError (mappings br !! source_map);
  src_acronyms ← Np.take (acronym br) src;
  let inds := (ismember_of acronyms src_acronyms).2 in
  tgt ← of_option KeyError (mappings br !! target_map);
  rep ← Np.take tgt inds;
  Np.take (acronym br) rep.

Definition remap_acro2id (br : BrainRegions) (acronyms : list string)
    (source_map target_map : string) : result (list Z) :=
  src ← of_option KeyError (mappings br !! source_map);
  src_acronyms ← Np.take (acronym br) src;
  let inds := (ismember_of acronyms src_acronyms).2 in
  tgt ← of_option KeyError (mappings br !! target_map);
  rep ← Np.take tgt inds;
  Np.take (id br) rep.

Definition remap_id2acro (br : BrainRegions) (atlas_ids : list Z)
    (source_map target_map : string) : result (list string) :=
  src ← of_option KeyError (mappings br !! source_map);
  src_ids ← Np.take (id br) src;
  let inds := (ismember atlas_ids src_ids).2 in
  tgt ← of_option KeyError (mappings br !! target_map);
  rep ← Np.take tgt inds;
  Np.take (acronym br) rep.

Definition acronym2acronym (br : BrainRegions) (acronyms : list string)
    (mapping : string) : result (list string) :=
  let inds := _find_inds acronyms (acronym br) in
  m ← of_option KeyError (mappings br !! mapping);
  col ← Np.take (acronym br) m;
  Np.take col inds.

Definition atlasID2acronym (br : BrainRegions) (atlas_id : list Z)
    (mapping : string) : result (list string) :=
  let inds := _find_inds atlas_id (id br) in
  m ← of_option KeyError (mappings br !! mapping);
  col ← Np.take (acronym br) m;
  Np.take col inds.

Definition atlasID2atlasID (br : BrainRegions) (atlas_id : list Z)
    (mapping : string) : result (list Z) :=
  let inds := _find_inds atlas_id (id br) in
  m ← of_option KeyError (mappings br !! mapping);
  col ← Np.take (id br) m;
  Np.take col inds.

(** [arr[i]] for an int64 index: a negative index counts from the end, an
    index out of bounds raises. *)
Definition index_z {A : Type} (arr : list A) (i : Z) : option A :=
  if Z.leb 0 i then arr !! Z.to_nat i
  else if Z.leb (- Z.of_nat (length arr)) i
       then arr !! Z.to_nat (Z.of_nat (length arr) + i)
       else None.

Definition take_z {A : Type} (arr : list A) (idx : list Z) : result (list A) :=
  of_option IndexError (mapM (index_z arr) idx).

(** The result has the shape of the index: one column, or two. *)
Definition acronym2atlasID (br : BrainRegions) (acronyms : list string)
    (mapping : string) (hemisphere : option string) : result lr_values :=
  let mapping := _infer_mapping mapping hemisphere in
  let inds := _find_inds acronyms (acronym br) in
  m ← of_option KeyError (mappings br !! mapping);
  col ← Np.take (id br) m;
  match _filter_lr_acro (Z.of_nat <$> inds) mapping hemisphere with
  | OneColumn values => OneColumn <$> take_z col values
  | TwoColumns rows =>
      lefts ← take_z col rows.*1;
      rights ← take_z col rows.*2;
      Ok (TwoColumns (zip lefts rights))
  end.

(** [values[:, 1]] and [values[:, 0]] ask for two dimensions and raise
    [IndexError] on a one-dimensional array; [np.fliplr] raises
    [ValueError] on it. *)
Definition _filter_lr_index (values : lr_values) (hemisphere : option string)
    : result lr_values :=
  match values with
  | OneColumn _ =>
      if decide (hemisphere = Some "left") then Err IndexError
      else if decide (hemisphere = Some "right") then Err IndexError
      else Err ValueError
  | TwoColumns rows =>
      if decide (hemisphere = Some "left") then Ok (OneColumn rows.*2)
      else if decide (hemisphere = Some "right") then Ok (OneColumn rows.*1)
      else Ok (TwoColumns (map (fun r => (r.2, r.1)) rows))
  end.

(** The [for] loop of lines 238-240, filling the dictionary [index]. *)
Fixpoint acronym2index_loop (br : BrainRegions) (mapping : string)
    (hemisphere : option string) (acronyms : list string)
    (index : gmap string lr_values) : result (gmap string lr_values) :=
  match acronyms with
  | [] => Ok index
  | acro :: rest =>
      m ← of_option KeyError (mappings br !! mapping);
      col ← Np.take (acronym br) m;
      let inds := _find_inds [acro] col in
      v ← _filter_lr_index (OneColumn (Z.of_nat <$> inds)) hemisphere;
      acronym2index_loop br mapping hemisphere rest (<[acro := v]> index)
  end.

Definition acronym2index (br : BrainRegions) (acronyms : list string)
    (mapping : string) (hemisphere : option string)
    : result (gmap string lr_values) :=
  let mapping := _infer_mapping mapping hemisphere in
  acronym2index_loop br mapping hemisphere acronyms ∅.

(** ** The fixture: void, root -> A -> {B, C}, B -> {D}, lateralized *)

Module Fixture.

Definition root : Z := 997.
Definition A : Z := 10.
Definition B : Z := 20.
Definition C : Z := 30.
Definition D : Z := 40.

Definition raw : Regions :=
  mkRegions
    [0; root; A; B; C; D]
    ["void"; "root"; "region A"; "region B"; "region C"; "region D"]
    ["void"; "root"; "A"; "B"; "C"; "D"]
    [(255, 255, 255); (255, 255, 255); (10, 0, 0); (20, 0, 0); (30, 0, 0); (40, 0, 0)]
    [0; 0; 1; 2; 2; 3]
    [None; None; Some root; Some A; Some A; Some B].

Definition store : Regions := lateralized raw.

End Fixture.

Module RemapFixture.

(** The fixture with the array of the scheme [{A}], unlateralized. *)
Definition br : BrainRegions :=
  mkBrainRegions Fixture.store
    (<["A-scheme" := [0; 1; 2; 2; 2; 2; 1; 2; 2; 2; 2]%nat]> ∅).

End RemapFixture.

Module LookupFixture.

(** The fixture with the identity array and the array of the scheme
    [{A}], unlateralized. *)
Definition br : BrainRegions :=
  mkBrainRegions Fixture.store
    (<["Allen-lr" := seq 0 11]>
       (<["A-scheme" := [0; 1; 2; 2; 2; 2; 1; 2; 2; 2; 2]%nat]> ∅)).

End LookupFixture.

Module Table1328.

(** A table of 1328 rows, the void row first: the ids [0 .. 1327], every
    row but the first a child of row 1. *)
Definition raw : Regions :=
  mkRegions
    (Z.of_nat <$> seq 0 1328)
    (replicate 1328 "region")
    (replicate 1328 "r")
    (replicate 1328 (255, 255, 255))
    (0 :: replicate 1327 1)
    (None :: None :: replicate 1326 (Some 1)).

End Table1328.

(** * Vocabulary of the properties *)

(** Strictly increasing lists. *)
Fixpoint increasing (l : list Z) : Prop :=
  match l with
  | [] => True
  | x :: t => Forall (fun y => x < y) t /\ increasing t
  end.

(** [mask_le a b]: every position selected in [a] is selected in [b]. *)
Definition mask_le (a b : list bool) : Prop :=
  Forall2 (fun x y => x = true -> y = true) a b.

(** The seed mask of line 96. *)
Definition seed_mask (st : Regions) (ids : list Z) : list bool :=
  (ismember (id st) ids).1.

(** A property of masks kept by every pass holds of every mask the
    machine goes through. *)
Definition holds_of (st : Regions) (ids : list Z) (P : list bool -> Prop)
    (s : nav_state) : Prop :=
  match s with
  | NavInit => P (seed_mask st ids)
  | NavLoop m _ | NavExit m => P m
  | NavRaise _ => True
  end.

(** [reach st m p]: the row at position [p] is the region [m] or has it
    among its ancestors. *)
Inductive reach (st : Regions) (m : Z) : nat -> Prop :=
| reach_seed (p : nat) :
    id st !! p = Some m -> reach st m p
| reach_child (p q : nat) (y : Z) :
    parent st !! p = Some (Some y) ->
    id st !! q = Some y ->
    reach st m q ->
    reach st m p.

(** Position [p] carries an id of the bunch that [descendants] returns for
    the region [m]. *)
Definition in_subtree (st : Regions) (m : Z) (p : nat) : Prop :=
  exists (d : Regions) (x : Z),
    descendants st [m] = Ok d /\ id st !! p = Some x /\ x ∈ id d.

(** Line 148-149: the positions of the store whose id is in the
    symmetrized list. *)
Definition members (st : Regions) (new_map : list Z) : list nat :=
  Np.where_true (ismember (id st) (symmetrize new_map)).1.

(** Lines 155-156: the positions that the member of rank [i] overwrites. *)
Definition idesc_of (st : Regions) (iid : list nat) (i : nat)
    : result (list nat) :=
  p ← of_option IndexError (iid !! i);
  m ← of_option IndexError (id st !! p);
  d ← descendants st [m];
  Ok (Np.intersect1d (id st) (id d)).1.2.

(** The member of rank [i] has position [p] in its descendant set. *)
Definition covers (st : Regions) (iid : list nat) (i p : nat) : Prop :=
  exists (q : nat) (m : Z),
    iid !! i = Some q /\ id st !! q = Some m /\ in_subtree st m p.

(** The values an int64 array can hold. *)
Definition int64 (x : Z) : Prop := - 2 ^ 63 <= x < 2 ^ 63.

(** Every row has a row of the negated id, with the negated parent: what
    lateralization produces, the void row being its own mirror. *)
Definition mirrored (st : Regions) : Prop :=
  forall (p : nat) (x : Z),
    id st !! p = Some x ->
    exists p' : nat,
      id st !! p' = Some (Np.neg x) /\
      parent st !! p' = fmap Np.neg <$> parent st !! p.

(** [argsort] does its work on the levels of the members of a scheme. *)
Definition sorts_members (argsort : list Z -> list nat) (st : Regions)
    (new_map : list Z) : Prop :=
  forall keys : list Z,
    Np.take (level st) (members st new_map) = Ok keys ->
    argsort_ok keys (argsort keys) = true.

(** An id is canonical in a scheme when it is the id of its own
    representative under the array of the scheme. *)
Definition canonical (br : BrainRegions) (arr : list nat) (x : Z) : Prop :=
  exists p r : nat,
    id br !! p = Some x /\ arr !! p = Some r /\ id br !! r = Some x.

(** [related st direction ids p]: the row at position [p] carries an id of
    [ids], or is linked to such a row by parent links, followed from child
    to parent when the direction is up and from parent to child when it is
    down. *)
Inductive related (st : Regions) (direction : string) (ids : list Z)
    : nat -> Prop :=
| related_seed (p : nat) (x : Z) :
    id st !! p = Some x -> x ∈ ids -> related st direction ids p
| related_down (p q : nat) (y : Z) :
    direction = "down" ->
    parent st !! p = Some (Some y) -> id st !! q = Some y ->
    related st direction ids q -> related st direction ids p
| related_up (p q : nat) (y : Z) :
    direction = "up" ->
    parent st !! q = Some (Some y) -> id st !! p = Some y ->
    related st direction ids q -> related st direction ids p.

(** The row at position [q] is the parent of the row at position [p]. *)
Definition parent_link (st : Regions) (p q : nat) : Prop :=
  exists y : Z, parent st !! p = Some (Some y) /\ id st !! q = Some y.

(** The rows of a store selected by a mask. *)
Definition select_rows (st : Regions) (mask : list bool) : Regions :=
  mkRegions (Np.select (id st) mask) (Np.select (name st) mask)
            (Np.select (acronym st) mask) (Np.select (rgb st) mask)
            (Np.select (level st) mask) (Np.select (parent st) mask).

(** The level grows from a row to its children. *)
Definition levels_increase (st : Regions) : Prop :=
  forall (p q : nat) (y lp lq : Z),
    parent st !! p = Some (Some y) -> id st !! q = Some y ->
    level st !! p = Some lp -> level st !! q = Some lq ->
    lq < lp.



(** * Properties *)

(** Closed decidable facts about the fixture are settled by evaluation. *)
Ltac decide_now := apply (bool_decide_unpack _); vm_compute; exact I.

Ltac fixture_in_subtree :=
  eexists _, _; split_and!;
    [by vm_compute | reflexivity | decide_now].

Ltac fixture_not_in_subtree :=
  let d := fresh "d" in let x := fresh "x" in
  let Hd := fresh "Hd" in let Hx := fresh "Hx" in let Hin := fresh "Hin" in
  intros (d & x & Hd & Hx & Hin);
  vm_compute in Hd; injection Hd as <-;
  vm_compute in Hx; injection Hx as <-;
  revert Hin; decide_now.

(** ** The array primitives *)

Section FirstIndex.

Lemma first_index_Some (x : Z) (l : list Z) (p : nat) :
  Np.first_index x l = Some p -> l !! p = Some x.
Proof.
  revert p; induction l as [|y t IH]; intros p; simpl; [done|].
  destruct (Z.eqb_spec x y) as [->|Hne].
  - intros [= <-]; done.
  - destruct (Np.first_index x t) as [q|] eqn:E; simpl; [|done].
    intros [= <-]; simpl; auto.
Qed.

Lemma first_index_elem (x : Z) (l : list Z) :
  x ∈ l -> is_Some (Np.first_index x l).
Proof.
  induction l as [|y t IH]; simpl.
  - intros H; inversion H.
  - destruct (Z.eqb_spec x y) as [->|Hne]; [eauto|].
    intros [->|H]%elem_of_cons; [done|].
    destruct (IH H) as [q ->]; simpl; eauto.
Qed.

Lemma first_index_None (x : Z) (l : list Z) :
  x ∉ l -> Np.first_index x l = None.
Proof.
  intros H; destruct (Np.first_index x l) as [p|] eqn:E; [|done].
  exfalso; apply H; eapply list_elem_of_lookup_2, first_index_Some, E.
Qed.

Lemma first_index_NoDup (x : Z) (l : list Z) (p : nat) :
  NoDup l -> l !! p = Some x -> Np.first_index x l = Some p.
Proof.
  intros Hnd Hp.
  destruct (first_index_elem x l) as [q Hq];
    [eapply list_elem_of_lookup_2, Hp|].
  rewrite Hq; f_equal.
  eapply NoDup_lookup; eauto using first_index_Some.
Qed.

End FirstIndex.

Section OmapTotal.
Context {A B : Type} (f : A -> option B).

Lemma omap_total (l : list A) :
  Forall (fun x => is_Some (f x)) l ->
  Forall2 (fun x y => f x = Some y) l (omap f l).
Proof.
  induction 1 as [|x t [y Hy] _ IH]; simpl; [constructor|].
  rewrite Hy; constructor; done.
Qed.

Lemma omap_none (l : list A) :
  Forall (fun x => f x = None) l -> omap f l = [].
Proof.
  induction 1 as [|x t Hx _ IH]; simpl; [done|]. by rewrite Hx.
Qed.

Lemma length_omap_le (l : list A) : (length (omap f l) <= length l)%nat.
Proof.
  induction l as [|x t IH]; [simpl; lia|].
  change (omap f (x :: t)) with
    (match f x with Some y => y :: omap f t | None => omap f t end).
  destruct (f x); simpl; lia.
Qed.

End OmapTotal.

Section Take.
Context {A : Type}.

Lemma take_Ok (arr : list A) (idx : list nat) (r : list A) :
  Np.take arr idx = Ok r <-> Forall2 (fun i y => arr !! i = Some y) idx r.
Proof.
  unfold Np.take. rewrite <- mapM_Some.
  destruct (mapM _ idx); simpl; split; congruence.
Qed.

Lemma take_Err (arr : list A) (idx : list nat) (i : nat) :
  i ∈ idx -> (length arr <= i)%nat -> Np.take arr idx = Err IndexError.
Proof.
  intros Hi Hle. unfold Np.take.
  destruct (mapM _ idx) as [r|] eqn:E; [|done].
  apply mapM_Some in E.
  apply list_elem_of_lookup in Hi as [k Hk].
  destruct (Forall2_lookup_l _ _ _ _ _ E Hk) as (y & _ & Hy).
  apply lookup_lt_Some in Hy. lia.
Qed.

Lemma take_in_range (arr : list A) (idx : list nat) :
  Forall (fun i => (i < length arr)%nat) idx ->
  exists r, Np.take arr idx = Ok r.
Proof.
  intros H. unfold Np.take.
  destruct (mapM _ idx) as [r|] eqn:E; [eauto|].
  exfalso. assert (Hs : is_Some (mapM (fun i => arr !! i) idx)).
  { apply mapM_is_Some. eapply Forall_impl; [exact H|].
    intros i Hi; simpl. by apply lookup_lt_is_Some. }
  rewrite E in Hs. by destruct Hs.
Qed.

Lemma take_length (arr : list A) (idx : list nat) (r : list A) :
  Np.take arr idx = Ok r -> length r = length idx.
Proof. intros H%take_Ok. symmetry. eapply Forall2_length, H. Qed.

Lemma take_lookup (arr : list A) (idx : list nat) (r : list A) (k i : nat) :
  Np.take arr idx = Ok r -> idx !! k = Some i -> r !! k = arr !! i.
Proof.
  intros H%take_Ok Hk.
  destruct (Forall2_lookup_l _ _ _ _ _ H Hk) as (y & -> & Hy). done.
Qed.

End Take.

Section Unique.

Lemma elem_of_insert_unique (x y : Z) (l : list Z) :
  y ∈ Np.insert_unique x l <-> y = x \/ y ∈ l.
Proof.
  induction l as [|z t IH]; simpl.
  - rewrite elem_of_cons, elem_of_nil. tauto.
  - destruct (Z.ltb_spec x z); [rewrite elem_of_cons; tauto|].
    destruct (Z.eqb_spec x z) as [->|]; [rewrite elem_of_cons; tauto|].
    rewrite !elem_of_cons, IH. tauto.
Qed.

Lemma elem_of_unique (x : Z) (l : list Z) : x ∈ Np.unique l <-> x ∈ l.
Proof.
  induction l as [|y t IH]; simpl; [done|].
  rewrite elem_of_insert_unique, IH, elem_of_cons. tauto.
Qed.

Lemma increasing_insert_unique (x : Z) (l : list Z) :
  increasing l -> increasing (Np.insert_unique x l).
Proof.
  induction l as [|z t IH]; simpl; [auto|].
  intros [Hz Ht].
  destruct (Z.ltb_spec x z).
  - simpl. repeat split; auto. constructor; [done|].
    eapply Forall_impl; [exact Hz|]. simpl; intros; lia.
  - destruct (Z.eqb_spec x z) as [->|Hne]; simpl; [auto|].
    split; [|auto].
    apply Forall_forall. intros y [->|Hy]%elem_of_insert_unique; [lia|].
    rewrite Forall_forall in Hz; auto.
Qed.

Lemma increasing_unique (l : list Z) : increasing (Np.unique l).
Proof.
  induction l; simpl; [done|]. by apply increasing_insert_unique.
Qed.

Lemma increasing_NoDup (l : list Z) : increasing l -> NoDup l.
Proof.
  induction l as [|x t IH]; simpl; [constructor|].
  intros [Hx Ht]. constructor; [|auto].
  intros Hin. rewrite Forall_forall in Hx. specialize (Hx _ Hin). lia.
Qed.

Lemma increasing_filter (P : Z -> Prop) `{!forall x, Decision (P x)}
    (l : list Z) :
  increasing l -> increasing (filter P l).
Proof.
  induction l as [|x t IH]; simpl; [done|].
  intros [Hx Ht]. rewrite filter_cons.
  destruct (decide (P x)); simpl; [|auto].
  split; [|auto].
  apply Forall_forall. intros y [_ Hy]%list_elem_of_filter.
  rewrite Forall_forall in Hx; auto.
Qed.

(** Two increasing lists with the same elements are one list. *)
Lemma increasing_ext (l1 l2 : list Z) :
  increasing l1 -> increasing l2 ->
  (forall x, x ∈ l1 <-> x ∈ l2) -> l1 = l2.
Proof.
  revert l2; induction l1 as [|x t IH]; intros [|y u]; simpl.
  - done.
  - intros _ _ H. destruct (H y) as [_ H2].
    specialize (H2 ltac:(left)). by apply elem_of_nil in H2.
  - intros _ _ H. destruct (H x) as [H1 _].
    specialize (H1 ltac:(left)). by apply elem_of_nil in H1.
  - intros [Hx Ht] [Hy Hu] H.
    rewrite Forall_forall in Hx, Hy.
    assert (x = y) as ->.
    { destruct (H x) as [H1 _], (H y) as [_ H2].
      specialize (H1 ltac:(left)). specialize (H2 ltac:(left)).
      apply elem_of_cons in H1 as [|H1]; [done|].
      apply elem_of_cons in H2 as [|H2]; [done|].
      specialize (Hx _ H2). specialize (Hy _ H1). lia. }
    f_equal. apply IH; auto.
    intros z; split; intros Hz.
    + destruct (H z) as [H1 _]. specialize (H1 ltac:(by right)).
      apply elem_of_cons in H1 as [->|]; [|done].
      specialize (Hx _ Hz); lia.
    + destruct (H z) as [_ H2]. specialize (H2 ltac:(by right)).
      apply elem_of_cons in H2 as [->|]; [|done].
      specialize (Hy _ Hz); lia.
Qed.

Lemma unique_ext (l1 l2 : list Z) :
  (forall x, x ∈ l1 <-> x ∈ l2) -> Np.unique l1 = Np.unique l2.
Proof.
  intros H. apply increasing_ext; auto using increasing_unique.
  intros x. rewrite !elem_of_unique. apply H.
Qed.

End Unique.

(** ** [get] *)

Section Get.
Variable st : Regions.

(** The rows that [get] reads: when every id is in the store, the row of
    rank [k] is the first position of [ids !! k]. *)
Lemma get_rows_present (ids : list Z) :
  Forall (fun x => x ∈ id st) ids ->
  exists rows,
    Np.take (Np.intersect1d (id st) (Np.unique ids)).1.2
            (Np.unique_inverse ids) = Ok rows /\
    Forall2 (fun x p => Np.first_index x (id st) = Some p) ids rows.
Proof.
  intros Hin. rewrite Forall_forall in Hin.
  unfold Np.intersect1d; simpl.
  assert (Hc : filter (fun x => x ∈ Np.unique ids) (Np.unique (id st))
               = Np.unique ids).
  { apply increasing_ext.
    - apply increasing_filter, increasing_unique.
    - apply increasing_unique.
    - intros x. rewrite list_elem_of_filter, !elem_of_unique.
      split; [tauto|]. intros Hx; split; auto. }
  rewrite Hc.
  set (uid := Np.unique ids).
  assert (Hself : Forall2 (fun x p => Np.first_index x (id st) = Some p) uid
            (omap (fun x => Np.first_index x (id st)) uid)).
  { apply omap_total, Forall_forall. intros x Hx.
    apply first_index_elem, Hin. by apply elem_of_unique. }
  assert (Hinv : Forall2 (fun x j => Np.first_index x uid = Some j) ids
            (Np.unique_inverse ids)).
  { apply omap_total, Forall_forall. intros x Hx.
    apply first_index_elem. by apply elem_of_unique. }
  revert Hself Hinv.
  generalize (omap (fun x => Np.first_index x (id st)) uid) as iself.
  generalize (Np.unique_inverse ids) as uind.
  intros uind iself Hself Hinv.
  assert (Hrows : Forall (fun j => is_Some (iself !! j)) uind).
  { apply Forall_forall. intros j [k Hk]%list_elem_of_lookup.
    destruct (Forall2_lookup_r _ _ _ _ _ Hinv Hk) as (x & _ & Hx).
    apply first_index_Some in Hx.
    destruct (Forall2_lookup_l _ _ _ _ _ Hself Hx) as (p & Hp & _). eauto. }
  apply mapM_is_Some in Hrows as [rows Hrows].
  exists rows. split; [unfold Np.take; by rewrite Hrows|].
  apply mapM_Some in Hrows.
  apply Forall2_same_length_lookup. split.
  - rewrite (Forall2_length _ _ _ Hinv). eapply Forall2_length, Hrows.
  - intros k x p Hx Hp.
    destruct (Forall2_lookup_l _ _ _ _ _ Hinv Hx) as (j & Hj & Hxj).
    destruct (Forall2_lookup_l _ _ _ _ _ Hrows Hj) as (p' & Hp' & Hjp).
    assert (p' = p) as -> by congruence.
    apply first_index_Some in Hxj.
    destruct (Forall2_lookup_l _ _ _ _ _ Hself Hxj) as (p'' & Hp'' & Hfi).
    congruence.
Qed.

(** An id that is not in the store leaves a rank of the inverse index
    without a matched row. *)
Lemma get_rows_absent (ids : list Z) (x : Z) :
  x ∈ ids -> x ∉ id st ->
  Np.take (Np.intersect1d (id st) (Np.unique ids)).1.2
          (Np.unique_inverse ids) = Err IndexError.
Proof.
  intros Hx Hnot. unfold Np.intersect1d; simpl.
  set (uid := Np.unique ids).
  set (common := filter (fun x => x ∈ uid) (Np.unique (id st))).
  assert (Hlt : (length common < length uid)%nat).
  { assert (Hsub : common ⊆ uid).
    { intros y [Hy _]%list_elem_of_filter. done. }
    assert (Hnd : NoDup common).
    { apply increasing_NoDup, increasing_filter, increasing_unique. }
    destruct (decide (length common < length uid)%nat) as [|Hge]; [done|].
    exfalso. apply Hnot.
    assert (Huc : uid ⊆ common).
    { apply NoDup_submseteq in Hsub; [|done].
      apply submseteq_length_Permutation in Hsub; [|lia].
      intros y Hy. by rewrite Hsub. }
    assert (Hxc : x ∈ common) by (apply Huc; by apply elem_of_unique).
    apply list_elem_of_filter in Hxc as [_ Hxc]. by rewrite elem_of_unique in Hxc. }
  (* the last unique value sits at some rank of [ids] *)
  destruct (lookup_lt_is_Some_2 uid (length uid - 1)) as [u Hu]; [lia|].
  assert (Huin : u ∈ ids).
  { apply elem_of_unique. eapply list_elem_of_lookup_2, Hu. }
  assert (Hfi : Np.first_index u uid = Some (length uid - 1)%nat).
  { apply first_index_NoDup; [|done].
    apply increasing_NoDup, increasing_unique. }
  eapply (take_Err _ _ (length uid - 1)%nat).
  - unfold Np.unique_inverse. apply list_elem_of_omap. eauto.
  - etransitivity; [apply length_omap_le|]. fold common. lia.
Qed.

End Get.

Section GetResult.
Variable st : Regions.

Lemma get_unfold (ids : list Z) :
  get st ids =
    rows ← Np.take (Np.intersect1d (id st) (Np.unique ids)).1.2
                   (Np.unique_inverse ids);
    b_id ← Np.take (id st) rows;
    b_name ← Np.take (name st) rows;
    b_acronym ← Np.take (acronym st) rows;
    b_rgb ← Np.take (rgb st) rows;
    b_level ← Np.take (level st) rows;
    b_parent ← Np.take (parent st) rows;
    Ok (mkRegions b_id b_name b_acronym b_rgb b_level b_parent).
Proof.
  unfold get. by destruct (Np.intersect1d _ _) as [[c iself] ib].
Qed.

(** Successful lookups: the rows read and the six columns of the bunch. *)
Lemma get_present (ids : list Z) :
  same_length st ->
  Forall (fun x => x ∈ id st) ids ->
  exists rows b,
    Forall2 (fun x p => Np.first_index x (id st) = Some p) ids rows /\
    get st ids = Ok b /\
    id b = ids /\
    Np.take (name st) rows = Ok (name b) /\
    Np.take (acronym st) rows = Ok (acronym b) /\
    Np.take (rgb st) rows = Ok (rgb b) /\
    Np.take (level st) rows = Ok (level b) /\
    Np.take (parent st) rows = Ok (parent b).
Proof.
  intros (Hn & Ha & Hr & Hl & Hp) Hin.
  destruct (get_rows_present st ids Hin) as (rows & Hrows & Hfi).
  assert (Hrange : Forall (fun p => (p < length (id st))%nat) rows).
  { apply Forall_forall. intros p [k Hk]%list_elem_of_lookup.
    destruct (Forall2_lookup_r _ _ _ _ _ Hfi Hk) as (x & _ & Hx).
    apply first_index_Some, lookup_lt_Some in Hx. done. }
  assert (Hid : Np.take (id st) rows = Ok ids).
  { apply take_Ok. apply Forall2_flip.
    eapply Forall2_impl; [exact Hfi|]. simpl. intros x p.
    apply first_index_Some. }
  destruct (take_in_range (name st) rows) as [bn Hbn]; [by rewrite Hn|].
  destruct (take_in_range (acronym st) rows) as [ba Hba]; [by rewrite Ha|].
  destruct (take_in_range (rgb st) rows) as [br Hbr]; [by rewrite Hr|].
  destruct (take_in_range (level st) rows) as [bl Hbl]; [by rewrite Hl|].
  destruct (take_in_range (parent st) rows) as [bp Hbp]; [by rewrite Hp|].
  exists rows, (mkRegions ids bn ba br bl bp). simpl.
  repeat split; try done.
  rewrite get_unfold, Hrows. simpl.
  rewrite Hid; simpl. rewrite Hbn; simpl. rewrite Hba; simpl.
  rewrite Hbr; simpl. rewrite Hbl; simpl. rewrite Hbp; simpl. done.
Qed.

(** C1. When every id of [ids] is in the store, [get] returns a bunch whose
    six columns have the length of [ids] and whose row of rank [k] is the
    store row of [ids !! k], repeats and order included. *)
Theorem get_same_length_and_order (ids : list Z) :
  same_length st ->
  Forall (fun x => x ∈ id st) ids ->
  exists b,
    get st ids = Ok b /\
    (length (id b) = length ids /\ length (name b) = length ids /\
     length (acronym b) = length ids /\ length (rgb b) = length ids /\
     length (level b) = length ids /\ length (parent b) = length ids) /\
    forall (k : nat) (x : Z), ids !! k = Some x ->
      exists p : nat,
        Np.first_index x (id st) = Some p /\
        id st !! p = Some x /\
        id b !! k = Some x /\
        name b !! k = name st !! p /\
        acronym b !! k = acronym st !! p /\
        rgb b !! k = rgb st !! p /\
        level b !! k = level st !! p /\
        parent b !! k = parent st !! p /\
        (p < length (id st))%nat.
Proof.
  intros Hlen Hin.
  destruct (get_present ids Hlen Hin)
    as (rows & b & Hfi & Hget & Hid & Hn & Ha & Hr & Hl & Hp).
  exists b. split; [done|].
  pose proof (Forall2_length _ _ _ Hfi) as Hlr.
  split.
  - rewrite Hid, (take_length _ _ _ Hn), (take_length _ _ _ Ha),
      (take_length _ _ _ Hr), (take_length _ _ _ Hl), (take_length _ _ _ Hp).
    repeat split; lia.
  - intros k x Hk.
    destruct (Forall2_lookup_l _ _ _ _ _ Hfi Hk) as (p & Hpk & Hfp).
    exists p. pose proof (first_index_Some _ _ _ Hfp) as Hidp.
    rewrite Hid.
    rewrite (take_lookup _ _ _ k p Hn Hpk), (take_lookup _ _ _ k p Ha Hpk),
      (take_lookup _ _ _ k p Hr Hpk), (take_lookup _ _ _ k p Hl Hpk),
      (take_lookup _ _ _ k p Hp Hpk).
    repeat split; try done. by apply lookup_lt_Some in Hidp.
Qed.

(** C2, as the code behaves.  An id that is not in the store makes [get]
    raise [IndexError]: the inverse index addresses a rank past the end of
    the matched rows, and no bunch is returned. *)
Theorem get_absent_raises (ids : list Z) (x : Z) :
  x ∈ ids -> x ∉ id st -> get st ids = Err IndexError.
Proof.
  intros Hx Hnot. rewrite get_unfold.
  by rewrite (get_rows_absent st ids x Hx Hnot).
Qed.

End GetResult.

Lemma fixture_same_length : same_length Fixture.store.
Proof. repeat split. Qed.

Lemma get_same_length_and_order_witness :
  exists b, get Fixture.store [40; 10; 40; -20] = Ok b /\
            length (id b) = 4%nat /\ id b !! 2%nat = Some 40.
Proof.
  destruct (get_same_length_and_order Fixture.store [40; 10; 40; -20])
    as (b & Hb & (Hl & _) & Hrow).
  - exact fixture_same_length.
  - decide_now.
  - exists b. split; [exact Hb|]. split; [exact Hl|].
    destruct (Hrow 2%nat 40 eq_refl) as (p & _ & _ & H & _). exact H.
Defined.

Lemma get_absent_raises_witness :
  get Fixture.store [40; 11] = Err IndexError.
Proof.
  apply (get_absent_raises Fixture.store [40; 11] 11).
  - decide_now.
  - decide_now.
Defined.

(** C2, as stated, fails: with the id 11 absent from the fixture, [get]
    returns no bunch at all, shorter or not. *)
Lemma get_absent_no_shorter_result :
  11 ∈ [40; 11] /\ (11 ∉ id Fixture.store) /\
  ~ (exists b : Regions,
        get Fixture.store [40; 11] = Ok b /\
        (length (id b) < 2)%nat).
Proof.
  split; [decide_now|]. split; [decide_now|].
  intros (b & Hb & _). vm_compute in Hb. discriminate.
Qed.

(** ** Masks *)

Section Masks.

Lemma sum_cons (b : bool) (m : list bool) :
  Np.sum (b :: m) = ((if b then 1 else 0) + Np.sum m)%nat.
Proof.
  unfold Np.sum. rewrite filter_cons. by destruct b.
Qed.

Lemma mask_le_refl (m : list bool) : mask_le m m.
Proof. induction m; constructor; auto. Qed.

Lemma mask_le_trans (a b c : list bool) :
  mask_le a b -> mask_le b c -> mask_le a c.
Proof.
  intros Hab; revert c; induction Hab as [|x y a b Hxy _ IH]; intros c Hbc.
  - inversion Hbc; constructor.
  - inversion Hbc as [|? z ? c' Hyz Hbc']; subst.
    constructor; [auto|]. by apply IH.
Qed.

Lemma sum_le_length (m : list bool) : (Np.sum m <= length m)%nat.
Proof. apply length_filter. Qed.

Lemma mask_le_sum (a b : list bool) :
  mask_le a b -> (Np.sum a <= Np.sum b)%nat.
Proof.
  induction 1 as [|x y a b Hxy _ IH]; [done|].
  rewrite !sum_cons.
  destruct x, y; first [lia | by specialize (Hxy eq_refl)].
Qed.

(** A mask that grew without gaining a position did not change. *)
Lemma mask_le_sum_eq (a b : list bool) :
  mask_le a b -> Np.sum a = Np.sum b -> a = b.
Proof.
  induction 1 as [|x y a b Hxy Hab IH]; [done|].
  rewrite !sum_cons. pose proof (mask_le_sum _ _ Hab).
  destruct x, y; intros Hs;
    first [f_equal; apply IH; lia | by specialize (Hxy eq_refl) | lia].
Qed.

Lemma mask_or_length (m x : list bool) :
  length x = length m -> length (Np.mask_or m x) = length m.
Proof. intros H. unfold Np.mask_or. rewrite length_zip_with. lia. Qed.

Lemma mask_or_le (m x : list bool) :
  length x = length m -> mask_le m (Np.mask_or m x).
Proof.
  revert x; induction m as [|b m IH]; intros [|c x]; simpl; try done.
  - constructor.
  - intros [= H]. constructor; [|by apply IH].
    intros ->. done.
Qed.

Lemma mask_or_lookup (m x : list bool) (p : nat) (b c : bool) :
  m !! p = Some b -> x !! p = Some c -> Np.mask_or m x !! p = Some (b || c).
Proof.
  intros Hb Hc. unfold Np.mask_or. rewrite lookup_zip_with, Hb, Hc. done.
Qed.

Lemma select_elem {A : Type} (arr : list A) (m : list bool) (y : A) :
  y ∈ Np.select arr m <-> exists p, arr !! p = Some y /\ m !! p = Some true.
Proof.
  revert m; induction arr as [|x t IH]; intros [|b m]; simpl.
  - rewrite elem_of_nil. split; [done|]. by intros (p & H & _).
  - rewrite elem_of_nil. split; [done|]. by intros (p & H & _).
  - rewrite elem_of_nil. split; [done|]. by intros (p & _ & H).
  - destruct b.
    + rewrite elem_of_cons, IH. split.
      * intros [->|(p & H1 & H2)]; [by exists 0%nat|by exists (S p)].
      * intros ([|p] & H1 & H2); simpl in *; [left; congruence|right; eauto].
    + rewrite IH. split.
      * intros (p & H1 & H2); by exists (S p).
      * intros ([|p] & H1 & H2); simpl in *; [congruence|eauto].
Qed.

Lemma where_from_elem (i : nat) (m : list bool) (p : nat) :
  p ∈ Np.where_from i m <-> (i <= p)%nat /\ m !! (p - i)%nat = Some true.
Proof.
  revert i; induction m as [|b m IH]; intros i; simpl.
  - rewrite elem_of_nil. split; [done|]. by intros [_ H].
  - assert (Hstep : (S i <= p)%nat /\ m !! (p - S i)%nat = Some true <->
                    (i <= p)%nat /\ p <> i /\ (b :: m) !! (p - i)%nat = Some true).
    { split.
      - intros [H1 H2]. repeat split; [lia|lia|].
        replace (p - i)%nat with (S (p - S i)) by lia. done.
      - intros (H1 & H2 & H3). split; [lia|].
        replace (p - i)%nat with (S (p - S i)) in H3 by lia. done. }
    destruct b.
    + rewrite elem_of_cons, IH, Hstep. split.
      * intros [->|(? & ? & ?)]; [|done]. split; [lia|].
        by replace (i - i)%nat with 0%nat by lia.
      * intros [H1 H2]. destruct (decide (p = i)); [by left|right; done].
    + rewrite IH, Hstep. split; [tauto|]. intros [H1 H2].
      repeat split; try done. intros ->.
      by replace (i - i)%nat with 0%nat in H2 by lia.
Qed.

Lemma where_true_elem (m : list bool) (p : nat) :
  p ∈ Np.where_true m <-> m !! p = Some true.
Proof.
  unfold Np.where_true. rewrite where_from_elem.
  replace (p - 0)%nat with p by lia. split; [tauto|]. split; [lia|done].
Qed.

End Masks.

(** ** [_navigate_tree]: rejection of a direction, termination *)

Section Navigate.
Variables (st : Regions) (ids : list Z) (direction : string).

Lemma nav_run_exit (fuel : nat) (m : list bool) :
  nav_run st ids direction fuel (NavExit m) = NavExit m.
Proof. induction fuel; simpl; auto. Qed.

Lemma nav_run_raise (fuel : nat) (e : error) :
  nav_run st ids direction fuel (NavRaise e) = NavRaise e.
Proof. induction fuel; simpl; auto. Qed.

Lemma nav_run_S (fuel : nat) (s : nav_state) :
  nav_run st ids direction (S fuel) s =
  nav_run st ids direction fuel (nav_step st ids direction s).
Proof. done. Qed.

Lemma nav_run_plus (f1 f2 : nat) (s : nav_state) :
  nav_run st ids direction (f1 + f2) s =
  nav_run st ids direction f2 (nav_run st ids direction f1 s).
Proof. revert s; induction f1; simpl; auto. Qed.

Lemma closure_pass_invalid (m : list bool) :
  direction <> "up" -> direction <> "down" ->
  closure_pass st direction m = Err ValueError.
Proof.
  intros Hu Hd. unfold closure_pass.
  destruct (decide (direction = "down")); [done|].
  destruct (decide (direction = "up")); done.
Qed.

Lemma closure_pass_valid (m : list bool) :
  length (parent st) = length (id st) ->
  direction = "down" \/ direction = "up" ->
  length m = length (id st) ->
  exists m', closure_pass st direction m = Ok m' /\
             length m' = length (id st) /\ mask_le m m'.
Proof.
  intros Hlen Hdir Hm. unfold closure_pass.
  destruct (decide (direction = "down")) as [|Hnd].
  - eexists; split; [done|]. split.
    + rewrite mask_or_length; [done|].
      unfold Np.isin_float. rewrite length_map. lia.
    + apply mask_or_le. unfold Np.isin_float. rewrite length_map. lia.
  - destruct Hdir as [|Hup]; [done|].
    destruct (decide (direction = "up")); [|done].
    eexists; split; [done|]. split.
    + rewrite mask_or_length; [done|].
      unfold Np.isin_float. rewrite length_map, length_fmap. lia.
    + apply mask_or_le. unfold Np.isin_float.
      rewrite length_map, length_fmap. lia.
Qed.

(** From the head of the loop, with [d] positions at most still
    unselected, the loop leaves within [d] growing passes and one last
    pass that selects nothing new. *)
Lemma loop_exits (d : nat) :
  length (parent st) = length (id st) ->
  direction = "down" \/ direction = "up" ->
  forall m : list bool,
    length m = length (id st) ->
    (length (id st) - Np.sum m <= d)%nat ->
    exists (k : nat) (final : list bool),
      (k <= d)%nat /\
      (forall j : nat, (j <= k)%nat ->
         exists mj mj' : list bool,
           nav_run st ids direction j (NavLoop m (Np.sum m))
             = NavLoop mj (Np.sum mj) /\
           length mj = length (id st) /\
           closure_pass st direction mj = Ok mj' /\
           mask_le m mj /\ mask_le mj mj' /\
           ((j < k)%nat -> (Np.sum mj < Np.sum mj')%nat) /\
           (j = k -> Np.sum mj' = Np.sum mj /\ mj' = final)) /\
      nav_run st ids direction (S k) (NavLoop m (Np.sum m)) = NavExit final /\
      mask_le m final /\ length final = length (id st).
Proof.
  intros Hlen Hdir. induction d as [|d IH]; intros m Hm Hd.
  - destruct (closure_pass_valid m Hlen Hdir Hm) as (m' & Hpass & Hm' & Hle).
    pose proof (mask_le_sum _ _ Hle). pose proof (sum_le_length m').
    assert (Heq : Np.sum m = Np.sum m') by lia.
    exists 0%nat, m'. split; [lia|]. split; [|split; [|done]].
    + intros j Hj. assert (j = 0)%nat as -> by lia.
      exists m, m'. simpl.
      split_and!; [done|done|done|apply mask_le_refl|done|lia|].
      intros _; split; [lia|done].
    + simpl. rewrite Hpass. by apply Nat.eqb_eq in Heq as ->.
  - destruct (closure_pass_valid m Hlen Hdir Hm) as (m' & Hpass & Hm' & Hle).
    pose proof (mask_le_sum _ _ Hle) as Hsum.
    pose proof (sum_le_length m') as Hbound.
    pose proof (mask_le_refl m) as Hrefl.
    destruct (Nat.eqb_spec (Np.sum m) (Np.sum m')) as [Heq|Hne].
    + exists 0%nat, m'. split; [lia|]. split; [|split; [|done]].
      * intros j Hj. assert (j = 0)%nat as -> by lia.
        exists m, m'. simpl.
        split_and!; [done|done|done|done|done|lia|].
        intros _; split; [lia|done].
      * simpl. rewrite Hpass. by apply Nat.eqb_eq in Heq as ->.
    + destruct (IH m' Hm') as (k & final & Hk & Hstates & Hexit & Hfin & Hlf);
        [lia|].
      assert (Hstep : nav_step st ids direction (NavLoop m (Np.sum m))
                      = NavLoop m' (Np.sum m')).
      { simpl. rewrite Hpass. by apply Nat.eqb_neq in Hne as ->. }
      exists (S k), final. split; [lia|]. split; [|split; [|split]].
      * intros [|j] Hj.
        -- exists m, m'. simpl.
           split_and!; [done|done|done|done|done|lia|lia].
        -- destruct (Hstates j) as (mj & mj' & H1 & H2 & H3 & H4 & H5 & H6 & H7);
             [lia|].
           exists mj, mj'. rewrite nav_run_S, Hstep.
           split_and!; try done.
           ++ eapply mask_le_trans; [exact Hle|exact H4].
           ++ intros ?. apply H6. lia.
           ++ intros ?. apply H7. lia.
      * by rewrite nav_run_S, Hstep.
      * eapply mask_le_trans; [exact Hle|exact Hfin].
      * done.
Qed.

End Navigate.

Section NavigateResult.
Variables (st : Regions) (ids : list Z) (direction : string).

Local Abbreviation seed := (seed_mask st ids).

Lemma seed_mask_length : length seed = length (id st).
Proof. unfold seed_mask, ismember, Np.isin; simpl. by rewrite length_map. Qed.

Lemma nav_run_init (fuel : nat) :
  nav_run st ids direction (S fuel) NavInit =
  nav_run st ids direction fuel (NavLoop seed (Np.sum seed)).
Proof. done. Qed.

Lemma nav_run_invariant (P : list bool -> Prop) :
  (forall m m', P m -> closure_pass st direction m = Ok m' -> P m') ->
  forall (fuel : nat) (s : nav_state),
    holds_of st ids P s -> holds_of st ids P (nav_run st ids direction fuel s).
Proof.
  intros Hpass. induction fuel as [|fuel IH]; intros s Hs; [done|].
  rewrite nav_run_S. apply IH.
  destruct s as [|m c|m|e]; simpl; try done.
  destruct (closure_pass st direction m) as [m'|e] eqn:E; [|done].
  destruct (Nat.eqb c (Np.sum m')); simpl; eauto.
Qed.

(** The state in which a valid navigation leaves the loop: the final mask
    contains the seed, and one more pass would not change it. *)
Lemma navigate_exit :
  length (parent st) = length (id st) ->
  direction = "down" \/ direction = "up" ->
  exists final : list bool,
    nav_run st ids direction (nav_budget st) NavInit = NavExit final /\
    length final = length (id st) /\
    mask_le seed final /\
    closure_pass st direction final = Ok final.
Proof.
  intros Hlen Hdir.
  destruct (loop_exits st ids direction (length (id st)) Hlen Hdir seed)
    as (k & final & Hk & Hstates & Hexit & Hle & Hlf);
    [apply seed_mask_length|lia|].
  exists final. split_and!; try done.
  - unfold nav_budget.
    replace (length (id st) + 2)%nat
      with (S (S k + (length (id st) - k)))%nat by lia.
    rewrite nav_run_init, nav_run_plus, Hexit. apply nav_run_exit.
  - destruct (Hstates k) as (mk & mk' & _ & _ & Hpass & _ & Hmk & _ & Hlast);
      [lia|].
    destruct (Hlast eq_refl) as [Hsum ->].
    assert (mk = final) as -> by (by apply mask_le_sum_eq).
    done.
Qed.

(** C3, as the code behaves.  A direction that is neither up nor down is
    rejected with [ValueError] and no bunch is returned; the test sits
    inside the loop, so the seed mask and its count are computed first and
    the error is raised at the first pass, before any closure pass. *)
Theorem navigate_tree_invalid_direction :
  direction <> "up" -> direction <> "down" ->
  _navigate_tree st ids direction = Err ValueError /\
  nav_step st ids direction NavInit
    = NavLoop seed (Np.sum seed) /\
  nav_step st ids direction (NavLoop seed (Np.sum seed))
    = NavRaise ValueError.
Proof.
  intros Hu Hd.
  assert (Hraise : nav_step st ids direction
                     (NavLoop seed (Np.sum seed))
                   = NavRaise ValueError).
  { simpl. by rewrite closure_pass_invalid. }
  split_and!; try done.
  unfold _navigate_tree, nav_budget.
  replace (length (id st) + 2)%nat with (S (S (length (id st)))) by lia.
  by rewrite nav_run_init, nav_run_S, Hraise, nav_run_raise.
Qed.

(** C4. For a direction up or down the loop terminates.  It goes through
    [k + 1] passes, [k] at most the size of the store: each pass only adds
    positions to the mask, the count never exceeds the size of the store,
    the first [k] passes each add a position and the loop leaves at the
    first pass that adds none.  Any fuel from [k + 2] on, the budget of
    [_navigate_tree] included, reaches that exit. *)
Theorem navigate_tree_terminates :
  length (parent st) = length (id st) ->
  direction = "down" \/ direction = "up" ->
  exists (k : nat) (final : list bool),
    (k <= length (id st))%nat /\
    (forall j : nat, (j <= k)%nat ->
       exists mj mj' : list bool,
         nav_run st ids direction (S j) NavInit = NavLoop mj (Np.sum mj) /\
         closure_pass st direction mj = Ok mj' /\
         mask_le mj mj' /\
         (Np.sum mj' <= length (id st))%nat /\
         ((j < k)%nat -> (Np.sum mj < Np.sum mj')%nat) /\
         (j = k -> Np.sum mj' = Np.sum mj /\ mj' = final)) /\
    (forall fuel : nat, (k + 2 <= fuel)%nat ->
       nav_run st ids direction fuel NavInit = NavExit final) /\
    nav_run st ids direction (nav_budget st) NavInit = NavExit final.
Proof.
  intros Hlen Hdir.
  destruct (loop_exits st ids direction (length (id st)) Hlen Hdir seed)
    as (k & final & Hk & Hstates & Hexit & Hle & Hlf);
    [apply seed_mask_length|lia|].
  assert (Hfuel : forall fuel : nat, (k + 2 <= fuel)%nat ->
            nav_run st ids direction fuel NavInit = NavExit final).
  { intros fuel Hf.
    replace fuel with (S (S k + (fuel - k - 2)))%nat by lia.
    rewrite nav_run_init, nav_run_plus, Hexit. apply nav_run_exit. }
  exists k, final. split_and!; try done.
  - intros j Hj.
    destruct (Hstates j Hj) as (mj & mj' & H1 & H2 & H3 & H4 & H5 & H6 & H7).
    exists mj, mj'. split_and!; try done.
    pose proof (sum_le_length mj') as Hb.
    destruct (closure_pass_valid st direction mj Hlen Hdir H2)
      as (m2 & Hm2 & Hl2 & _).
    assert (m2 = mj') as -> by congruence. lia.
  - apply Hfuel. unfold nav_budget. lia.
Qed.

End NavigateResult.

(** The closures of the fixture. *)
Example fixture_descendants_A :
  id <$> descendants Fixture.store [Fixture.A]
    = Ok [Fixture.A; Fixture.B; Fixture.C; Fixture.D].
Proof. by vm_compute. Qed.

Example fixture_ancestors_D :
  id <$> ancestors Fixture.store [Fixture.D]
    = Ok [Fixture.root; Fixture.A; Fixture.B; Fixture.D].
Proof. by vm_compute. Qed.

Lemma navigate_tree_invalid_direction_witness :
  _navigate_tree Fixture.store [40] "sideways" = Err ValueError.
Proof.
  apply (navigate_tree_invalid_direction Fixture.store [40] "sideways");
    decide_now.
Defined.

(** C3, as stated, fails: on the fixture the first step of a navigation
    with the direction "sideways" is not the rejection but the seed mask
    of [D], with its count. *)
Lemma navigate_rejects_after_seed_mask :
  "sideways" <> "up" /\ "sideways" <> "down" /\
  nav_step Fixture.store [40] "sideways" NavInit
    = NavLoop [false; false; false; false; false; true;
               false; false; false; false; false] 1 /\
  nav_step Fixture.store [40] "sideways" NavInit <> NavRaise ValueError.
Proof.
  split_and!; [decide_now|decide_now|by vm_compute|by vm_compute].
Qed.

Lemma navigate_tree_terminates_witness :
  exists (k : nat) (final : list bool),
    (k <= 11)%nat /\
    nav_run Fixture.store [10] "down" (nav_budget Fixture.store) NavInit
      = NavExit final.
Proof.
  destruct (navigate_tree_terminates Fixture.store [10] "down")
    as (k & final & Hk & _ & _ & Hrun).
  - reflexivity.
  - left; reflexivity.
  - exists k, final. split; [exact Hk|exact Hrun].
Defined.

(** ** Descendants as reachability along parent links *)

Section Descendants.
Variable st : Regions.
Hypothesis Hlen : same_length st.

Lemma isin_lookup (a b : list Z) (p : nat) (x : Z) :
  a !! p = Some x -> Np.isin a b !! p = Some (bool_decide (x ∈ b)).
Proof. intros H. unfold Np.isin. by rewrite list_lookup_fmap, H. Qed.

Lemma select_in_store (m : list bool) :
  Forall (fun x => x ∈ id st) (Np.select (id st) m).
Proof.
  apply Forall_forall. intros x (p & Hp & _)%select_elem.
  eapply list_elem_of_lookup_2, Hp.
Qed.

(** [descendants] always returns, and the ids of its bunch are those of
    the final mask, a mask that contains the seed and that one more pass
    leaves as it is. *)
Lemma descendants_ok (ids : list Z) :
  exists (final : list bool) (d : Regions),
    nav_run st ids "down" (nav_budget st) NavInit = NavExit final /\
    descendants st ids = Ok d /\
    id d = Np.select (id st) final /\
    length final = length (id st) /\
    mask_le (seed_mask st ids) final /\
    closure_pass st "down" final = Ok final.
Proof.
  destruct Hlen as (_ & _ & _ & _ & Hp).
  destruct (navigate_exit st ids "down" Hp) as (final & Hrun & Hl & Hle & Hfix);
    [by left|].
  destruct (get_present st (Np.select (id st) final) Hlen (select_in_store final))
    as (rows & d & _ & Hget & Hid & _).
  exists final, d. split_and!; try done.
  unfold descendants, _navigate_tree. by rewrite Hrun.
Qed.

Lemma ancestors_ok (ids : list Z) :
  exists (final : list bool) (d : Regions),
    nav_run st ids "up" (nav_budget st) NavInit = NavExit final /\
    ancestors st ids = Ok d /\
    id d = Np.select (id st) final.
Proof.
  destruct Hlen as (_ & _ & _ & _ & Hp).
  destruct (navigate_exit st ids "up" Hp) as (final & Hrun & Hl & Hle & Hfix);
    [by right|].
  destruct (get_present st (Np.select (id st) final) Hlen (select_in_store final))
    as (rows & d & _ & Hget & Hid & _).
  exists final, d. split_and!; try done.
  unfold ancestors, _navigate_tree. by rewrite Hrun.
Qed.

Lemma closure_pass_down_lookup (m : list bool) (p : nat) (b : bool)
    (o : option Z) :
  m !! p = Some b -> parent st !! p = Some o ->
  exists m', closure_pass st "down" m = Ok m' /\
    m' !! p = Some (b || match o with
                         | Some y => bool_decide (y ∈ Np.select (id st) m)
                         | None => false
                         end).
Proof.
  intros Hb Ho. eexists; split; [done|].
  erewrite mask_or_lookup; [done|exact Hb|].
  unfold Np.isin_float. rewrite list_lookup_fmap, Ho. simpl.
  destruct o as [y|]; [|done]. do 2 f_equal.
  apply bool_decide_ext. rewrite list_elem_of_fmap. split.
  - intros (z & [= ->] & Hz). done.
  - intros Hy. eauto.
Qed.

(** Every position of the final mask reaches the seed region. *)
Lemma final_mask_reach (m : Z) (final : list bool) (p : nat) :
  nav_run st [m] "down" (nav_budget st) NavInit = NavExit final ->
  final !! p = Some true -> reach st m p.
Proof.
  intros Hrun.
  set (P := fun mask : list bool =>
              length mask = length (id st) /\
              forall q, mask !! q = Some true -> reach st m q).
  assert (Hstep : forall mask mask', P mask ->
            closure_pass st "down" mask = Ok mask' -> P mask').
  { clear Hrun p. intros mask mask' [Hl Hreach] Hpass.
    destruct Hlen as (_ & _ & _ & _ & Hpl).
    destruct (closure_pass_valid st "down" mask Hpl (or_introl eq_refl) Hl)
      as (m2 & Hm2 & Hl2 & _).
    assert (m2 = mask') as -> by congruence.
    split; [done|]. intros p Hp.
    assert (Hlt : (p < length mask)%nat).
    { apply lookup_lt_Some in Hp. lia. }
    destruct (lookup_lt_is_Some_2 mask p Hlt) as [b Hb].
    destruct (lookup_lt_is_Some_2 (parent st) p) as [o Ho]; [lia|].
    destruct (closure_pass_down_lookup mask p b o Hb Ho) as (m3 & Hm3 & Hm3p).
    assert (m3 = mask') as -> by congruence.
    rewrite Hp in Hm3p. injection Hm3p as Hm3p. symmetry in Hm3p.
    apply orb_true_iff in Hm3p as [->|Hnew]; [by apply Hreach|].
    destruct o as [y|]; [|done].
    apply bool_decide_eq_true in Hnew.
    apply select_elem in Hnew as (q & Hq & Hmq).
    eapply reach_child; eauto. }
  pose proof (nav_run_invariant st [m] "down" P Hstep (nav_budget st) NavInit)
    as Hinv.
  rewrite Hrun in Hinv. simpl in Hinv. apply Hinv. split.
  - apply seed_mask_length.
  - intros q Hq. unfold seed_mask, ismember in Hq; simpl in Hq.
    destruct (id st !! q) as [x|] eqn:Hx.
    + rewrite (isin_lookup _ _ _ _ Hx) in Hq.
      injection Hq as Hq. apply bool_decide_eq_true in Hq.
      apply list_elem_of_singleton in Hq as ->. by apply reach_seed.
    + apply lookup_lt_Some in Hq. apply lookup_ge_None in Hx.
      unfold Np.isin in Hq. rewrite length_map in Hq. lia.
Qed.

(** Every position that reaches the seed region is in the final mask. *)
Lemma reach_final_mask (m : Z) (final : list bool) (p : nat) :
  nav_run st [m] "down" (nav_budget st) NavInit = NavExit final ->
  reach st m p -> final !! p = Some true.
Proof.
  intros Hrun Hreach.
  destruct (descendants_ok [m])
    as (final' & d & Hrun' & _ & _ & Hl & Hle & Hfix).
  assert (final' = final) as -> by congruence.
  induction Hreach as [p Hp|p q y Hpar Hq _ IH].
  - assert (Hseed : seed_mask st [m] !! p = Some true).
    { unfold seed_mask, ismember; simpl.
      rewrite (isin_lookup _ _ _ _ Hp). f_equal.
      apply bool_decide_eq_true. by apply list_elem_of_singleton. }
    destruct (Forall2_lookup_l _ _ _ _ _ Hle Hseed) as (b & Hb & Himp).
    by rewrite Hb, Himp.
  - assert (Hlt : (p < length final)%nat).
    { apply lookup_lt_Some in Hpar.
      destruct Hlen as (_ & _ & _ & _ & Hpl). lia. }
    destruct (lookup_lt_is_Some_2 final p Hlt) as [b Hb].
    destruct (closure_pass_down_lookup final p b (Some y) Hb Hpar)
      as (m2 & Hm2 & Hm2p).
    assert (m2 = final) as -> by congruence.
    rewrite Hm2p. f_equal.
    apply orb_true_iff. right. apply bool_decide_eq_true.
    apply select_elem. eauto.
Qed.

(** With distinct ids, the descendant set of [m] is the set of positions
    that reach [m]. *)
Lemma in_subtree_reach (m : Z) (p : nat) :
  NoDup (id st) ->
  in_subtree st m p <-> reach st m p /\ (p < length (id st))%nat.
Proof.
  intros Hnd.
  destruct (descendants_ok [m])
    as (final & d & Hrun & Hdesc & Hid & Hl & Hle & Hfix).
  split.
  - intros (d' & x & Hd' & Hx & Hin).
    assert (d' = d) as -> by congruence.
    rewrite Hid in Hin. apply select_elem in Hin as (q & Hq & Hmq).
    assert (q = p) as -> by (eapply NoDup_lookup; eauto).
    split; [by eapply final_mask_reach|]. by apply lookup_lt_Some in Hx.
  - intros [Hreach Hlt].
    destruct (lookup_lt_is_Some_2 (id st) p Hlt) as [x Hx].
    exists d, x. split_and!; try done.
    rewrite Hid. apply select_elem. exists p. split; [done|].
    by eapply reach_final_mask.
Qed.

End Descendants.

(** ** Scattered assignments *)

Section Scatter.
Context {A : Type}.

Lemma scatter_length (arr : list A) (idx : list nat) (v : A) :
  length (Np.scatter_at arr idx v) = length arr.
Proof.
  unfold Np.scatter_at. revert arr; induction idx as [|i idx IH]; intros arr.
  - done.
  - simpl. by rewrite IH, length_insert.
Qed.

Lemma scatter_lookup_out (arr : list A) (idx : list nat) (v : A) (p : nat) :
  p ∉ idx -> Np.scatter_at arr idx v !! p = arr !! p.
Proof.
  unfold Np.scatter_at. revert arr; induction idx as [|i idx IH]; intros arr Hp.
  - done.
  - simpl. apply not_elem_of_cons in Hp as [Hne Hp].
    rewrite IH by done. by apply list_lookup_insert_ne.
Qed.

Lemma scatter_lookup_in (arr : list A) (idx : list nat) (v : A) (p : nat) :
  p ∈ idx -> (p < length arr)%nat -> Np.scatter_at arr idx v !! p = Some v.
Proof.
  unfold Np.scatter_at. revert arr; induction idx as [|i idx IH]; intros arr Hp Hlt.
  - by apply elem_of_nil in Hp.
  - simpl. destruct (decide (p ∈ idx)) as [Hin|Hout].
    + apply IH; [done|]. by rewrite length_insert.
    + apply elem_of_cons in Hp as [->|Hp]; [|done].
      fold (Np.scatter_at (<[i:=v]> arr) idx v).
      rewrite scatter_lookup_out by done.
      by apply list_lookup_insert_eq.
Qed.

Lemma scatter_Forall (P : A -> Prop) (arr : list A) (idx : list nat) (v : A) :
  Forall P arr -> P v -> Forall P (Np.scatter_at arr idx v).
Proof.
  unfold Np.scatter_at. revert arr; induction idx as [|i idx IH]; intros arr H Hv.
  - done.
  - simpl. apply IH; [|done]. by apply Forall_insert.
Qed.

Lemma in_bounds_Forall (arr : list A) (idx : list nat) :
  Forall (fun p => (p < length arr)%nat) idx -> Np.in_bounds arr idx = true.
Proof.
  intros H. unfold Np.in_bounds. apply forallb_forall.
  intros p Hp%list_elem_of_In. apply Nat.ltb_lt.
  rewrite Forall_forall in H. by apply H.
Qed.

Lemma scatter_Ok (arr : list A) (idx : list nat) (v : A) :
  Forall (fun p => (p < length arr)%nat) idx ->
  Np.scatter arr idx v = Ok (Np.scatter_at arr idx v).
Proof. intros H. unfold Np.scatter. by rewrite in_bounds_Forall. Qed.

End Scatter.

Section ScatterSelf.

Lemma scatter_self_length (arr idx : list nat) :
  length (Np.scatter_self_at arr idx) = length arr.
Proof.
  unfold Np.scatter_self_at. revert arr; induction idx as [|i idx IH]; intros arr.
  - done.
  - simpl. by rewrite IH, length_insert.
Qed.

Lemma scatter_self_lookup_out (arr idx : list nat) (p : nat) :
  p ∉ idx -> Np.scatter_self_at arr idx !! p = arr !! p.
Proof.
  unfold Np.scatter_self_at. revert arr; induction idx as [|i idx IH]; intros arr Hp.
  - done.
  - simpl. apply not_elem_of_cons in Hp as [Hne Hp].
    rewrite IH by done. by apply list_lookup_insert_ne.
Qed.

Lemma scatter_self_Forall (P : nat -> Prop) (arr idx : list nat) :
  Forall P arr -> Forall P idx -> Forall P (Np.scatter_self_at arr idx).
Proof.
  unfold Np.scatter_self_at. revert arr; induction idx as [|i idx IH]; intros arr H Hi.
  - done.
  - simpl. inversion Hi; subst. apply IH; [|done]. by apply Forall_insert.
Qed.

Lemma scatter_self_Ok (arr idx : list nat) :
  Forall (fun p => (p < length arr)%nat) idx ->
  Np.scatter_self arr idx = Ok (Np.scatter_self_at arr idx).
Proof. intros H. unfold Np.scatter_self. by rewrite in_bounds_Forall. Qed.

End ScatterSelf.

(** ** The members of a scheme and the positions of their subtrees *)

Section Members.
Variables (st : Regions) (new_map : list Z).
Hypothesis Hlen : same_length st.
Hypothesis Hnd : NoDup (id st).

Lemma members_elem (q : nat) :
  q ∈ members st new_map <->
  exists m, id st !! q = Some m /\ m ∈ symmetrize new_map.
Proof.
  unfold members, ismember; simpl. rewrite where_true_elem. split.
  - intros Hq. destruct (id st !! q) as [m|] eqn:Hm.
    + rewrite (isin_lookup _ _ _ _ Hm) in Hq. injection Hq as Hq.
      apply bool_decide_eq_true in Hq. eauto.
    + apply lookup_lt_Some in Hq. apply lookup_ge_None in Hm.
      unfold Np.isin in Hq. rewrite length_map in Hq. lia.
  - intros (m & Hm & Hin). rewrite (isin_lookup _ _ _ _ Hm). f_equal.
    by apply bool_decide_eq_true.
Qed.

Lemma members_lt (q : nat) :
  q ∈ members st new_map -> (q < length (id st))%nat.
Proof. intros (m & Hm & _)%members_elem. by apply lookup_lt_Some in Hm. Qed.

Lemma assign_subtree_unfold (iid : list nat) (mapind : list nat) (i : nat) :
  assign_subtree st iid mapind i =
    idesc ← idesc_of st iid i;
    p ← of_option IndexError (iid !! i);
    Np.scatter mapind idesc p.
Proof.
  unfold assign_subtree, idesc_of.
  destruct (iid !! i) as [p|]; simpl; [|done].
  destruct (id st !! p) as [m|]; simpl; [|done].
  destruct (descendants st [m]) as [d|]; simpl; [|done].
  by destruct (Np.intersect1d (id st) (id d)) as [[c ia] ib].
Qed.

(** The positions overwritten for a member are those of its descendant
    set. *)
Lemma idesc_of_spec (iid : list nat) (i q : nat) (m : Z) :
  iid !! i = Some q -> id st !! q = Some m ->
  exists idesc, idesc_of st iid i = Ok idesc /\
    forall p, p ∈ idesc <-> in_subtree st m p.
Proof.
  intros Hi Hq.
  destruct (descendants_ok st Hlen [m]) as (final & d & _ & Hd & _).
  exists (Np.intersect1d (id st) (id d)).1.2. split.
  - unfold idesc_of. rewrite Hi; simpl. rewrite Hq; simpl. by rewrite Hd.
  - intros p. unfold Np.intersect1d; simpl.
    rewrite list_elem_of_omap. split.
    + intros (x & [Hxd _]%list_elem_of_filter & Hfi).
      exists d, x. split_and!; [done| |done]. by apply first_index_Some.
    + intros (d' & x & Hd' & Hx & Hin).
      assert (d' = d) as -> by congruence.
      exists x. split; [|by apply first_index_NoDup].
      apply list_elem_of_filter. split; [done|].
      apply elem_of_unique. eapply list_elem_of_lookup_2, Hx.
Qed.

(** A member is in its own descendant set. *)
Lemma in_subtree_self (q : nat) (m : Z) :
  id st !! q = Some m -> in_subtree st m q.
Proof.
  intros Hq. apply in_subtree_reach; [done|done|].
  split; [by apply reach_seed|by apply lookup_lt_Some in Hq].
Qed.

End Members.

(** ** The assignment loop *)

Section ListSplit.

(** The last element of a list that satisfies a decided property. *)
Lemma last_split {A : Type} (P : A -> Prop) (l : list A) :
  (forall x, P x \/ ~ P x) ->
  (exists x, x ∈ l /\ P x) ->
  exists l1 x l2, l = l1 ++ x :: l2 /\ P x /\ forall y, y ∈ l2 -> ~ P y.
Proof.
  intros Hdec. induction l as [|a l IH]; intros (x & Hx & HP).
  - by apply elem_of_nil in Hx.
  - assert (Hcase : (exists y, y ∈ l /\ P y) \/ ~ (exists y, y ∈ l /\ P y)).
    { clear -Hdec. induction l as [|b l IH].
      - right. intros (y & Hy & _). by apply elem_of_nil in Hy.
      - destruct (Hdec b) as [Hb|Hb].
        + left. exists b. split; [left|done].
        + destruct IH as [(y & Hy & HPy)|Hno].
          * left. exists y. split; [by right|done].
          * right. intros (y & [->|Hy]%elem_of_cons & HPy); [done|].
            apply Hno. eauto. }
    destruct Hcase as [Hex|Hno].
    + destruct (IH Hex) as (l1 & y & l2 & -> & Hy & Hl2).
      exists (a :: l1), y, l2. done.
    + apply elem_of_cons in Hx as [->|Hx]; [|exfalso; apply Hno; eauto].
      exists [], a, l. split_and!; [done|done|].
      intros y Hy HPy. apply Hno. eauto.
Qed.

Lemma nondecreasing_cons (x : Z) (l : list Z) :
  nondecreasing (x :: l) = true ->
  Forall (fun y => x <= y) l /\ nondecreasing l = true.
Proof.
  revert x; induction l as [|y l IH]; intros x; simpl.
  - intros _. split; [constructor|done].
  - intros [Hxy Hl]%andb_true_iff. apply Z.leb_le in Hxy.
    split; [|done]. constructor; [done|].
    destruct (IH y Hl) as [Hy _].
    eapply Forall_impl; [exact Hy|]. simpl; intros; lia.
Qed.

Lemma nondecreasing_split (l1 l2 : list Z) (x : Z) :
  nondecreasing (l1 ++ x :: l2) = true -> Forall (fun y => y <= x) l1.
Proof.
  induction l1 as [|a l1 IH]; [constructor|].
  intros H. change ((a :: l1) ++ x :: l2) with (a :: (l1 ++ x :: l2)) in H.
  apply nondecreasing_cons in H as [Ha Hl]. constructor; [|auto].
  rewrite Forall_forall in Ha. apply Ha.
  apply elem_of_app. right. left.
Qed.

End ListSplit.

Section AssignLoop.
Variables (st : Regions) (iid : list nat).
Hypothesis Hlen : same_length st.
Hypothesis Hnd : NoDup (id st).
Hypothesis Hiid : Forall (fun q => (q < length (id st))%nat) iid.

Lemma rank_member (i : nat) :
  (i < length iid)%nat ->
  exists q m, iid !! i = Some q /\ id st !! q = Some m.
Proof.
  intros Hi. destruct (lookup_lt_is_Some_2 iid i Hi) as [q Hq].
  rewrite Forall_forall in Hiid.
  destruct (lookup_lt_is_Some_2 (id st) q) as [m Hm].
  { apply Hiid. eapply list_elem_of_lookup_2, Hq. }
  eauto.
Qed.

Lemma covers_idesc (i : nat) :
  (i < length iid)%nat ->
  exists q idesc, iid !! i = Some q /\ idesc_of st iid i = Ok idesc /\
    forall p, p ∈ idesc <-> covers st iid i p.
Proof.
  intros Hi. destruct (rank_member i Hi) as (q & m & Hq & Hm).
  destruct (idesc_of_spec st Hlen Hnd iid i q m Hq Hm) as (idesc & Hid & Hspec).
  exists q, idesc. split_and!; try done.
  intros p. rewrite Hspec. split.
  - intros H. exists q, m. done.
  - intros (q' & m' & Hq' & Hm' & H). congruence.
Qed.

Lemma covers_dec (i p : nat) : covers st iid i p \/ ~ covers st iid i p.
Proof.
  destruct (decide (i < length iid)%nat) as [Hi|Hi].
  - destruct (covers_idesc i Hi) as (q & idesc & _ & _ & Hspec).
    destruct (decide (p ∈ idesc)); [left|right]; by rewrite <- Hspec.
  - right. intros (q & m & Hq & _). apply lookup_lt_Some in Hq. lia.
Qed.

Lemma covers_lt (i p : nat) : covers st iid i p -> (p < length (id st))%nat.
Proof.
  intros (q & m & _ & _ & (d & x & _ & Hx & _)). by apply lookup_lt_Some in Hx.
Qed.

(** The loop returns; a position covered by no rank of the order keeps
    its entry, and a covered position holds the member of the last rank
    of the order that covers st iid it. *)
Lemma assign_loop_spec (order : list nat) :
  Forall (fun i => (i < length iid)%nat) order ->
  forall mapind : list nat,
    length mapind = length (id st) ->
    exists mapind' : list nat,
      assign_loop st iid order mapind = Ok mapind' /\
      length mapind' = length (id st) /\
      (forall p, (forall i, i ∈ order -> ~ covers st iid i p) ->
         mapind' !! p = mapind !! p) /\
      (forall p o1 i o2, order = o1 ++ i :: o2 -> covers st iid i p ->
         (forall i', i' ∈ o2 -> ~ covers st iid i' p) ->
         mapind' !! p = iid !! i) /\
      (forall P : nat -> Prop, Forall P mapind -> Forall P iid ->
         Forall P mapind').
Proof.
  induction 1 as [|i order Hi Horder IH]; intros mapind Hm.
  - exists mapind. split_and!; try done.
    intros p [|??] i o2 Heq; discriminate.
  - destruct (covers_idesc i Hi) as (q & idesc & Hq & Hid & Hspec).
    assert (Hstep : assign_subtree st iid mapind i
                    = Ok (Np.scatter_at mapind idesc q)).
    { rewrite assign_subtree_unfold, Hid; simpl. rewrite Hq; simpl.
      apply scatter_Ok, Forall_forall. intros p Hp%Hspec.
      rewrite Hm. by eapply covers_lt. }
    destruct (IH (Np.scatter_at mapind idesc q)) as (mapind' & Hloop & Hl & Hout & Hin & Hall).
    { by rewrite scatter_length. }
    exists mapind'. split_and!.
    + simpl. by rewrite Hstep.
    + done.
    + intros p Hp. rewrite Hout.
      * apply scatter_lookup_out. rewrite Hspec. apply Hp. left.
      * intros i' Hi'. apply Hp. by right.
    + intros p [|i0 o1] i1 o2 Heq Hcov Hlast.
      * injection Heq as <- <-.
        rewrite Hout by done.
        rewrite Hq. apply scatter_lookup_in; [by apply Hspec|].
        rewrite Hm. by eapply covers_lt.
      * injection Heq as <- ->. by eapply Hin.
    + intros P HP HPi. apply Hall; [|done].
      apply scatter_Forall; [done|].
      rewrite Forall_forall in HPi. apply HPi.
      eapply list_elem_of_lookup_2, Hq.
Qed.

End AssignLoop.

(** ** The mapping builder *)

Section ArgsortOk.

Lemma argsort_ok_spec (keys : list Z) (order : list nat) :
  argsort_ok keys order = true ->
  (forall j, (j < length keys)%nat -> j ∈ order) /\
  Forall (fun i => (i < length keys)%nat) order /\
  nondecreasing (omap (fun i => keys !! i) order) = true.
Proof.
  unfold argsort_ok.
  intros [[[_ Hall]%andb_true_iff Hlt]%andb_true_iff Hsorted]%andb_true_iff.
  split_and!; [|
    |done].
  - intros j Hj. rewrite forallb_forall in Hall.
    specialize (Hall j). rewrite bool_decide_eq_true in Hall.
    apply Hall. apply in_seq. lia.
  - apply Forall_forall. intros i Hi. rewrite forallb_forall in Hlt.
    specialize (Hlt i). rewrite bool_decide_eq_true in Hlt.
    apply Hlt. by apply list_elem_of_In.
Qed.

End ArgsortOk.

Section Builder.
Variable argsort : list Z -> list nat.
Variables (st : Regions) (new_map : list Z).

Lemma build_unfold_lateralized :
  _mapping_from_regions_list argsort st new_map true =
    if negb (forallb (fun b => b) (Np.isin (symmetrize new_map) (id st)))
    then Err AssertionError
    else
      mapind ← Np.scatter_self (replicate (length (id st)) I_ROOT)
                 (members st new_map);
      keys ← Np.take (level st) (members st new_map);
      mapind ← assign_loop st (members st new_map) (argsort keys) mapind;
      match mapind with
      | [] => Err IndexError
      | _ :: _ => Ok (<[0%nat := I_VOID]> mapind)
      end.
Proof.
  unfold _mapping_from_regions_list, members.
  destruct (negb _); [done|].
  destruct (Np.scatter_self _ _) as [mapind1|]; simpl; [|done].
  destruct (Np.take (level st) _) as [keys|]; simpl; [|done].
  destruct (assign_loop _ _ _ _) as [[|v mapind]|]; done.
Qed.

(** Lines 160-162: the unlateralized array is the lateralized one read
    through the position of the absolute value of each id. *)
Lemma build_unfold_delateralized :
  _mapping_from_regions_list argsort st new_map false =
    mapind ← _mapping_from_regions_list argsort st new_map true;
    Np.take mapind (ismember (map Np.abs (id st)) (id st)).2.
Proof.
  unfold _mapping_from_regions_list.
  destruct (negb _); [done|].
  destruct (Np.scatter_self _ _) as [mapind1|]; simpl; [|done].
  destruct (Np.take (level st) _) as [keys|]; simpl; [|done].
  destruct (assign_loop _ _ _ _) as [[|v mapind]|]; done.
Qed.

Lemma assertion_passes :
  Forall (fun x => x ∈ id st) (symmetrize new_map) <->
  forallb (fun b => b) (Np.isin (symmetrize new_map) (id st)) = true.
Proof.
  unfold Np.isin. generalize (symmetrize new_map) as l.
  induction l as [|x l IH]; simpl.
  - split; [done|constructor].
  - rewrite Forall_cons, andb_true_iff, bool_decide_eq_true, IH. done.
Qed.

Hypothesis Hlen : same_length st.
Hypothesis Hnd : NoDup (id st).
Hypothesis Hsub : Forall (fun x => x ∈ id st) (symmetrize new_map).
Hypothesis Hsort : forall keys,
  Np.take (level st) (members st new_map) = Ok keys ->
  argsort_ok keys (argsort keys) = true.
Hypothesis Hne : (0 < length (id st))%nat.

Let iid := members st new_map.

(** The lateralized array: void pinned, root by default, and on a covered
    position the member of a covering rank whose level no covering rank
    exceeds. *)
Lemma build_lateralized_spec :
  exists lat : list nat,
    _mapping_from_regions_list argsort st new_map true = Ok lat /\
    length lat = length (id st) /\
    lat !! 0%nat = Some I_VOID /\
    (forall p, (0 < p < length (id st))%nat ->
       (forall i, ~ covers st iid i p) -> lat !! p = Some I_ROOT) /\
    (forall p i, (0 < p)%nat -> covers st iid i p ->
       exists i', lat !! p = iid !! i' /\ covers st iid i' p /\
         forall j qj lj q' l',
           covers st iid j p ->
           iid !! j = Some qj -> level st !! qj = Some lj ->
           iid !! i' = Some q' -> level st !! q' = Some l' ->
           lj <= l') /\
    Forall (fun v => v = I_VOID \/ v = I_ROOT \/ v ∈ iid) lat.
Proof.
  assert (Hiid : Forall (fun q => (q < length (id st))%nat) iid).
  { apply Forall_forall. intros q. apply members_lt. }
  destruct (take_in_range (level st) iid) as [keys Hkeys].
  { destruct Hlen as (_ & _ & _ & Hl & _). by rewrite Hl. }
  pose proof (take_length _ _ _ Hkeys) as Hklen.
  destruct (argsort_ok_spec keys (argsort keys) (Hsort keys Hkeys))
    as (Hall & Hrange & Hsorted).
  set (mapind1 := Np.scatter_self_at (replicate (length (id st)) I_ROOT) iid).
  assert (Hself : Np.scatter_self (replicate (length (id st)) I_ROOT) iid
                  = Ok mapind1).
  { apply scatter_self_Ok. by rewrite length_replicate. }
  destruct (assign_loop_spec st iid Hlen Hnd Hiid (argsort keys)) with (mapind := mapind1)
    as (mapind' & Hloop & Hl' & Hout & Hin & Hvals).
  { by rewrite <- Hklen. }
  { unfold mapind1. by rewrite scatter_self_length, length_replicate. }
  assert (Hbuild : _mapping_from_regions_list argsort st new_map true
                   = Ok (<[0%nat := I_VOID]> mapind')).
  { rewrite build_unfold_lateralized.
    rewrite (proj1 assertion_passes Hsub). simpl.
    fold iid. rewrite Hself. simpl. rewrite Hkeys. simpl.
    rewrite Hloop. simpl.
    destruct mapind'; [simpl in Hl'; lia|done]. }
  exists (<[0%nat := I_VOID]> mapind'). split_and!.
  - done.
  - by rewrite length_insert.
  - apply list_lookup_insert_eq. lia.
  - intros p [Hp0 Hpn] Hno.
    rewrite list_lookup_insert_ne by lia.
    rewrite Hout by (intros i _; apply Hno).
    unfold mapind1. rewrite scatter_self_lookup_out.
    + by apply lookup_replicate_2.
    + intros [i Hi]%list_elem_of_lookup. apply (Hno i).
      destruct (lookup_lt_is_Some_2 (id st) p Hpn) as [m Hm].
      exists p, m. split_and!; [done|done|]. by apply in_subtree_self.
  - intros p i Hp0 Hcov.
    assert (Hi : (i < length keys)%nat).
    { destruct Hcov as (q & m & Hq & _). apply lookup_lt_Some in Hq. lia. }
    destruct (last_split (fun j => covers st iid j p) (argsort keys))
      as (o1 & i' & o2 & Heq & Hcov' & Hlast).
    { intros j. by apply covers_dec. }
    { exists i. split; [by apply Hall|done]. }
    exists i'. split_and!.
    + rewrite list_lookup_insert_ne by lia. by eapply Hin.
    + done.
    + intros j qj lj q' l' Hcj Hqj Hlj Hq' Hl'q.
      assert (Hkj : keys !! j = Some lj).
      { by rewrite (take_lookup _ _ _ j qj Hkeys Hqj). }
      assert (Hki : keys !! i' = Some l').
      { by rewrite (take_lookup _ _ _ i' q' Hkeys Hq'). }
      assert (Hj : j ∈ argsort keys).
      { apply Hall. by apply lookup_lt_Some in Hkj. }
      rewrite Heq in Hj, Hsorted.
      rewrite omap_app in Hsorted.
      change (omap (fun i0 => keys !! i0) (i' :: o2))
        with (match keys !! i' with
              | Some y => y :: omap (fun i0 => keys !! i0) o2
              | None => omap (fun i0 => keys !! i0) o2
              end) in Hsorted.
      rewrite Hki in Hsorted.
      apply nondecreasing_split in Hsorted. rewrite Forall_forall in Hsorted.
      apply elem_of_app in Hj as [Hj|Hj].
      * apply Hsorted. apply list_elem_of_omap. eauto.
      * apply elem_of_cons in Hj as [->|Hj]; [|by apply Hlast in Hj].
        assert (l' = lj) by congruence. lia.
  - apply Forall_insert; [|by left].
    apply (Hvals (fun v => v = I_VOID \/ v = I_ROOT \/ v ∈ iid)).
    + unfold mapind1. apply scatter_self_Forall.
      * apply Forall_replicate. right; by left.
      * apply Forall_forall. intros v Hv. right; by right.
    + apply Forall_forall. intros v Hv. right; by right.
Qed.

End Builder.

(** ** The symmetrized list *)

Section Symmetrize.

Lemma neg_involutive (x : Z) : x < 2 ^ 63 -> Np.neg (Np.neg x) = x.
Proof.
  intros Hx. unfold Np.neg, Np.int64_min.
  destruct (Z.eqb_spec x (- 2 ^ 63)) as [->|Hne].
  - done.
  - destruct (Z.eqb_spec (- x) (- 2 ^ 63)); lia.
Qed.

Lemma neg_neg_neg (x : Z) : Np.neg (Np.neg (Np.neg x)) = Np.neg x.
Proof.
  unfold Np.neg, Np.int64_min.
  destruct (Z.eqb_spec x (- 2 ^ 63)) as [->|Hne]; [done|].
  destruct (Z.eqb_spec (- x) (- 2 ^ 63)) as [->|Hne2]; [done|].
  destruct (Z.eqb_spec (- - x) (- 2 ^ 63)); lia.
Qed.

Lemma elem_of_symmetrize (x : Z) (l : list Z) :
  x ∈ symmetrize l <-> (exists y, y ∈ l /\ x = Np.neg y) \/ x ∈ l.
Proof.
  unfold symmetrize.
  rewrite elem_of_unique, elem_of_app, list_elem_of_fmap.
  split; (intros [(y & H1 & H2)|H]; [left|right]; eauto).
Qed.


Lemma symmetrize_neg (l : list Z) :
  Forall int64 l -> symmetrize (map Np.neg l) = symmetrize l.
Proof.
  intros Hl. rewrite Forall_forall in Hl. apply increasing_ext.
  - apply increasing_unique.
  - apply increasing_unique.
  - intros x. rewrite !elem_of_symmetrize. split.
    + intros [(y & (z & -> & Hz)%list_elem_of_fmap & ->)|
              (z & -> & Hz)%list_elem_of_fmap].
      * right. rewrite neg_involutive; [done|]. apply Hl, Hz.
      * left. eauto.
    + intros [(y & Hy & ->)|Hx].
      * right. apply list_elem_of_fmap. eauto.
      * left. exists (Np.neg x). split.
        -- apply list_elem_of_fmap. eauto.
        -- rewrite neg_involutive; [done|]. apply Hl, Hx.
Qed.

Lemma abs_cases (x : Z) :
  (0 <= x /\ Np.abs x = x) \/ (x < 0 /\ Np.abs x = Np.neg x).
Proof.
  unfold Np.abs. destruct (Z.ltb_spec x 0); [right|left]; done.
Qed.

Lemma symmetrize_abs (l : list Z) :
  symmetrize (map Np.abs l) = symmetrize l.
Proof.
  apply increasing_ext.
  - apply increasing_unique.
  - apply increasing_unique.
  - intros x. rewrite !elem_of_symmetrize. split.
    + intros [(y & (z & -> & Hz)%list_elem_of_fmap & ->)|
              (z & -> & Hz)%list_elem_of_fmap].
      * destruct (abs_cases z) as [[_ ->]|[Hneg ->]].
        -- left. eauto.
        -- right. rewrite neg_involutive; [done|]. lia.
      * destruct (abs_cases z) as [[_ ->]|[Hneg ->]].
        -- by right.
        -- left. eauto.
    + intros [(y & Hy & ->)|Hx].
      * destruct (abs_cases y) as [[_ Ha]|[Hneg Ha]].
        -- left. exists (Np.abs y). split; [|by rewrite Ha].
           apply list_elem_of_fmap. eauto.
        -- right. rewrite <- Ha. apply list_elem_of_fmap. eauto.
      * destruct (abs_cases x) as [[_ Ha]|[Hneg Ha]].
        -- right. rewrite <- Ha. apply list_elem_of_fmap. eauto.
        -- left. exists (Np.abs x). split.
           ++ apply list_elem_of_fmap. eauto.
           ++ rewrite Ha, neg_involutive; [done|]. lia.
Qed.

(** The builder reads its argument through [symmetrize] only. *)
Lemma build_symmetrize_ext (argsort : list Z -> list nat) (st : Regions)
    (l1 l2 : list Z) (lateralize : bool) :
  symmetrize l1 = symmetrize l2 ->
  _mapping_from_regions_list argsort st l1 lateralize =
  _mapping_from_regions_list argsort st l2 lateralize.
Proof. intros H. unfold _mapping_from_regions_list. by rewrite H. Qed.

End Symmetrize.

(** ** Mirrored stores *)

Section Mirror.
Variable st : Regions.
Hypothesis Hnd : NoDup (id st).
Hypothesis Hmir : mirrored st.


End Mirror.

(** ** The constructor builds mirrored stores *)

Section SelectRank.
Context {A : Type}.

Lemma select_length (arr : list A) (keep : list bool) :
  length arr = length keep -> length (Np.select arr keep) = Np.sum keep.
Proof.
  revert keep; induction arr as [|x arr IH]; intros [|b keep]; simpl; try done.
  intros [= H]. rewrite sum_cons. destruct b; simpl; rewrite IH by done; lia.
Qed.

(** The kept row of position [p] has for rank the number of rows kept
    before it. *)
Lemma select_lookup_kept (arr : list A) (keep : list bool) (p : nat) (x : A) :
  keep !! p = Some true -> arr !! p = Some x ->
  Np.select arr keep !! Np.sum (take p keep) = Some x.
Proof.
  revert keep p; induction arr as [|y arr IH]; intros [|b keep] [|p];
    simpl; try done.
  - intros [= ->] [= ->]. done.
  - intros Hk Hx. rewrite sum_cons. destruct b; simpl; by apply IH.
Qed.

Lemma select_lookup_rank (arr : list A) (keep : list bool) (k : nat) (x : A) :
  Np.select arr keep !! k = Some x ->
  exists p, keep !! p = Some true /\ arr !! p = Some x /\
            k = Np.sum (take p keep).
Proof.
  revert keep k; induction arr as [|y arr IH]; intros [|b keep] k;
    simpl; try done.
  destruct b.
  - destruct k as [|k]; simpl.
    + intros [= ->]. by exists 0%nat.
    + intros (p & H1 & H2 & ->)%IH. exists (S p). simpl.
      by rewrite sum_cons.
  - intros (p & H1 & H2 & ->)%IH. exists (S p). simpl.
    by rewrite sum_cons.
Qed.

End SelectRank.

Section Constructor.
Variable raw : Regions.
Hypothesis Hlen : same_length raw.
Hypothesis Hnd : NoDup (id raw).
Hypothesis Hids : Forall (fun x => 0 <= x < 2 ^ 63) (id raw).
Hypothesis Hpar : Forall (fun o => forall y, o = Some y -> int64 y) (parent raw).
Hypothesis Hvoid : id raw !! 0%nat = Some 0.
Hypothesis Hvoidp : parent raw !! 0%nat = Some None.

Let keep : list bool := map (fun x => bool_decide (0 < x)) (id raw).

Lemma keep_lookup (p : nat) (x : Z) :
  id raw !! p = Some x -> keep !! p = Some (bool_decide (0 < x)).
Proof. intros H. unfold keep. by rewrite list_lookup_fmap, H. Qed.

Lemma keep_length : length keep = length (id raw).
Proof. unfold keep. by rewrite length_map. Qed.

Lemma lateralized_same_length : same_length (lateralized raw).
Proof.
  destruct Hlen as (Hn & Ha & Hr & Hl & Hp).
  unfold same_length, lateralized, left_rows; simpl. fold keep.
  rewrite length_insert, !length_app, !length_map.
  rewrite !select_length by (rewrite keep_length; lia).
  split_and!; lia.
Qed.

Lemma lateralized_void_first :
  id (lateralized raw) !! 0%nat = Some 0 /\
  parent (lateralized raw) !! 0%nat = Some None.
Proof.
  unfold lateralized; simpl.
  split; apply lookup_app_l_Some; [exact Hvoid|exact Hvoidp].
Qed.

Lemma left_id_negative (x : Z) :
  x ∈ id (left_rows raw) -> x < 0.
Proof.
  unfold left_rows; simpl. fold keep.
  intros (y & -> & Hy)%list_elem_of_fmap.
  apply select_elem in Hy as (p & Hp & Hk).
  rewrite (keep_lookup p y Hp) in Hk. injection Hk as Hk.
  apply bool_decide_eq_true in Hk.
  rewrite Forall_forall in Hids.
  specialize (Hids y ltac:(by eapply list_elem_of_lookup_2)).
  unfold Np.neg, Np.int64_min. destruct (Z.eqb_spec y (- 2 ^ 63)); lia.
Qed.

Lemma lateralized_nodup : NoDup (id (lateralized raw)).
Proof.
  unfold lateralized; simpl. apply NoDup_app. split_and!.
  - done.
  - intros x Hx Hleft. apply left_id_negative in Hleft.
    rewrite Forall_forall in Hids. specialize (Hids x Hx). lia.
  - unfold left_rows; simpl. fold keep.
    apply NoDup_alt. intros i j x Hi Hj.
    rewrite list_lookup_fmap in Hi, Hj.
    destruct (Np.select (id raw) keep !! i) as [a|] eqn:Ha; [|done].
    destruct (Np.select (id raw) keep !! j) as [b|] eqn:Hb; [|done].
    simpl in Hi, Hj.
    apply select_lookup_rank in Ha as (p & Hkp & Hp & ->).
    apply select_lookup_rank in Hb as (q & Hkq & Hq & ->).
    assert (a = b) as ->.
    { rewrite Forall_forall in Hids.
      pose proof (Hids a ltac:(by eapply list_elem_of_lookup_2)).
      pose proof (Hids b ltac:(by eapply list_elem_of_lookup_2)).
      rewrite <- (neg_involutive a), <- (neg_involutive b) by lia.
      congruence. }
    assert (p = q) as -> by (eapply NoDup_lookup; eauto). done.
Qed.

(** Lateralization of a table of distinct non-negative ids, whose first
    row is the void row, gives a mirrored store. *)
Lemma lateralized_mirrored : mirrored (lateralized raw).
Proof.
  destruct Hlen as (_ & _ & _ & _ & Hpl).
  intros p x Hx.
  unfold lateralized, left_rows in Hx |- *; simpl in Hx |- *.
  fold keep in Hx |- *.
  apply lookup_app_Some in Hx as [Hx|[Hge Hx]].
  - (* a row of the table *)
    destruct (lookup_lt_is_Some_2 (parent raw) p) as [o Ho].
    { apply lookup_lt_Some in Hx. lia. }
    rewrite (lookup_app_l_Some _ _ _ _ Ho). simpl.
    destruct (decide (0 < x)) as [Hpos|Hnpos].
    + pose proof (keep_lookup p x Hx) as Hk.
      rewrite bool_decide_eq_true_2 in Hk by done.
      exists (length (id raw) + Np.sum (take p keep))%nat. split.
      * rewrite lookup_app_r by lia.
        replace (length (id raw) + Np.sum (take p keep) - length (id raw))%nat
          with (Np.sum (take p keep)) by lia.
        rewrite list_lookup_fmap.
        by rewrite (select_lookup_kept _ _ _ _ Hk Hx).
      * rewrite lookup_app_r by lia.
        replace (length (id raw) + Np.sum (take p keep) - length (parent raw))%nat
          with (Np.sum (take p keep)) by lia.
        rewrite list_lookup_fmap.
        by rewrite (select_lookup_kept _ _ _ _ Hk Ho).
    + assert (x = 0) as ->.
      { rewrite Forall_forall in Hids.
        specialize (Hids x ltac:(by eapply list_elem_of_lookup_2)). lia. }
      assert (p = 0%nat) as -> by (eapply NoDup_lookup; eauto).
      exists 0%nat. split.
      * by apply lookup_app_l_Some.
      * rewrite (lookup_app_l_Some _ _ _ _ Ho).
        assert (o = None) as -> by congruence. done.
  - (* a left copy *)
    rewrite list_lookup_fmap in Hx.
    destruct (Np.select (id raw) keep !! (p - length (id raw))%nat)
      as [x0|] eqn:Hx0; [|done].
    injection Hx as <-.
    apply select_lookup_rank in Hx0 as (q & Hkq & Hq & Hrank).
    destruct (lookup_lt_is_Some_2 (parent raw) q) as [o Ho].
    { apply lookup_lt_Some in Hq. lia. }
    exists q. split.
    + rewrite Forall_forall in Hids.
      pose proof (Hids x0 ltac:(by eapply list_elem_of_lookup_2)).
      rewrite neg_involutive by lia. by apply lookup_app_l_Some.
    + rewrite (lookup_app_l_Some _ _ _ _ Ho).
      rewrite lookup_app_r by lia.
      replace (p - length (parent raw))%nat with (p - length (id raw))%nat
        by lia.
      rewrite Hrank, list_lookup_fmap.
      rewrite (select_lookup_kept _ _ _ _ Hkq Ho). simpl.
      do 2 f_equal. destruct o as [y|]; [|done]. simpl.
      rewrite Forall_forall in Hpar.
      destruct (Hpar (Some y) ltac:(by eapply list_elem_of_lookup_2) y eq_refl).
      rewrite neg_involutive; [done|lia].
Qed.

End Constructor.

(** ** The unlateralized array *)

Section Delateralize.
Variable argsort : list Z -> list nat.
Variables (st : Regions) (new_map : list Z).
Hypothesis Habs : forall x, x ∈ id st -> Np.abs x ∈ id st.

Lemma build_delateralized_spec (lat : list nat) :
  _mapping_from_regions_list argsort st new_map true = Ok lat ->
  length lat = length (id st) ->
  exists unlat : list nat,
    _mapping_from_regions_list argsort st new_map false = Ok unlat /\
    length unlat = length (id st) /\
    forall (p : nat) (x : Z), id st !! p = Some x ->
      exists q : nat, id st !! q = Some (Np.abs x) /\ unlat !! p = lat !! q.
Proof.
  intros Hlat Hl.
  set (iregion := (ismember (map Np.abs (id st)) (id st)).2).
  assert (Hreg : Forall2 (fun y q => Np.first_index y (id st) = Some q)
                   (map Np.abs (id st)) iregion).
  { apply omap_total, Forall_forall.
    intros y (x & -> & Hx)%list_elem_of_fmap.
    by apply first_index_elem, Habs. }
  destruct (take_in_range lat iregion) as [unlat Hunlat].
  { apply Forall_forall. intros q [k Hk]%list_elem_of_lookup.
    destruct (Forall2_lookup_r _ _ _ _ _ Hreg Hk) as (y & _ & Hy).
    apply first_index_Some, lookup_lt_Some in Hy. lia. }
  exists unlat. split_and!.
  - rewrite build_unfold_delateralized, Hlat. simpl. exact Hunlat.
  - rewrite (take_length _ _ _ Hunlat).
    rewrite <- (Forall2_length _ _ _ Hreg). by rewrite length_map.
  - intros p x Hx.
    assert (Hax : map Np.abs (id st) !! p = Some (Np.abs x)).
    { by rewrite list_lookup_fmap, Hx. }
    destruct (Forall2_lookup_l _ _ _ _ _ Hreg Hax) as (q & Hq & Hfi).
    exists q. split; [by apply first_index_Some|].
    by rewrite (take_lookup _ _ _ p q Hunlat Hq).
Qed.

End Delateralize.

(** ** Theorems on the mapping builder *)

(** C6. A scheme one of whose ids, once symmetrized, is not in the store
    makes the builder fail on its assertion: no array is returned,
    whatever the flag and whatever the order [argsort] gives to ties, so
    every attempt fails in the same way; and the orchestration routine
    given such a list returns no table. *)
Theorem mapping_rejects_unknown_ids (st : Regions) (new_map : list Z) (x : Z) :
  x ∈ symmetrize new_map -> x ∉ id st ->
  (forall (argsort : list Z -> list nat) (lateralize : bool),
     _mapping_from_regions_list argsort st new_map lateralize
       = Err AssertionError) /\
  (forall (argsort : list Z -> list nat) (mp : gmap string (list nat))
          (cosmos : list Z),
     exists e, _compute_mappings argsort (mkBrainRegions st mp) new_map cosmos
               = Err e).
Proof.
  intros Hx Hnot.
  assert (Hfail : forall argsort lateralize,
            _mapping_from_regions_list argsort st new_map lateralize
              = Err AssertionError).
  { intros argsort lateralize. unfold _mapping_from_regions_list.
    destruct (forallb _ _) eqn:E; [|done].
    apply assertion_passes in E. rewrite Forall_forall in E.
    by specialize (E x Hx). }
  split; [done|].
  intros argsort mp cosmos. unfold _compute_mappings. simpl.
  destruct (_mapping_from_regions_list argsort st
              (Np.unique (map Np.abs (id st))) false) as [allen|e];
    simpl; [|eauto].
  rewrite !Hfail. simpl. eauto.
Qed.

Lemma mapping_rejects_unknown_ids_witness :
  _mapping_from_regions_list argsort_stable Fixture.store [11] true
    = Err AssertionError.
Proof.
  destruct (mapping_rejects_unknown_ids Fixture.store [11] 11) as [H _].
  - decide_now.
  - decide_now.
  - apply H.
Defined.

(** C10. The builder does not see the signs of the ids it is given: an
    int64 list, its negation and its absolute values give the same array,
    for either flag. *)
Theorem mapping_sign_invariant (argsort : list Z -> list nat) (st : Regions)
    (new_map : list Z) (lateralize : bool) :
  Forall int64 new_map ->
  _mapping_from_regions_list argsort st (map Np.neg new_map) lateralize
    = _mapping_from_regions_list argsort st new_map lateralize /\
  _mapping_from_regions_list argsort st (map Np.abs new_map) lateralize
    = _mapping_from_regions_list argsort st new_map lateralize.
Proof.
  intros Hrange. split; apply build_symmetrize_ext.
  - by apply symmetrize_neg.
  - apply symmetrize_abs.
Qed.

Lemma mapping_sign_invariant_witness :
  _mapping_from_regions_list argsort_stable Fixture.store
    (map Np.neg [10; -40]) false
  = _mapping_from_regions_list argsort_stable Fixture.store [10; -40] false.
Proof.
  apply (mapping_sign_invariant argsort_stable Fixture.store [10; -40] false).
  repeat constructor; unfold int64; lia.
Defined.

Lemma bind_Ok {A B : Type} (a : A) (k : A -> result B) : (Ok a ≫= k) = k a.
Proof. done. Qed.

Lemma argsort_ok_pair (order : list nat) :
  argsort_ok [1; 1] order = true ->
  order = [0; 1]%nat \/ order = [1; 0]%nat.
Proof.
  destruct order as [|a [|b [|c order]]]; try discriminate.
  destruct a as [|[|a]], b as [|[|b]]; try discriminate; auto.
Qed.

(** The two arrays of the scheme [{A}] on the fixture, whatever the order
    given to the two members [A] and [-A], which have one level. *)
Lemma fixture_scheme_A (argsort : list Z -> list nat) :
  sorts_members argsort Fixture.store [Fixture.A] ->
  _mapping_from_regions_list argsort Fixture.store [Fixture.A] true
    = Ok [0; 1; 2; 2; 2; 2; 1; 7; 7; 7; 7]%nat /\
  _mapping_from_regions_list argsort Fixture.store [Fixture.A] false
    = Ok [0; 1; 2; 2; 2; 2; 1; 2; 2; 2; 2]%nat.
Proof.
  intros Hsort.
  assert (Hk : Np.take (level Fixture.store)
                 (members Fixture.store [Fixture.A]) = Ok [1; 1])
    by (by vm_compute).
  specialize (Hsort _ Hk). apply argsort_ok_pair in Hsort.
  assert (Hlat : _mapping_from_regions_list argsort Fixture.store
                   [Fixture.A] true
                 = Ok [0; 1; 2; 2; 2; 2; 1; 7; 7; 7; 7]%nat).
  { rewrite build_unfold_lateralized.
    assert (Hself : Np.scatter_self (replicate (length (id Fixture.store)) I_ROOT)
                      (members Fixture.store [Fixture.A])
                    = Ok [1; 1; 2; 1; 1; 1; 1; 7; 1; 1; 1]%nat)
      by (by vm_compute).
    rewrite Hself, bind_Ok, Hk, bind_Ok. cbv beta.
    destruct Hsort as [-> | ->]; by vm_compute. }
  split; [done|].
  rewrite build_unfold_delateralized, Hlat. by vm_compute.
Qed.

(** C5, as the code behaves.  On a store with distinct ids, columns of one
    length and a first row without parent, and for a scheme whose
    symmetrized ids are all in the store:
    - in the lateralized array, a position that lies in the descendant
      set of some member holds the position of a member whose descendant
      set contains it and whose level no other such member exceeds;
    - in the unlateralized array, a position holds the lateralized entry
      of the position of the absolute value of its id.
    On the fixture with the scheme [{A}], the lateralized array sends A,
    B, C, D to the position of A, their left copies to the position of
    -A, root and left root to the position of root and void to position
    0; the unlateralized array sends the left copies to the position of A
    as well. *)
Theorem mapping_deepest_enclosing_member (argsort : list Z -> list nat) :
  (forall (st : Regions) (new_map : list Z),
     same_length st ->
     NoDup (id st) ->
     parent st !! 0%nat = Some None ->
     Forall (fun x => x ∈ id st) (symmetrize new_map) ->
     (forall x, x ∈ id st -> Np.abs x ∈ id st) ->
     sorts_members argsort st new_map ->
     exists lat unlat : list nat,
       _mapping_from_regions_list argsort st new_map true = Ok lat /\
       _mapping_from_regions_list argsort st new_map false = Ok unlat /\
       length lat = length (id st) /\
       length unlat = length (id st) /\
       (forall (p : nat) (m0 : Z),
          m0 ∈ symmetrize new_map -> in_subtree st m0 p ->
          exists (q : nat) (m lq : Z),
            lat !! p = Some q /\
            id st !! q = Some m /\ m ∈ symmetrize new_map /\
            in_subtree st m p /\
            level st !! q = Some lq /\
            forall (q' : nat) (m' l' : Z),
              id st !! q' = Some m' -> m' ∈ symmetrize new_map ->
              in_subtree st m' p -> level st !! q' = Some l' ->
              l' <= lq) /\
       (forall (p : nat) (x : Z), id st !! p = Some x ->
          exists q : nat,
            id st !! q = Some (Np.abs x) /\ unlat !! p = lat !! q)) /\
  (sorts_members argsort Fixture.store [Fixture.A] ->
   _mapping_from_regions_list argsort Fixture.store [Fixture.A] true
     = Ok [0; 1; 2; 2; 2; 2; 1; 7; 7; 7; 7]%nat /\
   _mapping_from_regions_list argsort Fixture.store [Fixture.A] false
     = Ok [0; 1; 2; 2; 2; 2; 1; 2; 2; 2; 2]%nat).
Proof.
  split; [|apply fixture_scheme_A].
  intros st new_map Hlen Hnd Hvoid Hsub Habs Hsort.
  assert (Hne : (0 < length (id st))%nat).
  { apply lookup_lt_Some in Hvoid.
    destruct Hlen as (_ & _ & _ & _ & Hp). lia. }
  pose proof (build_lateralized_spec argsort st new_map Hlen Hnd Hsub Hsort Hne)
    as Hspec. cbv zeta in Hspec.
  destruct Hspec as (lat & Hlat & Hl & Hzero & _ & Hdeep & _).
  destruct (build_delateralized_spec argsort st new_map Habs lat Hlat Hl)
    as (unlat & Hunlat & Hlu & Hread).
  exists lat, unlat. split_and!; try done.
  intros p m0 Hm0 Hin0.
  (* the rank of a member, from its position *)
  assert (Hrank : forall q m, id st !! q = Some m -> m ∈ symmetrize new_map ->
            exists j, members st new_map !! j = Some q).
  { intros q m Hq Hm. apply list_elem_of_lookup, members_elem. eauto. }
  destruct (decide (p = 0%nat)) as [->|Hp0].
  - (* position 0 has no parent: only its own id contains it *)
    assert (Hself : forall m, in_subtree st m 0%nat -> id st !! 0%nat = Some m).
    { intros m [Hreach _]%in_subtree_reach; [|done|done].
      inversion Hreach as [? Hs|? ? ? Hpar]; [done|congruence]. }
    pose proof (Hself _ Hin0) as Hid0.
    destruct (lookup_lt_is_Some_2 (level st) 0%nat) as [l0 Hl0].
    { destruct Hlen as (_ & _ & _ & Hlv & _). lia. }
    exists 0%nat, m0, l0. split_and!; try done.
    intros q' m' l' Hq' Hm' Hin' Hl'.
    assert (m' = m0) as -> by (apply Hself in Hin'; congruence).
    assert (q' = 0%nat) as -> by (eapply NoDup_lookup; eauto).
    assert (l' = l0) by congruence. lia.
  - destruct (proj1 (list_elem_of_lookup (id st) m0)) as [q0 Hq0].
    { rewrite Forall_forall in Hsub. by apply Hsub. }
    destruct (Hrank q0 m0 Hq0 Hm0) as [i0 Hi0].
    destruct (Hdeep p i0) as (i' & Hp & (q & m & Hq & Hm & Hin) & Hmax).
    { lia. }
    { exists q0, m0. done. }
    assert (HmS : m ∈ symmetrize new_map).
    { assert (Hqm : q ∈ members st new_map)
        by (eapply list_elem_of_lookup_2, Hq).
      apply members_elem in Hqm as (m2 & Hm2 & HS). congruence. }
    destruct (lookup_lt_is_Some_2 (level st) q) as [lq Hlq].
    { destruct Hlen as (_ & _ & _ & Hlv & _).
      apply lookup_lt_Some in Hm. lia. }
    exists q, m, lq. split_and!; try done.
    + by rewrite Hp.
    + intros q' m' l' Hq' Hm' Hin' Hl'.
      destruct (Hrank q' m' Hq' Hm') as [j Hj].
      eapply (Hmax j q' l' q lq); try done.
      exists q', m'. done.
Qed.

Lemma fixture_nodup : NoDup (id Fixture.store).
Proof. decide_now. Qed.

Lemma fixture_abs_closed (x : Z) :
  x ∈ id Fixture.store -> Np.abs x ∈ id Fixture.store.
Proof.
  intros Hx. vm_compute in Hx.
  repeat (apply elem_of_cons in Hx as [->|Hx]; [decide_now|]).
  by apply elem_of_nil in Hx.
Qed.

Lemma fixture_sorts_A : sorts_members argsort_stable Fixture.store [Fixture.A].
Proof.
  intros keys Hk. vm_compute in Hk. injection Hk as <-. by vm_compute.
Qed.

Lemma mapping_deepest_enclosing_member_witness :
  exists lat : list nat,
    _mapping_from_regions_list argsort_stable Fixture.store [Fixture.A] true
      = Ok lat /\
    lat = [0; 1; 2; 2; 2; 2; 1; 7; 7; 7; 7]%nat.
Proof.
  destruct (mapping_deepest_enclosing_member argsort_stable) as [Hgen Hfix].
  destruct (Hgen Fixture.store [Fixture.A]) as (lat & unlat & Hlat & _).
  - exact fixture_same_length.
  - exact fixture_nodup.
  - reflexivity.
  - decide_now.
  - exact fixture_abs_closed.
  - exact fixture_sorts_A.
  - exists lat. split; [exact Hlat|].
    destruct (Hfix fixture_sorts_A) as [Heq _].
    rewrite Hlat in Heq. by injection Heq.
Defined.

(** C5, as stated, fails.  On the fixture with the scheme [{A}]:
    - in the unlateralized array, position 7, the left copy of A, lies in
      the descendant set of the member -A and is assigned position 2, the
      member A, whose descendant set does not contain it;
    - in both arrays, positions 7 and 0 are outside the subtree of A and
      are not sent to the position of root: the left copy of A goes to A
      or to -A, and void goes to itself. *)
Lemma mapping_left_copy_follows_right :
  exists lat unlat : list nat,
    _mapping_from_regions_list argsort_stable Fixture.store [Fixture.A] true
      = Ok lat /\
    _mapping_from_regions_list argsort_stable Fixture.store [Fixture.A] false
      = Ok unlat /\
    id Fixture.store !! 7%nat = Some (-10) /\
    id Fixture.store !! 2%nat = Some Fixture.A /\
    -10 ∈ symmetrize [Fixture.A] /\
    in_subtree Fixture.store (-10) 7 /\
    ~ in_subtree Fixture.store Fixture.A 7 /\
    ~ in_subtree Fixture.store Fixture.A 0 /\
    unlat !! 7%nat = Some 2%nat /\
    unlat !! 7%nat <> Some I_ROOT /\
    unlat !! 0%nat <> Some I_ROOT /\
    lat !! 7%nat <> Some I_ROOT /\
    lat !! 0%nat <> Some I_ROOT.
Proof.
  exists [0; 1; 2; 2; 2; 2; 1; 7; 7; 7; 7]%nat,
         [0; 1; 2; 2; 2; 2; 1; 2; 2; 2; 2]%nat.
  split_and!; try (by vm_compute).
  - decide_now.
  - fixture_in_subtree.
  - fixture_not_in_subtree.
  - fixture_not_in_subtree.
Qed.


Lemma fixture_mirrored : mirrored Fixture.store.
Proof.
  apply lateralized_mirrored.
  - repeat split.
  - decide_now.
  - decide_now.
  - repeat (apply Forall_cons; split;
      [intros y Hy; try discriminate; injection Hy as <-;
       split; by vm_compute|]).
    constructor.
  - reflexivity.
  - reflexivity.
Qed.





(** ** [remap] *)

(** C8. From a scheme to itself, [remap] returns every canonical id
    unchanged: a list of canonical ids is returned as it is. *)
Theorem remap_self_identity (br : BrainRegions) (scheme : string)
    (arr : list nat) (region_ids : list Z) :
  mappings br !! scheme = Some arr ->
  Forall (fun v => (v < length (id br))%nat) arr ->
  Forall (canonical br arr) region_ids ->
  remap br region_ids scheme scheme = Ok region_ids.
Proof.
  intros Hmap Harr Hcan.
  destruct (take_in_range (id br) arr Harr) as [src_ids Hsrc].
  pose proof (proj1 (take_Ok _ _ _) Hsrc) as Hsrc2.
  set (inds := (ismember region_ids src_ids).2).
  assert (Hinds : Forall2 (fun x k => Np.first_index x src_ids = Some k)
                    region_ids inds).
  { apply omap_total. eapply Forall_impl; [exact Hcan|]. simpl.
    intros x (p & r & Hp & Hr & Hid). apply first_index_elem.
    destruct (Forall2_lookup_l _ _ _ _ _ Hsrc2 Hr) as (y & Hy & Hry).
    assert (y = x) as -> by congruence.
    eapply list_elem_of_lookup_2, Hy. }
  assert (Hout : exists rep, Np.take arr inds = Ok rep /\
            Forall2 (fun r y => id br !! r = Some y) rep region_ids).
  { destruct (take_in_range arr inds) as [rep Hrep].
    { apply Forall_forall. intros k [j Hj]%list_elem_of_lookup.
      destruct (Forall2_lookup_r _ _ _ _ _ Hinds Hj) as (x & _ & Hx).
      apply first_index_Some, lookup_lt_Some in Hx.
      by rewrite <- (take_length _ _ _ Hsrc). }
    exists rep. split; [done|].
    pose proof (proj1 (take_Ok _ _ _) Hrep) as Hrep2.
    apply Forall2_same_length_lookup. split.
    - rewrite <- (Forall2_length _ _ _ Hrep2). symmetry.
      eapply Forall2_length, Hinds.
    - intros j r x Hr Hx.
      destruct (Forall2_lookup_l _ _ _ _ _ Hinds Hx) as (k & Hk & Hfi).
      destruct (Forall2_lookup_l _ _ _ _ _ Hrep2 Hk) as (r' & Hr' & Hkr).
      assert (r' = r) as -> by congruence.
      apply first_index_Some in Hfi.
      destruct (Forall2_lookup_l _ _ _ _ _ Hsrc2 Hkr) as (y & Hy & Hry).
      congruence. }
  destruct Hout as (rep & Hrep & Hids).
  unfold remap. rewrite Hmap.
  change (of_option KeyError (Some arr)) with (Ok arr).
  rewrite bind_Ok, Hsrc, bind_Ok. cbv zeta. rewrite ?Hmap.
  change (of_option KeyError (Some arr)) with (Ok arr).
  rewrite bind_Ok. fold inds. rewrite Hrep, bind_Ok. by apply take_Ok.
Qed.

Lemma remap_self_identity_witness :
  remap RemapFixture.br [10; 997; 10] "A-scheme" "A-scheme"
    = Ok [10; 997; 10].
Proof.
  apply (remap_self_identity RemapFixture.br "A-scheme"
           [0; 1; 2; 2; 2; 2; 1; 2; 2; 2; 2]%nat).
  - reflexivity.
  - decide_now.
  - repeat constructor.
    + exists 2%nat, 2%nat. repeat split.
    + exists 1%nat, 1%nat. repeat split.
    + exists 2%nat, 2%nat. repeat split.
Defined.

(** ** [_filter_lr_acro] *)

Lemma add64_small (v : Z) :
  0 <= v < 2 ^ 63 - 1327 -> add64 v 1327 = v + 1327.
Proof.
  intros Hv. unfold add64.
  replace (v + 1327 + 2 ^ 63) with (v + 1327 + 2 ^ 63 + 0 * 2 ^ 64) by lia.
  rewrite Z.mod_add by lia. rewrite Z.mod_small; lia.
Qed.

(** C9, as the code behaves.  The offset between a row and its
    left-hemisphere copy is the constant 1327, whatever table is loaded:
    "left" selects index + 1327, "right" selects the index unmodified, and
    any other hemisphere, unspecified included, selects on a mapping whose
    name contains "lr" two columns with index + 1327 in the first, and on
    any other mapping the index unmodified. *)
Theorem filter_lr_acro_constant_offset (values : list Z) (mapping : string) :
  Forall (fun v => 0 <= v < 2 ^ 63 - 1327) values ->
  _filter_lr_acro values mapping (Some "left")
    = OneColumn (map (fun v => v + 1327) values) /\
  _filter_lr_acro values mapping (Some "right") = OneColumn values /\
  (forall h : option string, h <> Some "left" -> h <> Some "right" ->
     (contains "lr" mapping = true ->
      _filter_lr_acro values mapping h
        = TwoColumns (zip (map (fun v => v + 1327) values) values)) /\
     (contains "lr" mapping = false ->
      _filter_lr_acro values mapping h = OneColumn values)).
Proof.
  intros Hv.
  assert (Hadd : map (fun v => add64 v 1327) values
                 = map (fun v => v + 1327) values).
  { induction Hv as [|v values Hx _ IH]; simpl; [done|].
    by rewrite IH, add64_small. }
  unfold _filter_lr_acro. split_and!.
  - rewrite decide_True by done. by rewrite Hadd.
  - rewrite decide_False by done. by rewrite decide_True.
  - intros h Hl Hr. rewrite !decide_False by done.
    split; intros ->; [by rewrite Hadd|done].
Qed.

Lemma filter_lr_acro_constant_offset_witness :
  _filter_lr_acro [2; 3] "Allen-lr" (Some "left") = OneColumn [1329; 1330] /\
  _filter_lr_acro [2; 3] "Allen-lr" None
    = TwoColumns [(1329, 2); (1330, 3)].
Proof.
  destruct (filter_lr_acro_constant_offset [2; 3] "Allen-lr") as (Hl & _ & Hn).
  - repeat constructor; lia.
  - split; [exact Hl|].
    destruct (Hn None) as [Hboth _]; [discriminate|discriminate|].
    apply Hboth. reflexivity.
Defined.

(** C9, as stated, fails: the table of the fixture has six unlateralized
    rows, and "left" moves the index 2 by 1327, not by six. *)
Lemma filter_lr_acro_ignores_table :
  length (id Fixture.raw) = 6%nat /\
  _filter_lr_acro [2] "Allen-lr" (Some "left") = OneColumn [1329] /\
  _filter_lr_acro [2] "Allen-lr" (Some "left")
    <> OneColumn (map (fun v => v + Z.of_nat (length (id Fixture.raw))) [2]).
Proof. split_and!; [done|by vm_compute|by vm_compute]. Qed.

(** * Further properties *)

(** ** [remap] and the lookups by id *)

Section Locb.

(** The second component of [ismember]: one position per element of [a]
    that occurs in [b], in the order of [a]. *)
Lemma ismember_locb (a b : list Z) :
  Forall2 (fun x k => Np.first_index x b = Some k)
          (filter (fun x => x ∈ b) a) (ismember a b).2.
Proof.
  unfold ismember; simpl. induction a as [|x a IH]; [constructor|].
  rewrite filter_cons.
  change (omap (fun y => Np.first_index y b) (x :: a))
    with (match Np.first_index x b with
          | Some k => k :: omap (fun y => Np.first_index y b) a
          | None => omap (fun y => Np.first_index y b) a
          end).
  destruct (decide (x ∈ b)) as [Hin|Hout].
  - destruct (first_index_elem x b Hin) as [k Hk]. rewrite Hk.
    by constructor.
  - by rewrite (first_index_None x b Hout).
Qed.

Lemma first_index_of_Z (x : Z) (l : list Z) :
  first_index_of x l = Np.first_index x l.
Proof.
  induction l as [|y l IH]; simpl; [done|].
  destruct (decide (x = y)) as [->|Hne].
  - by rewrite Z.eqb_refl.
  - destruct (Z.eqb_spec x y); [done|]. by rewrite IH.
Qed.

Lemma find_inds_Z (values all_values : list Z) :
  _find_inds values all_values = (ismember values all_values).2.
Proof.
  unfold _find_inds, ismember_of, ismember; simpl.
  induction values as [|x values IH]; [done|].
  change (omap (fun y => first_index_of y all_values) (x :: values))
    with (match first_index_of x all_values with
          | Some k => k :: omap (fun y => first_index_of y all_values) values
          | None => omap (fun y => first_index_of y all_values) values
          end).
  change (omap (fun y => Np.first_index y all_values) (x :: values))
    with (match Np.first_index x all_values with
          | Some k => k :: omap (fun y => Np.first_index y all_values) values
          | None => omap (fun y => Np.first_index y all_values) values
          end).
  by rewrite first_index_of_Z, IH.
Qed.

Lemma take_cases {A : Type} (arr : list A) (idx : list nat) :
  (exists r, Np.take arr idx = Ok r /\
             Forall (fun i => (i < length arr)%nat) idx) \/
  (Np.take arr idx = Err IndexError /\
   exists i, i ∈ idx /\ (length arr <= i)%nat).
Proof.
  destruct (decide (Forall (fun i => (i < length arr)%nat) idx)) as [H|H].
  - left. destruct (take_in_range arr idx H) as [r Hr]. eauto.
  - right. apply not_Forall_Exists in H; [|apply _].
    apply Exists_exists in H as (i & Hi & Hge). simpl in Hge.
    split; [|exists i; split; [done|lia]].
    eapply take_Err; [exact Hi|lia].
Qed.

(** Reading a column through an array of positions and then through
    indices into that array is reading it through the positions picked
    by the indices. *)
Lemma take_take {A : Type} (arr : list A) (pos : list nat) (col : list A)
    (inds : list nat) :
  Np.take arr pos = Ok col ->
  Np.take col inds = (rep ← Np.take pos inds; Np.take arr rep).
Proof.
  intros Hcol. pose proof (take_length _ _ _ Hcol) as Hlen.
  pose proof (proj1 (take_Ok _ _ _) Hcol) as Hcol2.
  destruct (take_cases pos inds) as [(rep & Hrep & Hrange)|(Herr & i & Hi & Hge)].
  - rewrite Hrep. simpl.
    pose proof (proj1 (take_Ok _ _ _) Hrep) as Hrep2.
    destruct (take_in_range col inds) as [out Hout]; [by rewrite Hlen|].
    rewrite Hout. symmetry. apply take_Ok.
    pose proof (proj1 (take_Ok _ _ _) Hout) as Hout2.
    apply Forall2_same_length_lookup. split.
    + rewrite <- (Forall2_length _ _ _ Hrep2). eapply Forall2_length, Hout2.
    + intros k r y Hr Hy.
      destruct (Forall2_lookup_r _ _ _ _ _ Hrep2 Hr) as (j & Hj & Hjr).
      destruct (Forall2_lookup_l _ _ _ _ _ Hout2 Hj) as (y' & Hy' & Hjy).
      assert (y' = y) as -> by congruence.
      destruct (Forall2_lookup_l _ _ _ _ _ Hcol2 Hjr) as (z & Hz & Hrz).
      congruence.
  - rewrite Herr. simpl. eapply take_Err; [exact Hi|lia].
Qed.

Lemma take_all {A : Type} (arr : list A) :
  Np.take arr (seq 0 (length arr)) = Ok arr.
Proof.
  apply take_Ok. apply Forall2_same_length_lookup. split.
  - by rewrite length_seq.
  - intros k i y Hi Hy. apply lookup_seq in Hi as [-> _]. done.
Qed.

End Locb.

(** X1. [remap] keeps one entry for every queried id that occurs among the
    ids of the source scheme, in the order of the query, and drops every
    other id without raising: the entry is the id of the target
    representative of the first position where the source scheme carries
    the queried id. *)
Theorem remap_drops_unmatched (br : BrainRegions) (region_ids : list Z)
    (source_map target_map : string) (src tgt : list nat)
    (src_ids : list Z) :
  mappings br !! source_map = Some src ->
  mappings br !! target_map = Some tgt ->
  Np.take (id br) src = Ok src_ids ->
  length tgt = length src ->
  Forall (fun r => (r < length (id br))%nat) tgt ->
  exists out : list Z,
    remap br region_ids source_map target_map = Ok out /\
    (length out <= length region_ids)%nat /\
    Forall2 (fun x y => exists q r : nat,
               Np.first_index x src_ids = Some q /\
               tgt !! q = Some r /\ id br !! r = Some y)
            (filter (fun x => x ∈ src_ids) region_ids) out.
Proof.
  intros Hsrc Htgt Hids Hlen Hrange.
  pose proof (ismember_locb region_ids src_ids) as Hlocb.
  set (inds := (ismember region_ids src_ids).2) in *.
  destruct (take_in_range tgt inds) as [rep Hrep].
  { apply Forall_forall. intros k [j Hj]%list_elem_of_lookup.
    destruct (Forall2_lookup_r _ _ _ _ _ Hlocb Hj) as (x & _ & Hx).
    apply first_index_Some, lookup_lt_Some in Hx.
    rewrite Hlen, <- (take_length _ _ _ Hids). done. }
  pose proof (proj1 (take_Ok _ _ _) Hrep) as Hrep2.
  destruct (take_in_range (id br) rep) as [out Hout].
  { apply Forall_forall. intros r [j Hj]%list_elem_of_lookup.
    destruct (Forall2_lookup_r _ _ _ _ _ Hrep2 Hj) as (k & _ & Hk).
    rewrite Forall_forall in Hrange. apply Hrange.
    eapply list_elem_of_lookup_2, Hk. }
  pose proof (proj1 (take_Ok _ _ _) Hout) as Hout2.
  exists out. split_and!.
  - unfold remap. rewrite Hsrc.
    change (of_option KeyError (Some src)) with (Ok src).
    rewrite bind_Ok, Hids, bind_Ok. cbv zeta. rewrite Htgt.
    change (of_option KeyError (Some tgt)) with (Ok tgt).
    rewrite bind_Ok. fold inds. by rewrite Hrep, bind_Ok.
  - rewrite (take_length _ _ _ Hout), (take_length _ _ _ Hrep).
    rewrite <- (Forall2_length _ _ _ Hlocb). apply length_filter.
  - apply Forall2_same_length_lookup. split.
    + rewrite (Forall2_length _ _ _ Hlocb).
      rewrite (Forall2_length _ _ _ Hrep2). eapply Forall2_length, Hout2.
    + intros j x y Hx Hy.
      destruct (Forall2_lookup_l _ _ _ _ _ Hlocb Hx) as (q & Hq & Hfi).
      destruct (Forall2_lookup_l _ _ _ _ _ Hrep2 Hq) as (r & Hr & Hqr).
      destruct (Forall2_lookup_l _ _ _ _ _ Hout2 Hr) as (y' & Hy' & Hry).
      exists q, r. split_and!; try done. congruence.
Qed.

Lemma remap_drops_unmatched_witness :
  exists out : list Z,
    remap RemapFixture.br [10; 40; 997] "A-scheme" "A-scheme" = Ok out /\
    (length out <= 3)%nat.
Proof.
  destruct (remap_drops_unmatched RemapFixture.br [10; 40; 997]
              "A-scheme" "A-scheme"
              [0; 1; 2; 2; 2; 2; 1; 2; 2; 2; 2]%nat
              [0; 1; 2; 2; 2; 2; 1; 2; 2; 2; 2]%nat
              [0; 997; 10; 10; 10; 10; 997; 10; 10; 10; 10])
    as (out & Hout & Hlen & _).
  - reflexivity.
  - reflexivity.
  - reflexivity.
  - reflexivity.
  - decide_now.
  - exists out. split; [exact Hout|exact Hlen].
Defined.

(** X2. Where the table holds the identity array under some name and the
    array of a scheme holds positions of the store, looking ids up with
    [atlasID2atlasID] in that scheme is remapping them from the identity
    scheme to it; ids that are not in the store are dropped by both. *)
Theorem atlasID2atlasID_is_remap_from_identity (br : BrainRegions)
    (atlas_id : list Z) (identity mapping : string) (tgt : list nat) :
  mappings br !! identity = Some (seq 0 (length (id br))) ->
  mappings br !! mapping = Some tgt ->
  Forall (fun r => (r < length (id br))%nat) tgt ->
  atlasID2atlasID br atlas_id mapping = remap br atlas_id identity mapping.
Proof.
  intros Hid Htgt Hrange. unfold atlasID2atlasID, remap.
  rewrite Hid, Htgt.
  change (of_option KeyError (Some ?a)) with (Ok a).
  rewrite !bind_Ok, take_all, bind_Ok. cbv zeta.
  rewrite find_inds_Z.
  destruct (take_in_range (id br) tgt Hrange) as [col Hcol].
  rewrite Hcol, bind_Ok. by apply take_take.
Qed.

Lemma atlasID2atlasID_is_remap_from_identity_witness :
  atlasID2atlasID LookupFixture.br [-40; 40; 5] "A-scheme"
    = remap LookupFixture.br [-40; 40; 5] "Allen-lr" "A-scheme".
Proof.
  apply (atlasID2atlasID_is_remap_from_identity LookupFixture.br [-40; 40; 5]
           "Allen-lr" "A-scheme" [0; 1; 2; 2; 2; 2; 1; 2; 2; 2; 2]%nat).
  - reflexivity.
  - reflexivity.
  - decide_now.
Defined.

(** ** The closure computed by [_navigate_tree] *)

Section SelectWhere.
Context {A : Type}.

Lemma select_where_from (pre arr : list A) (mask : list bool) :
  length arr = length mask ->
  Forall2 (fun x p => (pre ++ arr) !! p = Some x)
          (Np.select arr mask) (Np.where_from (length pre) mask).
Proof.
  revert pre mask; induction arr as [|y arr IH]; intros pre [|b mask] Hl;
    simpl in *; try done; try constructor.
  assert (Hnext : Forall2 (fun x p => (pre ++ y :: arr) !! p = Some x)
                    (Np.select arr mask) (Np.where_from (S (length pre)) mask)).
  { specialize (IH (pre ++ [y]) mask ltac:(lia)).
    rewrite length_app in IH. simpl in IH.
    replace (length pre + 1)%nat with (S (length pre)) in IH by lia.
    by rewrite <- app_assoc in IH. }
  destruct b; [|done]. constructor; [|done].
  by rewrite list_lookup_middle.
Qed.

Lemma select_where_true (arr : list A) (mask : list bool) :
  length arr = length mask ->
  Forall2 (fun x p => arr !! p = Some x)
          (Np.select arr mask) (Np.where_true mask).
Proof. apply (select_where_from [] arr mask). Qed.

Lemma take_where_true (arr : list A) (mask : list bool) :
  length arr = length mask ->
  Np.take arr (Np.where_true mask) = Ok (Np.select arr mask).
Proof. intros H. by apply take_Ok, Forall2_flip, select_where_true. Qed.

Lemma select_all_false (arr : list A) (mask : list bool) :
  (forall p, mask !! p <> Some true) -> Np.select arr mask = [].
Proof.
  revert mask; induction arr as [|y arr IH]; intros [|b mask] H; simpl;
    try done.
  destruct b; [by specialize (H 0%nat)|].
  apply IH. intros p. apply (H (S p)).
Qed.

End SelectWhere.

Lemma mask_ext (m1 m2 : list bool) :
  length m1 = length m2 ->
  (forall p, m1 !! p = Some true <-> m2 !! p = Some true) ->
  m1 = m2.
Proof.
  intros Hlen H. apply list_eq_same_length with (length m1); [done|done|].
  intros p b1 b2 _ H1 H2.
  destruct b1, b2; try done.
  - apply H in H1. congruence.
  - apply H in H2. congruence.
Qed.

Section Closure.
Variables (st : Regions) (ids : list Z) (direction : string).
Hypothesis Hlen : same_length st.
Hypothesis Hdir : direction = "down" \/ direction = "up".

Lemma seed_mask_lookup (p : nat) :
  seed_mask st ids !! p = Some true <->
  exists x, id st !! p = Some x /\ x ∈ ids.
Proof.
  unfold seed_mask, ismember; simpl. split.
  - intros Hp. destruct (id st !! p) as [x|] eqn:Hx.
    + rewrite (isin_lookup _ _ _ _ Hx) in Hp. injection Hp as Hp.
      apply bool_decide_eq_true in Hp. eauto.
    + apply lookup_lt_Some in Hp. apply lookup_ge_None in Hx.
      unfold Np.isin in Hp. rewrite length_map in Hp. lia.
  - intros (x & Hx & Hin). rewrite (isin_lookup _ _ _ _ Hx). f_equal.
    by apply bool_decide_eq_true.
Qed.

(** What one pass selects: what was selected, and the rows linked to a
    selected row. *)
Lemma closure_pass_selects (m : list bool) :
  length m = length (id st) ->
  exists m', closure_pass st direction m = Ok m' /\
    length m' = length (id st) /\
    forall p, m' !! p = Some true <->
      m !! p = Some true \/
      exists q y, m !! q = Some true /\
        ((direction = "down" /\ parent st !! p = Some (Some y) /\
          id st !! q = Some y) \/
         (direction = "up" /\ parent st !! q = Some (Some y) /\
          id st !! p = Some y)).
Proof.
  intros Hm. destruct Hlen as (_ & _ & _ & _ & Hpl).
  destruct (closure_pass_valid st direction m Hpl Hdir Hm) as (m' & Hpass & Hl' & _).
  exists m'. split_and!; try done.
  intros p. destruct (decide (p < length (id st))%nat) as [Hlt|Hge].
  2:{ split.
      - intros Hp%lookup_lt_Some. lia.
      - intros [Hp%lookup_lt_Some|(q & y & _ & [(_ & Hp%lookup_lt_Some & _)|
                                               (_ & _ & Hp%lookup_lt_Some)])];
          lia. }
  destruct (lookup_lt_is_Some_2 m p) as [b Hb]; [lia|].
  destruct (lookup_lt_is_Some_2 (id st) p Hlt) as [x Hx].
  destruct (lookup_lt_is_Some_2 (parent st) p) as [o Ho]; [lia|].
  revert Hpass. unfold closure_pass.
  destruct (decide (direction = "down")) as [Hd|Hnd].
  - intros [= <-].
    erewrite mask_or_lookup; [|exact Hb|].
    2:{ unfold Np.isin_float. by rewrite list_lookup_fmap, Ho. }
    split.
    + intros [= Hor]. apply orb_true_iff in Hor as [->|Hnew]; [by left|].
      right. destruct o as [y|]; [|done].
      apply bool_decide_eq_true in Hnew.
      apply list_elem_of_fmap in Hnew as (z & [= <-] & Hz).
      apply select_elem in Hz as (q & Hq & Hmq).
      exists q, y. split; [done|]. left. done.
    + intros [Hp|(q & y & Hmq & [(_ & Hpy & Hq)|(Hup & _)])].
      * assert (b = true) as -> by congruence. done.
      * rewrite Ho in Hpy. injection Hpy as ->. f_equal.
        apply orb_true_iff. right. apply bool_decide_eq_true.
        apply list_elem_of_fmap. exists y. split; [done|].
        apply select_elem. eauto.
      * rewrite Hd in Hup. discriminate.
  - destruct (decide (direction = "up")) as [Hu|Hnu]; [|by destruct Hdir].
    intros [= <-].
    erewrite mask_or_lookup; [|exact Hb|].
    2:{ unfold Np.isin_float. by rewrite list_lookup_fmap, list_lookup_fmap, Hx. }
    split.
    + intros [= Hor]. apply orb_true_iff in Hor as [->|Hnew]; [by left|].
      right. apply bool_decide_eq_true in Hnew.
      apply select_elem in Hnew as (q & Hq & Hmq).
      exists q, x. split; [done|]. right. done.
    + intros [Hp|(q & y & Hmq & [(Hdn & _)|(_ & Hqy & Hpy)])].
      * assert (b = true) as -> by congruence. done.
      * done.
      * assert (y = x) as -> by congruence. f_equal.
        apply orb_true_iff. right. apply bool_decide_eq_true.
        apply select_elem. eauto.
Qed.

(** The final mask of a navigation: the rows related to the seeds. *)
Lemma navigate_mask :
  exists mask : list bool,
    nav_run st ids direction (nav_budget st) NavInit = NavExit mask /\
    length mask = length (id st) /\
    forall p, mask !! p = Some true <-> related st direction ids p.
Proof.
  destruct Hlen as (_ & _ & _ & _ & Hpl).
  destruct (navigate_exit st ids direction Hpl Hdir)
    as (mask & Hrun & Hl & Hle & Hfix).
  exists mask. split_and!; try done.
  intros p. split.
  - (* every selected row is related to a seed *)
    set (P := fun m : list bool =>
                length m = length (id st) /\
                forall q, m !! q = Some true -> related st direction ids q).
    assert (Hstep : forall m m', P m ->
              closure_pass st direction m = Ok m' -> P m').
    { intros m m' [Hm Hrel] Hpass.
      destruct (closure_pass_selects m Hm) as (m2 & Hm2 & Hl2 & Hsel).
      assert (m2 = m') as -> by congruence.
      split; [done|]. intros q [Hq|(r & y & Hr & Hlink)]%Hsel; [by apply Hrel|].
      destruct Hlink as [(Hd & Hpar & Hid)|(Hu & Hpar & Hid)].
      - eapply related_down; eauto.
      - eapply related_up; eauto. }
    pose proof (nav_run_invariant st ids direction P Hstep (nav_budget st) NavInit)
      as Hinv.
    rewrite Hrun in Hinv. simpl in Hinv. apply Hinv. split.
    + apply seed_mask_length.
    + intros q (x & Hx & Hin)%seed_mask_lookup. by eapply related_seed.
  - (* every related row is selected *)
    destruct (closure_pass_selects mask Hl) as (m2 & Hm2 & _ & Hsel).
    assert (m2 = mask) as -> by congruence.
    induction 1 as [q x Hx Hin|q r y Hd Hpar Hid _ IH|q r y Hu Hpar Hid _ IH].
    + assert (Hseed : seed_mask st ids !! q = Some true).
      { apply seed_mask_lookup. eauto. }
      destruct (Forall2_lookup_l _ _ _ _ _ Hle Hseed) as (b & Hb & Himp).
      by rewrite Hb, Himp.
    + apply Hsel. right. exists r, y. split; [done|]. left. done.
    + apply Hsel. right. exists r, y. split; [done|]. right. done.
Qed.

End Closure.

Section ClosureResult.
Variables (st : Regions) (ids : list Z) (direction : string).
Hypothesis Hlen : same_length st.
Hypothesis Hnd : NoDup (id st).
Hypothesis Hdir : direction = "down" \/ direction = "up".

Lemma first_positions_unique (xs : list Z) (rows rows' : list nat) :
  Forall2 (fun x p => Np.first_index x (id st) = Some p) xs rows ->
  Forall2 (fun x p => id st !! p = Some x) xs rows' ->
  rows = rows'.
Proof.
  intros H; revert rows'. induction H as [|x p xs rows Hx _ IH]; intros rows' H'.
  - by inversion H'.
  - inversion H' as [|? p' ? rows2 Hx' Hrest]; subst. f_equal; [|by apply IH].
    apply first_index_Some in Hx. eapply NoDup_lookup; eauto.
Qed.

(** [get] of the ids selected by a mask is the selected rows. *)
Lemma get_selected (mask : list bool) :
  length mask = length (id st) ->
  get st (Np.select (id st) mask) = Ok (select_rows st mask).
Proof.
  intros Hm.
  destruct (get_present st (Np.select (id st) mask) Hlen (select_in_store st mask))
    as (rows & b & Hrows & Hget & Hid & Hn & Ha & Hr & Hl & Hp).
  assert (rows = Np.where_true mask) as ->.
  { eapply first_positions_unique; [exact Hrows|].
    by apply select_where_true. }
  destruct Hlen as (Hln & Hla & Hlr & Hll & Hlp).
  rewrite take_where_true in Hn by lia.
  rewrite take_where_true in Ha by lia.
  rewrite take_where_true in Hr by lia.
  rewrite take_where_true in Hl by lia.
  rewrite take_where_true in Hp by lia.
  rewrite Hget. f_equal. destruct b; simpl in *. unfold select_rows.
  congruence.
Qed.

Lemma navigate_tree_rows :
  exists mask : list bool,
    length mask = length (id st) /\
    (forall p, mask !! p = Some true <-> related st direction ids p) /\
    _navigate_tree st ids direction = Ok (select_rows st mask).
Proof.
  destruct (navigate_mask st ids direction Hlen Hdir) as (mask & Hrun & Hl & Hrel).
  exists mask. split_and!; try done.
  unfold _navigate_tree. rewrite Hrun. by apply get_selected.
Qed.

End ClosureResult.

(** X3. On a store with columns of one length and distinct ids, a
    navigation up or down returns the rows of the store related to the
    seeds, each once and in the order of the store: the rows carrying a
    seed id, and those linked to them by parent links followed downwards
    for [descendants] and upwards for [ancestors]. *)
Theorem navigate_tree_returns_related_rows (st : Regions) (ids : list Z)
    (direction : string) :
  same_length st ->
  NoDup (id st) ->
  direction = "down" \/ direction = "up" ->
  exists mask : list bool,
    length mask = length (id st) /\
    (forall p, mask !! p = Some true <-> related st direction ids p) /\
    _navigate_tree st ids direction = Ok (select_rows st mask).
Proof. apply navigate_tree_rows. Qed.

Lemma navigate_tree_returns_related_rows_witness :
  exists mask : list bool,
    length mask = 11%nat /\
    descendants Fixture.store [Fixture.B]
      = Ok (select_rows Fixture.store mask).
Proof.
  destruct (navigate_tree_returns_related_rows Fixture.store [Fixture.B] "down")
    as (mask & Hl & _ & Hres).
  - exact fixture_same_length.
  - exact fixture_nodup.
  - left; reflexivity.
  - exists mask. split; [exact Hl|exact Hres].
Defined.

(** X4. Seeds that are not in the store are ignored: when no seed is an id
    of the store, [descendants] and [ancestors] return the empty bunch
    and do not raise. *)
Theorem navigate_tree_unknown_seeds (st : Regions) (ids : list Z)
    (direction : string) :
  same_length st ->
  NoDup (id st) ->
  direction = "down" \/ direction = "up" ->
  Forall (fun x => x ∉ id st) ids ->
  _navigate_tree st ids direction = Ok (mkRegions [] [] [] [] [] []).
Proof.
  intros Hlen Hnd Hdir Hout.
  destruct (navigate_tree_rows st ids direction Hlen Hnd Hdir)
    as (mask & Hl & Hrel & ->).
  assert (Hnone : forall p, mask !! p <> Some true).
  { intros p Hp%Hrel. rewrite Forall_forall in Hout.
    induction Hp as [q x Hx Hin|q r y _ _ _ _ IH|q r y _ _ _ _ IH]; try done.
    apply (Hout x Hin). eapply list_elem_of_lookup_2, Hx. }
  unfold select_rows. by rewrite !select_all_false.
Qed.

Lemma navigate_tree_unknown_seeds_witness :
  ancestors Fixture.store [11; 12] = Ok (mkRegions [] [] [] [] [] []).
Proof.
  apply (navigate_tree_unknown_seeds Fixture.store [11; 12] "up").
  - exact fixture_same_length.
  - exact fixture_nodup.
  - right; reflexivity.
  - decide_now.
Defined.

Section ClosureTwice.
Variables (st : Regions) (direction : string).
Hypothesis Hlen : same_length st.
Hypothesis Hnd : NoDup (id st).
Hypothesis Hdir : direction = "down" \/ direction = "up".

Lemma selected_id (mask : list bool) (p : nat) (x : Z) :
  id st !! p = Some x ->
  x ∈ Np.select (id st) mask <-> mask !! p = Some true.
Proof.
  intros Hx. rewrite select_elem. split.
  - intros (q & Hq & Hmq).
    assert (q = p) as -> by (eapply NoDup_lookup; eauto). done.
  - intros Hp. eauto.
Qed.

Lemma related_twice (ids : list Z) (mask : list bool) (p : nat) :
  (forall q, mask !! q = Some true <-> related st direction ids q) ->
  related st direction (Np.select (id st) mask) p <->
  related st direction ids p.
Proof.
  intros Hrel. split.
  - induction 1 as [q x Hx Hin|q r y Hd Hpar Hid _ IH|q r y Hu Hpar Hid _ IH].
    + apply Hrel. by apply (selected_id mask q x Hx).
    + eapply related_down; eauto.
    + eapply related_up; eauto.
  - intros Hp. pose proof Hp as Hmp. apply Hrel in Hmp.
    destruct (lookup_lt_is_Some_2 (id st) p) as [x Hx].
    { destruct Hp as [? ? H _|? ? ? _ H _ _|? ? ? _ _ H _];
        apply lookup_lt_Some in H; try done.
      destruct Hlen as (_ & _ & _ & _ & Hpl). lia. }
    eapply related_seed; [exact Hx|]. by apply (selected_id mask p x Hx).
Qed.

End ClosureTwice.

(** X5. Navigating again from what a navigation returned changes nothing:
    the descendants of the descendants are the descendants, and likewise
    for the ancestors. *)
Theorem navigate_tree_idempotent (st : Regions) (ids : list Z)
    (direction : string) (d : Regions) :
  same_length st ->
  NoDup (id st) ->
  direction = "down" \/ direction = "up" ->
  _navigate_tree st ids direction = Ok d ->
  _navigate_tree st (id d) direction = Ok d.
Proof.
  intros Hlen Hnd Hdir Hd.
  destruct (navigate_tree_rows st ids direction Hlen Hnd Hdir)
    as (mask & Hl & Hrel & Hres).
  assert (d = select_rows st mask) as -> by congruence.
  destruct (navigate_tree_rows st (id (select_rows st mask)) direction
              Hlen Hnd Hdir) as (mask2 & Hl2 & Hrel2 & Hres2).
  assert (mask2 = mask) as ->; [|done].
  apply mask_ext; [lia|]. intros p.
  rewrite Hrel2, Hrel. simpl. by apply related_twice.
Qed.

Lemma navigate_tree_idempotent_witness :
  descendants Fixture.store
    (id (select_rows Fixture.store
           [false; false; true; true; true; true;
            false; false; false; false; false]))
  = Ok (select_rows Fixture.store
          [false; false; true; true; true; true;
           false; false; false; false; false]).
Proof.
  apply (navigate_tree_idempotent Fixture.store [Fixture.A] "down").
  - exact fixture_same_length.
  - exact fixture_nodup.
  - left; reflexivity.
  - by vm_compute.
Defined.

Section Duality.
Variable st : Regions.

Lemma related_down_chain (xq : Z) (p : nat) :
  related st "down" [xq] p ->
  exists q, id st !! q = Some xq /\ rtc (parent_link st) p q.
Proof.
  induction 1 as [p x Hx Hin|p r y _ Hpar Hid _ (q & Hq & Hrtc)|p r y Hu _ _ _ _].
  - apply list_elem_of_singleton in Hin as ->. by exists p.
  - exists q. split; [done|]. eapply rtc_l; [|exact Hrtc]. by exists y.
  - discriminate.
Qed.

Lemma chain_related_down (xq : Z) (p q : nat) :
  rtc (parent_link st) p q -> id st !! q = Some xq ->
  related st "down" [xq] p.
Proof.
  induction 1 as [q|p r q (y & Hpar & Hid) _ IH]; intros Hq.
  - eapply related_seed; [exact Hq|]. by apply list_elem_of_singleton.
  - eapply related_down; eauto.
Qed.

Lemma related_up_chain (xp : Z) (q : nat) :
  related st "up" [xp] q ->
  exists p, id st !! p = Some xp /\ rtc (parent_link st) p q.
Proof.
  induction 1 as [q x Hx Hin|q r y Hd _ _ _ _|q r y _ Hpar Hid _ (p & Hp & Hrtc)].
  - apply list_elem_of_singleton in Hin as ->. by exists q.
  - discriminate.
  - exists p. split; [done|]. eapply rtc_r; [exact Hrtc|]. by exists y.
Qed.

Lemma chain_related_up (xp : Z) (p q : nat) :
  rtc (parent_link st) p q -> id st !! p = Some xp ->
  related st "up" [xp] q.
Proof.
  intros Hrtc Hp. revert q Hrtc.
  apply (rtc_ind_r (fun q => related st "up" [xp] q)).
  - eapply related_seed; [exact Hp|]. by apply list_elem_of_singleton.
  - intros r q _ (y & Hpar & Hid) IH. eapply related_up; eauto.
Qed.

End Duality.

(** X6. Ancestors and descendants are converse: on a store with columns of
    one length and distinct ids, a region is among the descendants of
    another exactly when the other is among its ancestors. *)
Theorem descendants_ancestors_converse (st : Regions) (p q : nat) (xp xq : Z) :
  same_length st ->
  NoDup (id st) ->
  id st !! p = Some xp ->
  id st !! q = Some xq ->
  exists dq ap : Regions,
    descendants st [xq] = Ok dq /\
    ancestors st [xp] = Ok ap /\
    (xp ∈ id dq <-> xq ∈ id ap).
Proof.
  intros Hlen Hnd Hp Hq.
  destruct (navigate_tree_rows st [xq] "down" Hlen Hnd (or_introl eq_refl))
    as (mdown & _ & Hdown & Hd).
  destruct (navigate_tree_rows st [xp] "up" Hlen Hnd (or_intror eq_refl))
    as (mup & _ & Hup & Ha).
  exists (select_rows st mdown), (select_rows st mup).
  split_and!; try done. simpl.
  rewrite (selected_id st Hnd mdown p xp Hp), (selected_id st Hnd mup q xq Hq).
  rewrite Hdown, Hup. split.
  - intros (q' & Hq' & Hrtc)%related_down_chain.
    assert (q' = q) as -> by (eapply NoDup_lookup; eauto).
    by eapply chain_related_up.
  - intros (p' & Hp' & Hrtc)%related_up_chain.
    assert (p' = p) as -> by (eapply NoDup_lookup; eauto).
    by eapply chain_related_down.
Qed.

Lemma descendants_ancestors_converse_witness :
  exists dq ap : Regions,
    descendants Fixture.store [Fixture.A] = Ok dq /\
    ancestors Fixture.store [Fixture.D] = Ok ap /\
    (Fixture.D ∈ id dq <-> Fixture.A ∈ id ap).
Proof.
  apply (descendants_ancestors_converse Fixture.store 5 2).
  - exact fixture_same_length.
  - exact fixture_nodup.
  - reflexivity.
  - reflexivity.
Defined.

(** ** [leaves] *)

Section Leaves.
Variable st : Regions.

Lemma unique_increasing (l : list Z) : increasing l -> Np.unique l = l.
Proof.
  intros H. apply increasing_ext; [apply increasing_unique|done|].
  intros x. apply elem_of_unique.
Qed.

Lemma filter_none (P : Z -> Prop) `{!forall x, Decision (P x)} (l : list Z) :
  Forall (fun x => ~ P x) l -> filter P l = [].
Proof.
  induction 1 as [|x l Hx _ IH]; [done|].
  rewrite filter_cons. by destruct (decide (P x)).
Qed.

Lemma omap_numbers (xs : list Z) (tail : list (option Z)) :
  Forall (fun o => o = None) tail ->
  omap (fun o => o) ((Some <$> xs) ++ tail) = xs.
Proof.
  intros Htail. rewrite omap_app.
  rewrite (omap_none _ tail) by done. rewrite app_nil_r.
  induction xs as [|x xs IH]; [done|].
  change (omap (fun o : option Z => o) (Some <$> x :: xs))
    with (x :: omap (fun o : option Z => o) (Some <$> xs)).
  by rewrite IH.
Qed.

(** The ids that [leaves] asks [get] for: those of the store that are no
    parent, and the parents that are no id of the store. *)
Lemma leaves_unfold :
  leaves st =
    get st (Np.unique
              (filter (fun x => x ∉ Np.unique (omap (fun o => o) (parent st)))
                      (Np.unique (id st)) ++
               filter (fun x => x ∉ Np.unique (id st))
                      (Np.unique (omap (fun o => o) (parent st))))).
Proof.
  unfold leaves, setxor1d_float. cbv zeta. rewrite omap_numbers; [done|].
  destruct (bool_decide _); repeat constructor.
Qed.

Lemma elem_of_parents (y : Z) :
  y ∈ Np.unique (omap (fun o => o) (parent st)) <-> Some y ∈ parent st.
Proof.
  rewrite elem_of_unique, list_elem_of_omap. split.
  - intros (o & Ho & ->). done.
  - intros H. eauto.
Qed.

End Leaves.

(** X7. On a store whose parents are all ids of the store, [leaves]
    returns the rows whose id is the parent of no row, in increasing order
    of id: the childless regions of both hemispheres, and the void
    row. *)
Theorem leaves_childless_rows (st : Regions) :
  same_length st ->
  (forall y, Some y ∈ parent st -> y ∈ id st) ->
  exists b : Regions,
    leaves st = Ok b /\
    id b = filter (fun x => Some x ∉ parent st) (Np.unique (id st)).
Proof.
  intros Hlen Hclosed.
  set (childless := filter (fun x => Some x ∉ parent st) (Np.unique (id st))).
  assert (Hxor : Np.unique
            (filter (fun x => x ∉ Np.unique (omap (fun o => o) (parent st)))
                    (Np.unique (id st)) ++
             filter (fun x => x ∉ Np.unique (id st))
                    (Np.unique (omap (fun o => o) (parent st))))
          = childless).
  { assert (Hnone : filter (fun x => x ∉ Np.unique (id st))
                      (Np.unique (omap (fun o => o) (parent st))) = []).
    { apply filter_none, Forall_forall.
      intros y Hy%elem_of_parents Hnot. apply Hnot.
      apply elem_of_unique. by apply Hclosed. }
    rewrite Hnone, app_nil_r.
    rewrite unique_increasing by apply increasing_filter, increasing_unique.
    apply list_filter_iff. intros x. by rewrite elem_of_parents. }
  destruct (get_present st childless Hlen) as (rows & b & _ & Hget & Hid & _).
  { apply Forall_forall. intros x [_ Hx]%list_elem_of_filter.
    by rewrite elem_of_unique in Hx. }
  exists b. split; [|done]. by rewrite leaves_unfold, Hxor.
Qed.

Lemma fixture_parents_closed (y : Z) :
  Some y ∈ parent Fixture.store -> y ∈ id Fixture.store.
Proof.
  intros Hy.
  assert (Hp : parent Fixture.store =
               [None; None; Some 997; Some 10; Some 10; Some 20;
                None; Some (-997); Some (-10); Some (-10); Some (-20)])
    by (by vm_compute).
  rewrite Hp in Hy.
  repeat (apply elem_of_cons in Hy as [Hy|Hy];
          [try discriminate; injection Hy as ->; decide_now|]).
  by apply elem_of_nil in Hy.
Qed.

Lemma leaves_childless_rows_witness :
  exists b : Regions,
    leaves Fixture.store = Ok b /\
    id b = filter (fun x => Some x ∉ parent Fixture.store)
                  (Np.unique (id Fixture.store)).
Proof.
  apply (leaves_childless_rows Fixture.store).
  - exact fixture_same_length.
  - exact fixture_parents_closed.
Defined.

(** X8. A parent that is not an id of the store makes [leaves] raise
    [IndexError]: the dangling parent is in one array only, it is handed
    to [get], and [get] finds no row for it. *)
Theorem leaves_dangling_parent_raises (st : Regions) (y : Z) :
  Some y ∈ parent st -> y ∉ id st -> leaves st = Err IndexError.
Proof.
  intros Hy Hnot. rewrite leaves_unfold, get_unfold.
  rewrite (get_rows_absent st _ y); [done| |done].
  apply elem_of_unique, elem_of_app. right.
  apply list_elem_of_filter. split.
  - by rewrite elem_of_unique.
  - by apply elem_of_parents.
Qed.

Lemma leaves_dangling_parent_raises_witness :
  leaves (mkRegions [0; 7] ["void"; "x"] ["void"; "x"]
            [(0, 0, 0); (1, 1, 1)] [0; 1] [None; Some 5])
    = Err IndexError.
Proof.
  apply (leaves_dangling_parent_raises
           (mkRegions [0; 7] ["void"; "x"] ["void"; "x"]
              [(0, 0, 0); (1, 1, 1)] [0; 1] [None; Some 5]) 5);
    decide_now.
Defined.

(** ** The store built by the constructor *)

(** X9. Lateralizing a table with columns of one length, distinct
    non-negative int64 ids, int64 parents and the parentless void row first
    gives a store with columns of one length, distinct ids, the void row
    first and, for every row, a mirror row of negated id and negated
    parent; it has one more row for every positive id of the table. *)
Theorem constructor_store_layout (raw : Regions) :
  same_length raw ->
  NoDup (id raw) ->
  Forall (fun x => 0 <= x < 2 ^ 63) (id raw) ->
  Forall (fun o => forall y, o = Some y -> int64 y) (parent raw) ->
  id raw !! 0%nat = Some 0 ->
  parent raw !! 0%nat = Some None ->
  same_length (lateralized raw) /\
  NoDup (id (lateralized raw)) /\
  id (lateralized raw) !! 0%nat = Some 0 /\
  parent (lateralized raw) !! 0%nat = Some None /\
  mirrored (lateralized raw) /\
  length (id (lateralized raw))
    = (length (id raw)
       + length (filter (fun x : Z => (0 < x)%Z) (id raw)))%nat.
Proof.
  intros Hlen Hnd Hids Hpar Hvoid Hvoidp.
  split_and!.
  - by apply lateralized_same_length.
  - by apply lateralized_nodup.
  - by apply lateralized_void_first.
  - by apply lateralized_void_first.
  - by apply lateralized_mirrored.
  - unfold lateralized, left_rows; simpl.
    rewrite length_app, length_map. f_equal.
    rewrite select_length by (by rewrite length_map).
    clear. induction (id raw) as [|x l IH]; [done|].
    simpl. rewrite sum_cons, filter_cons, IH.
    destruct (decide (0 < x)).
    + by rewrite bool_decide_eq_true_2.
    + by rewrite bool_decide_eq_false_2.
Qed.

Lemma fixture_raw_parents :
  Forall (fun o => forall y, o = Some y -> int64 y) (parent Fixture.raw).
Proof.
  repeat (apply Forall_cons; split;
    [intros y Hy; try discriminate; injection Hy as <-;
     split; by vm_compute|]).
  constructor.
Qed.

Lemma constructor_store_layout_witness :
  mirrored (lateralized Fixture.raw) /\
  length (id (lateralized Fixture.raw))
    = (length (id Fixture.raw)
       + length (filter (fun x : Z => (0 < x)%Z) (id Fixture.raw)))%nat.
Proof.
  destruct (constructor_store_layout Fixture.raw)
    as (_ & _ & _ & _ & Hmir & Hsize).
  - repeat split.
  - decide_now.
  - decide_now.
  - exact fixture_raw_parents.
  - reflexivity.
  - reflexivity.
  - split; [exact Hmir|exact Hsize].
Defined.

Section LeftCopy.
Variable raw : Regions.
Hypothesis Hlen : same_length raw.
Hypothesis Hvoid : id raw !! 0%nat = Some 0.
Hypothesis Hpos : forall p x, (0 < p)%nat -> id raw !! p = Some x -> 0 < x.

Let keep : list bool := map (fun x => bool_decide (0 < x)) (id raw).

Lemma keep_positive (p : nat) :
  (0 < p < length (id raw))%nat -> keep !! p = Some true.
Proof.
  intros [Hp Hlt]. destruct (lookup_lt_is_Some_2 (id raw) p Hlt) as [x Hx].
  unfold keep. rewrite list_lookup_fmap, Hx. simpl. f_equal.
  apply bool_decide_eq_true. by eapply Hpos.
Qed.

Lemma keep_void : keep !! 0%nat = Some false.
Proof. unfold keep. by rewrite list_lookup_fmap, Hvoid. Qed.

(** The rows kept before position [p + 1] are the rows [1 .. p]. *)
Lemma keep_rank (p : nat) :
  (p < length (id raw))%nat -> Np.sum (take (S p) keep) = p.
Proof.
  assert (Hk : length keep = length (id raw))
    by (unfold keep; by rewrite length_map).
  induction p as [|p IH]; intros Hlt.
  - pose proof keep_void as H0. destruct keep as [|b k]; [done|].
    simpl in H0. injection H0 as ->. simpl. by rewrite sum_cons.
  - assert (Hp : keep !! (S p) = Some true) by (apply keep_positive; lia).
    rewrite (take_S_r _ _ _ Hp).
    unfold Np.sum in *. rewrite filter_app, length_app.
    rewrite IH by lia. simpl. lia.
Qed.

Lemma left_copy_lookup {A : Type} (col : list A) (p : nat) :
  length col = length (id raw) -> (0 < p < length (id raw))%nat ->
  Np.select col keep !! (p - 1)%nat = col !! p.
Proof.
  intros Hcol Hp.
  destruct (lookup_lt_is_Some_2 col p) as [v Hv]; [lia|].
  rewrite Hv. destruct p as [|p]; [lia|].
  replace (S p - 1)%nat with p by lia.
  pose proof (select_lookup_kept col keep (S p) v
                (keep_positive (S p) Hp) Hv) as Hsel.
  by rewrite keep_rank in Hsel by lia.
Qed.

End LeftCopy.

Lemma left_copy_rows (raw : Regions) (p : nat) (x : Z) :
  same_length raw ->
  id raw !! 0%nat = Some 0 ->
  (forall q y, (0 < q)%nat -> id raw !! q = Some y -> 0 < y) ->
  (0 < p)%nat ->
  id raw !! p = Some x ->
  let st := lateralized raw in
  let q := (p + (length (id raw) - 1))%nat in
  id st !! q = Some (Np.neg x) /\
  name st !! q = (fun s => s +:+ " (left)") <$> name raw !! p /\
  acronym st !! q = acronym raw !! p /\
  rgb st !! q = rgb raw !! p /\
  level st !! q = level raw !! p /\
  parent st !! q = fmap Np.neg <$> parent raw !! p.
Proof.
  intros Hlen Hvoid Hpos Hp Hx st q.
  pose proof (lookup_lt_Some _ _ _ Hx) as Hlt.
  destruct Hlen as (Hn & Ha & Hr & Hl & Hpl).
  assert (Hq : forall {A : Type} (col : list A),
            length col = length (id raw) ->
            (q - length col)%nat = (p - 1)%nat /\ (length col <= q)%nat).
  { intros A col Hc. unfold q. lia. }
  unfold st, lateralized, left_rows; simpl.
  split_and!.
  - destruct (Hq _ (id raw) eq_refl) as [Hqp Hge].
    rewrite lookup_app_r by done. rewrite Hqp, list_lookup_fmap.
    rewrite (left_copy_lookup raw Hvoid Hpos (id raw) p) by (done || lia).
    by rewrite Hx.
  - destruct (Hq _ (name raw) Hn) as [Hqp Hge].
    rewrite lookup_app_r by done. rewrite Hqp, list_lookup_fmap.
    by rewrite (left_copy_lookup raw Hvoid Hpos (name raw) p) by (done || lia).
  - destruct (Hq _ (acronym raw) Ha) as [Hqp Hge].
    rewrite lookup_app_r by done. rewrite Hqp.
    by rewrite (left_copy_lookup raw Hvoid Hpos (acronym raw) p) by (done || lia).
  - destruct (Hq _ (rgb raw) Hr) as [Hqp Hge].
    rewrite list_lookup_insert_ne by (unfold q; lia).
    rewrite lookup_app_r by done. rewrite Hqp.
    by rewrite (left_copy_lookup raw Hvoid Hpos (rgb raw) p) by (done || lia).
  - destruct (Hq _ (level raw) Hl) as [Hqp Hge].
    rewrite lookup_app_r by done. rewrite Hqp.
    by rewrite (left_copy_lookup raw Hvoid Hpos (level raw) p) by (done || lia).
  - destruct (Hq _ (parent raw) Hpl) as [Hqp Hge].
    rewrite lookup_app_r by done. rewrite Hqp, list_lookup_fmap.
    by rewrite (left_copy_lookup raw Hvoid Hpos (parent raw) p) by (done || lia).
Qed.

(** X10. In a table whose first row is the void row and whose other ids
    are positive, the left copy of the row at position [p] is at position
    [p + N - 1] of the store, [N] the number of rows of the table: it
    carries the negated id and the negated parent, the annotated name,
    and the acronym, colour and level of the row. *)
Theorem left_copy_position (raw : Regions) (p : nat) (x : Z) :
  same_length raw ->
  id raw !! 0%nat = Some 0 ->
  (forall q y, (0 < q)%nat -> id raw !! q = Some y -> 0 < y) ->
  (0 < p)%nat ->
  id raw !! p = Some x ->
  let st := lateralized raw in
  let q := (p + (length (id raw) - 1))%nat in
  id st !! q = Some (Np.neg x) /\
  name st !! q = (fun s => s +:+ " (left)") <$> name raw !! p /\
  acronym st !! q = acronym raw !! p /\
  rgb st !! q = rgb raw !! p /\
  level st !! q = level raw !! p /\
  parent st !! q = fmap Np.neg <$> parent raw !! p.
Proof. apply left_copy_rows. Qed.

Lemma fixture_raw_positive (q : nat) (y : Z) :
  (0 < q)%nat -> id Fixture.raw !! q = Some y -> 0 < y.
Proof.
  intros Hq Hy.
  do 6 (destruct q as [|q]; [try lia; injection Hy as <-; by vm_compute|]).
  discriminate.
Qed.

Lemma left_copy_position_witness :
  id (lateralized Fixture.raw) !! 7%nat = Some (-10) /\
  acronym (lateralized Fixture.raw) !! 7%nat = Some "A".
Proof.
  destruct (left_copy_position Fixture.raw 2 10)
    as (Hid & _ & Hacr & _).
  - repeat split.
  - reflexivity.
  - exact fixture_raw_positive.
  - lia.
  - reflexivity.
  - split; [exact Hid|exact Hacr].
Defined.

(** X11. The constant of [_filter_lr_acro] fits one size of table: for a
    table with the void row first and distinct positive ids after it, the
    index that "left" selects for the row at position [p] is the position
    of its left copy exactly when the table has 1328 rows. *)
Theorem left_offset_fits_1328_rows (raw : Regions) (mapping : string)
    (p : nat) (x : Z) :
  same_length raw ->
  NoDup (id raw) ->
  Forall (fun y => 0 <= y < 2 ^ 63) (id raw) ->
  Z.of_nat (length (id raw)) < 2 ^ 62 ->
  id raw !! 0%nat = Some 0 ->
  (0 < p)%nat ->
  id raw !! p = Some x ->
  exists v : Z,
    _filter_lr_acro [Z.of_nat p] mapping (Some "left") = OneColumn [v] /\
    (index_z (id (lateralized raw)) v = Some (Np.neg x) <->
     length (id raw) = 1328%nat).
Proof.
  intros Hlen Hnd Hids Hsize Hvoid Hp Hx.
  pose proof (lookup_lt_Some _ _ _ Hx) as Hlt.
  assert (Hpos : forall q y, (0 < q)%nat -> id raw !! q = Some y -> 0 < y).
  { intros q y Hq Hy. rewrite Forall_forall in Hids.
    pose proof (Hids y ltac:(by eapply list_elem_of_lookup_2)).
    destruct (decide (y = 0)) as [->|]; [|lia].
    assert (q = 0%nat) by (eapply NoDup_lookup; eauto). lia. }
  destruct (left_copy_rows raw p x Hlen Hvoid Hpos Hp Hx) as (Hcopy & _).
  cbv zeta in Hcopy.
  pose proof (lateralized_nodup raw Hnd Hids) as Hnd'.
  exists (Z.of_nat p + 1327). split.
  - unfold _filter_lr_acro. rewrite decide_True by done. simpl.
    rewrite add64_small; [done|]. lia.
  - unfold index_z.
    destruct (Z.leb_spec 0 (Z.of_nat p + 1327)); [|lia].
    replace (Z.to_nat (Z.of_nat p + 1327)) with (p + 1327)%nat by lia.
    split.
    + intros Hv.
      assert (p + 1327 = p + (length (id raw) - 1))%nat
        by (eapply NoDup_lookup; eauto).
      lia.
    + intros HN. rewrite <- Hcopy. f_equal. lia.
Qed.

Lemma table1328_positions (q : nat) (y : Z) :
  id Table1328.raw !! q = Some y -> y = Z.of_nat q /\ (q < 1328)%nat.
Proof.
  change (id Table1328.raw) with (Z.of_nat <$> seq 0 1328).
  rewrite list_lookup_fmap.
  destruct (seq 0 1328 !! q) as [k|] eqn:Hk; [|done].
  apply lookup_seq in Hk as [-> Hlt]. simpl. intros [= <-]. done.
Qed.

Lemma table1328_nodup : NoDup (id Table1328.raw).
Proof.
  change (id Table1328.raw) with (Z.of_nat <$> seq 0 1328).
  apply NoDup_fmap_2; [intros a b; apply Nat2Z.inj|apply NoDup_seq].
Qed.

Lemma table1328_range : Forall (fun y => 0 <= y < 2 ^ 63) (id Table1328.raw).
Proof.
  apply Forall_forall. intros y [q Hq]%list_elem_of_lookup.
  apply table1328_positions in Hq as [-> Hlt]. lia.
Qed.

Lemma left_offset_fits_1328_rows_witness :
  exists v : Z,
    _filter_lr_acro [5] "Allen-lr" (Some "left") = OneColumn [v] /\
    (index_z (id (lateralized Table1328.raw)) v = Some (Np.neg 5) <->
     length (id Table1328.raw) = 1328%nat).
Proof.
  apply (left_offset_fits_1328_rows Table1328.raw "Allen-lr" 5 5).
  - repeat split.
  - exact table1328_nodup.
  - exact table1328_range.
  - by vm_compute.
  - reflexivity.
  - lia.
  - reflexivity.
Defined.

(** ** Arrays built by the mapping builder *)

Section BuilderBounds.
Variables (st : Regions) (iid : list nat).

Lemma scatter_inv {A : Type} (arr : list A) (idx : list nat) (v : A)
    (out : list A) :
  Np.scatter arr idx v = Ok out -> out = Np.scatter_at arr idx v.
Proof. unfold Np.scatter. destruct (Np.in_bounds arr idx); congruence. Qed.

Lemma assign_subtree_keeps (P : nat -> Prop) (mapind mapind' : list nat)
    (i : nat) :
  assign_subtree st iid mapind i = Ok mapind' ->
  length mapind' = length mapind /\
  (Forall P mapind -> Forall P iid -> Forall P mapind').
Proof.
  rewrite assign_subtree_unfold.
  destruct (idesc_of st iid i) as [idesc|]; simpl; [|done].
  destruct (iid !! i) as [q|] eqn:Hq; simpl; [|done].
  intros ->%scatter_inv. split; [apply scatter_length|].
  intros HP Hiid. apply scatter_Forall; [done|].
  rewrite Forall_forall in Hiid. apply Hiid.
  eapply list_elem_of_lookup_2, Hq.
Qed.

Lemma assign_loop_keeps (P : nat -> Prop) (order : list nat) :
  forall mapind mapind' : list nat,
    assign_loop st iid order mapind = Ok mapind' ->
    length mapind' = length mapind /\
    (Forall P mapind -> Forall P iid -> Forall P mapind').
Proof.
  induction order as [|i order IH]; intros mapind mapind'; simpl.
  - intros [= <-]. done.
  - destruct (assign_subtree st iid mapind i) as [m1|] eqn:H1; simpl; [|done].
    intros H2. destruct (assign_subtree_keeps P _ _ _ H1) as [Hl1 HP1].
    destruct (IH _ _ H2) as [Hl2 HP2]. split; [congruence|auto].
Qed.

End BuilderBounds.

Lemma build_in_bounds (argsort : list Z -> list nat)
    (st : Regions) (new_map : list Z) (lateralize : bool)
    (mapind : list nat) :
  _mapping_from_regions_list argsort st new_map lateralize = Ok mapind ->
  Forall (fun v => (v < length (id st))%nat) mapind /\
  (lateralize = true -> length mapind = length (id st)) /\
  (length mapind <= length (id st))%nat.
Proof.
  assert (Hlat : forall lat,
            _mapping_from_regions_list argsort st new_map true = Ok lat ->
            Forall (fun v => (v < length (id st))%nat) lat /\
            length lat = length (id st)).
  { intros lat. rewrite build_unfold_lateralized.
    destruct (negb _); [done|].
    unfold Np.scatter_self.
    destruct (Np.in_bounds _ _); simpl; [|done].
    destruct (Np.take (level st) _) as [keys|]; simpl; [|done].
    destruct (assign_loop _ _ _ _) as [m|] eqn:Hloop; simpl; [|done].
    destruct (assign_loop_keeps st (members st new_map)
                (fun v => v = I_ROOT \/ (v < length (id st))%nat)
                _ _ _ Hloop) as [Hl HP].
    rewrite scatter_self_length, length_replicate in Hl.
    destruct m as [|v0 m]; [done|]. intros [= <-].
    split; [|simpl in *; lia].
    assert (Hm : Forall (fun v => v = I_ROOT \/ (v < length (id st))%nat)
                   (v0 :: m)).
    { apply HP.
      - apply scatter_self_Forall.
        + apply Forall_replicate. by left.
        + apply Forall_forall. intros q Hq%members_lt. by right.
      - apply Forall_forall. intros q Hq%members_lt. by right. }
    simpl in Hl. simpl. constructor; [unfold I_VOID; lia|].
    inversion Hm as [|? ? _ Hrest]; subst.
    (* an entry after the first: the store has two rows at least *)
    destruct m as [|v1 m]; [constructor|].
    eapply Forall_impl; [exact Hrest|]. simpl.
    intros v [->|Hv]; [|done]. simpl in Hl. unfold I_ROOT. lia. }
  destruct lateralize.
  - intros H. destruct (Hlat _ H) as [HF Hl]. split_and!; [done|done|lia].
  - rewrite build_unfold_delateralized.
    destruct (_mapping_from_regions_list argsort st new_map true)
      as [lat|] eqn:Hbuild; simpl; [|done].
    destruct (Hlat _ eq_refl) as [HF Hl].
    intros Htake. pose proof (proj1 (take_Ok _ _ _) Htake) as Htake2.
    split_and!; [|done|].
    + apply Forall_forall. intros v [k Hk]%list_elem_of_lookup.
      destruct (Forall2_lookup_r _ _ _ _ _ Htake2 Hk) as (q & _ & Hq).
      rewrite Forall_forall in HF. apply HF.
      eapply list_elem_of_lookup_2, Hq.
    + rewrite (take_length _ _ _ Htake). unfold ismember; simpl.
      etransitivity; [apply length_omap_le|]. by rewrite length_map.
Qed.

(** X12. Whatever the store and the scheme, an array that the builder
    returns holds positions of the store only; the lateralized array has
    the length of the store and the unlateralized one is no longer. *)
Theorem mapping_entries_in_bounds (argsort : list Z -> list nat)
    (st : Regions) (new_map : list Z) (lateralize : bool)
    (mapind : list nat) :
  _mapping_from_regions_list argsort st new_map lateralize = Ok mapind ->
  Forall (fun v => (v < length (id st))%nat) mapind /\
  (lateralize = true -> length mapind = length (id st)) /\
  (length mapind <= length (id st))%nat.
Proof. apply build_in_bounds. Qed.

Lemma mapping_entries_in_bounds_witness :
  Forall (fun v => (v < length (id Fixture.store))%nat)
         [0; 1; 2; 2; 2; 2; 1; 2; 2; 2; 2]%nat.
Proof.
  apply (mapping_entries_in_bounds argsort_stable Fixture.store
           [Fixture.A] false [0; 1; 2; 2; 2; 2; 1; 2; 2; 2; 2]%nat).
  by vm_compute.
Defined.

Section Representatives.
Variable st : Regions.
Hypothesis Hlen : same_length st.
Hypothesis Hnd : NoDup (id st).
Hypothesis Hlev : levels_increase st.

(** A region is no deeper than the rows below it, and as deep only as
    itself. *)
Lemma reach_level (m : Z) (p r : nat) (lp lr : Z) :
  reach st m p ->
  id st !! r = Some m -> level st !! r = Some lr -> level st !! p = Some lp ->
  lr <= lp /\ (lr = lp -> r = p).
Proof.
  intros Hreach Hr Hlr. revert lp.
  induction Hreach as [p Hp|p q y Hpar Hq _ IH]; intros lp Hlp.
  - assert (r = p) as -> by (eapply NoDup_lookup; eauto).
    assert (lr = lp) by congruence. split; [lia|done].
  - destruct (lookup_lt_is_Some_2 (level st) q) as [lq Hlq].
    { destruct Hlen as (_ & _ & _ & Hl & _).
      apply lookup_lt_Some in Hq. lia. }
    destruct (IH lq Hlq) as [Hle _].
    pose proof (Hlev p q y lp lq Hpar Hq Hlp Hlq). split; lia.
Qed.

End Representatives.

(** Where levels grow from parent to child, every member of the scheme
    but the void row is its own entry in the lateralized array. *)
Lemma members_fixed (argsort : list Z -> list nat) (st : Regions)
    (new_map : list Z) :
  same_length st ->
  NoDup (id st) ->
  levels_increase st ->
  (0 < length (id st))%nat ->
  Forall (fun x => x ∈ id st) (symmetrize new_map) ->
  sorts_members argsort st new_map ->
  exists lat : list nat,
    _mapping_from_regions_list argsort st new_map true = Ok lat /\
    length lat = length (id st) /\
    lat !! 0%nat = Some I_VOID /\
    (forall q, q ∈ members st new_map -> (0 < q)%nat -> lat !! q = Some q) /\
    (forall p, (0 < p < length (id st))%nat ->
       (forall i, ~ covers st (members st new_map) i p) ->
       lat !! p = Some I_ROOT) /\
    Forall (fun v => v = I_VOID \/ v = I_ROOT \/ v ∈ members st new_map) lat.
Proof.
  intros Hlen Hnd Hlev Hn Hsub Hsort.
  pose proof (build_lateralized_spec argsort st new_map Hlen Hnd Hsub Hsort Hn)
    as Hspec. cbv zeta in Hspec.
  destruct Hspec as (lat & Hlat & Hl & Hzero & Hroot & Hdeep & Hvals).
  exists lat. split_and!; try done.
  set (iid := members st new_map) in *.
  intros q Hq Hq0.
  pose proof Hq as Hq'. apply members_elem in Hq' as (m & Hm & HmS).
  apply list_elem_of_lookup in Hq as [j Hj].
  destruct (Hdeep q j Hq0) as (i' & Hlatq & (q' & m' & Hq' & Hm' & Hin) & Hmax).
  { exists q, m. split_and!; try done. by apply in_subtree_self. }
  rewrite Hlatq, Hq'. f_equal.
  apply in_subtree_reach in Hin as [Hreach _]; [|done|done].
  pose proof Hlen as (_ & _ & _ & Hll & _).
  destruct (lookup_lt_is_Some_2 (level st) q) as [lq Hlq].
  { apply lookup_lt_Some in Hm. lia. }
  destruct (lookup_lt_is_Some_2 (level st) q') as [lq' Hlq'].
  { apply lookup_lt_Some in Hm'. lia. }
  destruct (reach_level st Hlen Hnd Hlev m' q q' lq lq' Hreach Hm' Hlq' Hlq)
    as [Hle Heq].
  assert (Hge : lq <= lq').
  { eapply (Hmax j q lq q' lq'); try done.
    exists q, m. split_and!; try done. by apply in_subtree_self. }
  apply Heq. lia.
Qed.

(** X13. Where levels grow from parent to child and the row at position 1
    has no parent, the lateralized array is idempotent: the representative
    of a position is its own representative. *)
Theorem mapping_representatives_fixed (argsort : list Z -> list nat)
    (st : Regions) (new_map : list Z) :
  same_length st ->
  NoDup (id st) ->
  levels_increase st ->
  parent st !! 1%nat = Some None ->
  Forall (fun x => x ∈ id st) (symmetrize new_map) ->
  sorts_members argsort st new_map ->
  exists lat : list nat,
    _mapping_from_regions_list argsort st new_map true = Ok lat /\
    forall p v : nat, lat !! p = Some v -> lat !! v = Some v.
Proof.
  intros Hlen Hnd Hlev Hroot1 Hsub Hsort.
  assert (Hn : (1 < length (id st))%nat).
  { apply lookup_lt_Some in Hroot1.
    pose proof Hlen as (_ & _ & _ & _ & Hp). lia. }
  destruct (members_fixed argsort st new_map Hlen Hnd Hlev ltac:(lia) Hsub Hsort)
    as (lat & Hlat & Hl & Hzero & Hmember & Hroot & Hvals).
  exists lat. split; [done|].
  set (iid := members st new_map) in *.
  (* position 1 represents itself *)
  assert (Hone : lat !! 1%nat = Some 1%nat).
  { destruct (decide (1%nat ∈ iid)) as [Hin|Hout]; [apply Hmember; [done|lia]|].
    apply Hroot; [lia|].
    intros i (q & m & Hq & Hm & Hsub1). apply Hout.
    apply in_subtree_reach in Hsub1 as [Hreach _]; [|done|done].
    inversion Hreach as [? H1|? ? ? Hpar]; subst; [|congruence].
    assert (q = 1%nat) as <- by (eapply NoDup_lookup; eauto).
    eapply list_elem_of_lookup_2, Hq. }
  intros p v Hp.
  rewrite Forall_forall in Hvals.
  destruct (Hvals v) as [->|[->|Hv]]; [eapply list_elem_of_lookup_2, Hp|done|done|].
  destruct (decide (v = 0%nat)) as [->|]; [done|].
  apply Hmember; [done|lia].
Qed.

Lemma fixture_levels_increase : levels_increase Fixture.store.
Proof.
  intros p q y lp lq Hpar Hid Hlp Hlq.
  do 11 (destruct p as [|p];
    [try discriminate; injection Hpar as <-; injection Hlp as <-;
     do 11 (destruct q as [|q];
       [try discriminate; injection Hlq as <-; by vm_compute|]);
     discriminate|]).
  discriminate.
Qed.

Lemma mapping_representatives_fixed_witness :
  exists lat : list nat,
    _mapping_from_regions_list argsort_stable Fixture.store [Fixture.A] true
      = Ok lat /\
    (lat !! 3%nat = Some 2%nat -> lat !! 2%nat = Some 2%nat).
Proof.
  destruct (mapping_representatives_fixed argsort_stable Fixture.store
              [Fixture.A]) as (lat & Hlat & Hfix).
  - exact fixture_same_length.
  - exact fixture_nodup.
  - exact fixture_levels_increase.
  - reflexivity.
  - decide_now.
  - exact fixture_sorts_A.
  - exists lat. split; [exact Hlat|]. apply Hfix.
Defined.

(** ** [_compute_mappings] *)

(** X14. When [_compute_mappings] returns, the store is unchanged and the
    table holds the six schemes and nothing else, whatever it held
    before; "Allen-lr" is the identity array, and every array of the table
    holds positions of the store and is no longer than the store. *)
Theorem compute_mappings_table (argsort : list Z -> list nat)
    (br br' : BrainRegions) (beryl cosmos : list Z) :
  _compute_mappings argsort br beryl cosmos = Ok br' ->
  regions br' = regions br /\
  dom (mappings br')
    = ({["Allen"; "Allen-lr"; "Beryl"; "Beryl-lr"; "Cosmos"; "Cosmos-lr"]}
       : gset string) /\
  mappings br' !! "Allen-lr" = Some (seq 0 (length (id br))) /\
  forall (scheme : string) (arr : list nat),
    mappings br' !! scheme = Some arr ->
    Forall (fun v => (v < length (id br))%nat) arr /\
    (length arr <= length (id br))%nat.
Proof.
  unfold _compute_mappings.
  destruct (_mapping_from_regions_list argsort br
              (Np.unique (map Np.abs (id br))) false)
    as [allen|] eqn:H1; [|intros H; inversion H]; rewrite bind_Ok.
  destruct (_mapping_from_regions_list argsort br beryl false)
    as [b|] eqn:H2; [|intros H; inversion H]; rewrite bind_Ok.
  destruct (_mapping_from_regions_list argsort br beryl true)
    as [blr|] eqn:H3; [|intros H; inversion H]; rewrite bind_Ok.
  destruct (_mapping_from_regions_list argsort br cosmos false)
    as [c|] eqn:H4; [|intros H; inversion H]; rewrite bind_Ok.
  destruct (_mapping_from_regions_list argsort br cosmos true)
    as [clr|] eqn:H5; [|intros H; inversion H]; rewrite bind_Ok.
  cbv zeta. intros [= <-]. simpl. split_and!.
  - done.
  - rewrite !dom_insert_L, dom_empty_L. by rewrite !(assoc_L (∪)), (right_id_L ∅ (∪)).
  - done.
  - intros scheme arr Hlookup.
    apply build_in_bounds in H1 as (F1 & _ & L1).
    apply build_in_bounds in H2 as (F2 & _ & L2).
    apply build_in_bounds in H3 as (F3 & _ & L3).
    apply build_in_bounds in H4 as (F4 & _ & L4).
    apply build_in_bounds in H5 as (F5 & _ & L5).
    apply lookup_insert_Some in Hlookup as [[_ <-]|[_ Hlookup]]; [by split|].
    apply lookup_insert_Some in Hlookup as [[_ <-]|[_ Hlookup]].
    { split; [|by rewrite length_seq].
      apply Forall_forall. intros v Hv%elem_of_seq. lia. }
    apply lookup_insert_Some in Hlookup as [[_ <-]|[_ Hlookup]]; [by split|].
    apply lookup_insert_Some in Hlookup as [[_ <-]|[_ Hlookup]]; [by split|].
    apply lookup_insert_Some in Hlookup as [[_ <-]|[_ Hlookup]]; [by split|].
    apply lookup_insert_Some in Hlookup as [[_ <-]|[_ Hlookup]]; [by split|].
    done.
Qed.

Lemma fixture_compute_mappings :
  exists br' : BrainRegions,
    _compute_mappings argsort_stable (mkBrainRegions Fixture.store ∅)
      [Fixture.A] [Fixture.root] = Ok br'.
Proof. eexists. by vm_compute. Qed.

Lemma compute_mappings_table_witness :
  exists br' : BrainRegions,
    _compute_mappings argsort_stable (mkBrainRegions Fixture.store ∅)
      [Fixture.A] [Fixture.root] = Ok br' /\
    mappings br' !! "Allen-lr" = Some (seq 0 11).
Proof.
  destruct fixture_compute_mappings as [br' Hbr].
  exists br'. split; [exact Hbr|].
  destruct (compute_mappings_table argsort_stable
              (mkBrainRegions Fixture.store ∅) br'
              [Fixture.A] [Fixture.root] Hbr) as (_ & _ & Hid & _).
  exact Hid.
Defined.

(** ** The lookups by acronym *)

Section FirstIndexOf.
Context {A : Type} `{EqDecision A}.

Lemma first_index_of_Some (x : A) (l : list A) (p : nat) :
  first_index_of x l = Some p -> l !! p = Some x.
Proof.
  revert p; induction l as [|y t IH]; intros p; simpl; [done|].
  destruct (decide (x = y)) as [->|Hne].
  - intros [= <-]; done.
  - destruct (first_index_of x t) as [q|] eqn:E; simpl; [|done].
    intros [= <-]; simpl; auto.
Qed.

Lemma first_index_of_elem (x : A) (l : list A) :
  x ∈ l -> is_Some (first_index_of x l).
Proof.
  induction l as [|y t IH]; simpl.
  - intros H; inversion H.
  - destruct (decide (x = y)) as [->|Hne]; [eauto|].
    intros [->|H]%elem_of_cons; [done|].
    destruct (IH H) as [q ->]; simpl; eauto.
Qed.

(** A value of the first part of an array is found in the first part. *)
Lemma first_index_of_app (x : A) (l1 l2 : list A) (p : nat) :
  x ∈ l1 -> first_index_of x (l1 ++ l2) = Some p -> (p < length l1)%nat.
Proof.
  revert p; induction l1 as [|y t IH]; intros p Hin; simpl.
  - by apply elem_of_nil in Hin.
  - destruct (decide (x = y)) as [->|Hne].
    + intros [= <-]. lia.
    + apply elem_of_cons in Hin as [->|Hin]; [done|].
      destruct (first_index_of x (t ++ l2)) as [q|] eqn:E; simpl; [|done].
      intros [= <-]. specialize (IH q Hin eq_refl). lia.
Qed.

Lemma find_inds_lookup (values all_values : list A) (j k : nat) :
  _find_inds values all_values !! j = Some k ->
  exists x, x ∈ values /\ first_index_of x all_values = Some k.
Proof.
  intros Hj. apply list_elem_of_lookup_2 in Hj.
  unfold _find_inds, ismember_of in Hj; simpl in Hj.
  by apply list_elem_of_omap in Hj.
Qed.

Lemma find_inds_matched (values all_values : list A) (x : A) :
  x ∈ values -> x ∈ all_values ->
  exists k, k ∈ _find_inds values all_values /\ all_values !! k = Some x.
Proof.
  intros Hv Ha. destruct (first_index_of_elem x all_values Ha) as [k Hk].
  exists k. split; [|by apply first_index_of_Some].
  unfold _find_inds, ismember_of; simpl. apply list_elem_of_omap. eauto.
Qed.

End FirstIndexOf.

(** X15. [acronym2index] returns nothing for a batch that is not empty:
    [_find_inds] gives a one-dimensional array, on which the hemisphere
    filter raises.  With the scheme in the table and its array holding
    positions of the store, the error is [IndexError] for "left" and
    "right" and [ValueError] otherwise; the empty batch gives the empty
    dictionary. *)
Theorem acronym2index_raises (br : BrainRegions) (acro : string)
    (rest : list string) (mapping : string) (hemisphere : option string) :
  (exists e, acronym2index br (acro :: rest) mapping hemisphere = Err e) /\
  acronym2index br [] mapping hemisphere = Ok ∅ /\
  (forall arr : list nat,
     mappings br !! _infer_mapping mapping hemisphere = Some arr ->
     Forall (fun v => (v < length (acronym br))%nat) arr ->
     acronym2index br (acro :: rest) mapping hemisphere
       = Err (if decide (hemisphere = Some "left") then IndexError
              else if decide (hemisphere = Some "right") then IndexError
              else ValueError)).
Proof.
  unfold acronym2index. cbv zeta.
  set (m := _infer_mapping mapping hemisphere).
  assert (Hfilter : forall v,
            _filter_lr_index (OneColumn v) hemisphere
            = Err (if decide (hemisphere = Some "left") then IndexError
                   else if decide (hemisphere = Some "right") then IndexError
                   else ValueError)).
  { intros v. unfold _filter_lr_index.
    destruct (decide (hemisphere = Some "left")); [done|].
    by destruct (decide (hemisphere = Some "right")). }
  assert (Hstep : forall index,
            acronym2index_loop br m hemisphere (acro :: rest) index =
              (arr ← of_option KeyError (mappings br !! m);
               col ← Np.take (acronym br) arr;
               v ← _filter_lr_index
                     (OneColumn (Z.of_nat <$> _find_inds [acro] col))
                     hemisphere;
               acronym2index_loop br m hemisphere rest (<[acro := v]> index)))
    by done.
  split_and!.
  - rewrite Hstep.
    destruct (mappings br !! m) as [arr|]; [|by eexists].
    change (of_option KeyError (Some arr)) with (Ok arr). rewrite bind_Ok.
    destruct (Np.take (acronym br) arr) as [col|]; [|by eexists].
    rewrite bind_Ok, Hfilter. by eexists.
  - done.
  - intros arr Harr Hrange. rewrite Hstep, Harr.
    change (of_option KeyError (Some arr)) with (Ok arr). rewrite bind_Ok.
    destruct (take_in_range (acronym br) arr Hrange) as [col ->].
    by rewrite bind_Ok, Hfilter.
Qed.

Lemma acronym2index_raises_witness :
  acronym2index LookupFixture.br ["D"] "Allen" (Some "left")
    = Err IndexError.
Proof.
  destruct (acronym2index_raises LookupFixture.br "D" [] "Allen" (Some "left"))
    as (_ & _ & H).
  apply (H (seq 0 11)).
  - reflexivity.
  - decide_now.
Defined.

(** X16. On a table of at most 1327 positions, [acronym2atlasID] for the
    left hemisphere raises [IndexError] as soon as one acronym of the
    query is in the store: every index it asks for is at least 1327. *)
Theorem acronym2atlasID_left_out_of_bounds (br : BrainRegions)
    (acronyms : list string) (mapping : string) (arr : list nat)
    (a : string) :
  mappings br !! _infer_mapping mapping (Some "left") = Some arr ->
  (length arr <= 1327)%nat ->
  Z.of_nat (length (acronym br)) < 2 ^ 62 ->
  a ∈ acronyms -> a ∈ acronym br ->
  acronym2atlasID br acronyms mapping (Some "left") = Err IndexError.
Proof.
  intros Harr Hsmall Hsize Ha Hin.
  unfold acronym2atlasID. cbv zeta. rewrite Harr.
  change (of_option KeyError (Some arr)) with (Ok arr). rewrite bind_Ok.
  destruct (take_cases (id br) arr) as [(col & Hcol & _)|[-> _]]; [|done].
  rewrite Hcol, bind_Ok.
  unfold _filter_lr_acro. rewrite decide_True by done.
  destruct (find_inds_matched acronyms (acronym br) a Ha Hin) as (k & Hk & Hka).
  assert (Hnone : mapM (index_z col)
            (map (fun v => add64 v 1327)
                 (Z.of_nat <$> _find_inds acronyms (acronym br))) = None).
  { apply mapM_None. apply Exists_exists.
    exists (add64 (Z.of_nat k) 1327). split.
    - apply list_elem_of_fmap. exists (Z.of_nat k). split; [done|].
      apply list_elem_of_fmap. eauto.
    - apply lookup_lt_Some in Hka.
      rewrite add64_small by lia. unfold index_z.
      destruct (Z.leb_spec 0 (Z.of_nat k + 1327)); [|lia].
      apply lookup_ge_None. rewrite (take_length _ _ _ Hcol). lia. }
  unfold take_z. by rewrite Hnone.
Qed.

Lemma acronym2atlasID_left_out_of_bounds_witness :
  acronym2atlasID LookupFixture.br ["zz"; "D"] "Allen" (Some "left")
    = Err IndexError.
Proof.
  apply (acronym2atlasID_left_out_of_bounds LookupFixture.br ["zz"; "D"]
           "Allen" (seq 0 11) "D").
  - reflexivity.
  - vm_compute; lia.
  - by vm_compute.
  - decide_now.
  - decide_now.
Defined.

Section Contains.

Lemma prefix_refl (s : string) : String.prefix s s = true.
Proof.
  induction s as [|c s IH]; simpl; [done|].
  destruct (Ascii.ascii_dec c c); done.
Qed.

Lemma contains_suffix (sub s : string) : contains sub (s +:+ sub) = true.
Proof.
  induction s as [|c s IH].
  - simpl. destruct sub; simpl; [done|].
    destruct (Ascii.ascii_dec a a); [|done]. by rewrite prefix_refl.
  - change (String c s +:+ sub) with (String c (s +:+ sub)).
    simpl. rewrite IH. apply orb_true_r.
Qed.

End Contains.

(** X17. [_infer_mapping] leaves a name as it is when no hemisphere is
    asked for or when the name already contains "-lr"; otherwise it gives
    a name that contains "-lr"; applying it twice is applying it once. *)
Theorem infer_mapping_lateralized (mapping : string)
    (hemisphere : option string) :
  (hemisphere = None -> _infer_mapping mapping hemisphere = mapping) /\
  (contains "-lr" mapping = true ->
   _infer_mapping mapping hemisphere = mapping) /\
  (hemisphere <> None ->
   contains "-lr" (_infer_mapping mapping hemisphere) = true) /\
  _infer_mapping (_infer_mapping mapping hemisphere) hemisphere
    = _infer_mapping mapping hemisphere.
Proof.
  unfold _infer_mapping.
  destruct (contains "-lr" mapping) eqn:Hc.
  - rewrite Hc. split_and!; try done.
  - destruct hemisphere as [h|].
    + rewrite contains_suffix. split_and!; try done.
    + rewrite Hc. split_and!; try done.
Qed.

Lemma infer_mapping_lateralized_witness :
  _infer_mapping "Beryl" None = "Beryl" /\
  contains "-lr" (_infer_mapping "Beryl" (Some "left")) = true.
Proof.
  split.
  - by apply (infer_mapping_lateralized "Beryl" None).
  - by apply (infer_mapping_lateralized "Beryl" (Some "left")).
Defined.

(** X18. A lookup by acronym never answers with a left-hemisphere region:
    the left copies share the acronyms of the table, so the first match
    is a row of the table, and [remap_acro2id] from the identity scheme
    to itself returns ids of the table only. *)
Theorem remap_acro2id_finds_table_rows (raw : Regions)
    (mp : gmap string (list nat)) (identity : string)
    (acronyms : list string) (out : list Z) :
  same_length raw ->
  mp !! identity = Some (seq 0 (length (id (lateralized raw)))) ->
  remap_acro2id (mkBrainRegions (lateralized raw) mp) acronyms
    identity identity = Ok out ->
  Forall (fun x => x ∈ id raw) out.
Proof.
  intros Hlen Hid. unfold remap_acro2id. simpl mappings. rewrite Hid.
  change (of_option KeyError (Some ?l)) with (Ok l).
  set (st := lateralized raw).
  assert (Hsl : same_length st).
  { by apply lateralized_same_length. }
  pose proof Hsl as (_ & Hla & _).
  rewrite bind_Ok. simpl regions.
  rewrite <- Hla at 1. rewrite take_all, bind_Ok. cbv zeta.
  rewrite bind_Ok.
  set (inds := (ismember_of acronyms (acronym st)).2).
  destruct (Np.take (seq 0 (length (id st))) inds) as [rep|] eqn:Hrep;
    [|done].
  rewrite bind_Ok. intros Hout.
  pose proof (proj1 (take_Ok _ _ _) Hrep) as Hrep2.
  pose proof (proj1 (take_Ok _ _ _) Hout) as Hout2.
  apply Forall_forall. intros x [j Hj]%list_elem_of_lookup.
  destruct (Forall2_lookup_r _ _ _ _ _ Hout2 Hj) as (r & Hr & Hrx).
  destruct (Forall2_lookup_r _ _ _ _ _ Hrep2 Hr) as (k & Hk & Hkr).
  apply lookup_seq in Hkr as [-> _]. simpl in Hrx.
  destruct (find_inds_lookup acronyms (acronym st) j k Hk) as (a & _ & Hfi).
  (* the first match of an acronym is in the table *)
  assert (Hlt : (k < length (acronym raw))%nat).
  { pose proof (first_index_of_Some _ _ _ Hfi) as Hka.
    unfold st, lateralized, left_rows in Hfi, Hka; simpl in Hfi, Hka.
    eapply first_index_of_app; [|exact Hfi].
    apply lookup_app_Some in Hka as [Hka|[_ Hka]].
    - eapply list_elem_of_lookup_2, Hka.
    - apply list_elem_of_lookup_2, select_elem in Hka as (q & Hq & _).
      eapply list_elem_of_lookup_2, Hq. }
  unfold st, lateralized in Hrx; simpl in Hrx.
  destruct Hlen as (_ & Ha & _).
  rewrite lookup_app_l in Hrx by lia.
  eapply list_elem_of_lookup_2, Hrx.
Qed.

Lemma remap_acro2id_finds_table_rows_witness :
  Forall (fun x => x ∈ id Fixture.raw) [40; 10].
Proof.
  apply (remap_acro2id_finds_table_rows Fixture.raw
           (<["Allen-lr" := seq 0 11]> ∅) "Allen-lr" ["D"; "zz"; "A"]).
  - repeat split.
  - reflexivity.
  - by vm_compute.
Defined.

(** ** The unlateralized arrays *)

Lemma abs_neg (x : Z) : x < 2 ^ 63 -> Np.abs (Np.neg x) = Np.abs x.
Proof.
  intros Hx. unfold Np.abs, Np.neg, Np.int64_min.
  repeat match goal with
  | |- context [Z.eqb ?a ?b] => destruct (Z.eqb_spec a b)
  | |- context [Z.ltb ?a ?b] => destruct (Z.ltb_spec a b)
  end; lia.
Qed.

(** X19. The unlateralized array gives the two rows of a lateral pair one
    representative: rows whose ids are negations of each other hold the
    same entry. *)
Theorem unlateralized_pairs_share (argsort : list Z -> list nat)
    (st : Regions) (new_map : list Z) (unlat : list nat)
    (p p' : nat) (x : Z) :
  NoDup (id st) ->
  (forall y, y ∈ id st -> Np.abs y ∈ id st) ->
  _mapping_from_regions_list argsort st new_map false = Ok unlat ->
  id st !! p = Some x ->
  id st !! p' = Some (Np.neg x) ->
  x < 2 ^ 63 ->
  unlat !! p = unlat !! p'.
Proof.
  intros Hnd Habs Hunlat Hp Hp' Hx.
  rewrite build_unfold_delateralized in Hunlat.
  destruct (_mapping_from_regions_list argsort st new_map true)
    as [lat|] eqn:Hlat; [|done].
  rewrite bind_Ok in Hunlat.
  set (iregion := (ismember (map Np.abs (id st)) (id st)).2) in *.
  assert (Hreg : Forall2 (fun y q => Np.first_index y (id st) = Some q)
                   (map Np.abs (id st)) iregion).
  { apply omap_total, Forall_forall.
    intros y (z & -> & Hz)%list_elem_of_fmap.
    by apply first_index_elem, Habs. }
  assert (Hat : forall r z, id st !! r = Some z ->
            exists q, iregion !! r = Some q /\
                      Np.first_index (Np.abs z) (id st) = Some q).
  { intros r z Hr.
    assert (Hax : map Np.abs (id st) !! r = Some (Np.abs z))
      by (by rewrite list_lookup_fmap, Hr).
    destruct (Forall2_lookup_l _ _ _ _ _ Hreg Hax) as (q & Hq & Hfi). eauto. }
  destruct (Hat p x Hp) as (q & Hq & Hfq).
  destruct (Hat p' (Np.neg x) Hp') as (q' & Hq' & Hfq').
  rewrite abs_neg in Hfq' by done.
  assert (q' = q) as -> by congruence.
  rewrite (take_lookup _ _ _ p q Hunlat Hq).
  by rewrite (take_lookup _ _ _ p' q Hunlat Hq').
Qed.

Lemma unlateralized_pairs_share_witness :
  [0; 1; 2; 2; 2; 2; 1; 2; 2; 2; 2]%nat !! 3%nat
  = [0; 1; 2; 2; 2; 2; 1; 2; 2; 2; 2]%nat !! 8%nat.
Proof.
  apply (unlateralized_pairs_share argsort_stable Fixture.store [Fixture.A]
           [0; 1; 2; 2; 2; 2; 1; 2; 2; 2; 2]%nat 3 8 20).
  - exact fixture_nodup.
  - exact fixture_abs_closed.
  - by vm_compute.
  - reflexivity.
  - reflexivity.
  - by vm_compute.
Defined.

(** X20. The array that [_compute_mappings] builds for "Allen", from the
    absolute values of all the ids, sends every row to the row of the
    absolute value of its id: each region is its own representative, up
    to the hemisphere.  This holds on a mirrored store with distinct ids,
    the void row first and levels that grow from parent to child. *)
Theorem allen_scheme_right_self (argsort : list Z -> list nat)
    (st : Regions) :
  same_length st ->
  NoDup (id st) ->
  id st !! 0%nat = Some 0 ->
  mirrored st ->
  levels_increase st ->
  sorts_members argsort st (Np.unique (map Np.abs (id st))) ->
  exists allen : list nat,
    _mapping_from_regions_list argsort st
      (Np.unique (map Np.abs (id st))) false = Ok allen /\
    length allen = length (id st) /\
    forall (p : nat) (x : Z), id st !! p = Some x ->
      exists q : nat, id st !! q = Some (Np.abs x) /\ allen !! p = Some q.
Proof.
  intros Hlen Hnd Hvoid Hmir Hlev Hsort.
  set (new_map := Np.unique (map Np.abs (id st))) in *.
  assert (Hn : (0 < length (id st))%nat) by (by apply lookup_lt_Some in Hvoid).
  assert (Hneg : forall y, y ∈ id st -> Np.neg y ∈ id st).
  { intros y [r Hr]%list_elem_of_lookup.
    destruct (Hmir r y Hr) as (r' & Hr' & _).
    eapply list_elem_of_lookup_2, Hr'. }
  assert (Habs : forall y, y ∈ id st -> Np.abs y ∈ id st).
  { intros y Hy. destruct (abs_cases y) as [[_ ->]|[_ ->]]; auto. }
  assert (Hsub : Forall (fun y => y ∈ id st) (symmetrize new_map)).
  { apply Forall_forall. intros y Hy.
    apply elem_of_symmetrize in Hy as [(z & Hz & ->)|Hy].
    - apply Hneg. unfold new_map in Hz. rewrite elem_of_unique in Hz.
      apply list_elem_of_fmap in Hz as (w & -> & Hw). by apply Habs.
    - unfold new_map in Hy. rewrite elem_of_unique in Hy.
      apply list_elem_of_fmap in Hy as (w & -> & Hw). by apply Habs. }
  assert (Hall : forall q y, id st !! q = Some y -> q ∈ members st new_map).
  { intros q y Hq. apply members_elem. exists y. split; [done|].
    assert (Hay : Np.abs y ∈ new_map).
    { unfold new_map. rewrite elem_of_unique. apply list_elem_of_fmap.
      exists y. split; [done|]. eapply list_elem_of_lookup_2, Hq. }
    apply elem_of_symmetrize.
    destruct (abs_cases y) as [[_ Ha]|[Hlt Ha]].
    - right. by rewrite <- Ha.
    - left. exists (Np.abs y). split; [done|].
      rewrite Ha, neg_involutive; [done|lia]. }
  destruct (members_fixed argsort st new_map Hlen Hnd Hlev Hn Hsub Hsort)
    as (lat & Hlat & Hl & Hzero & Hmember & _ & _).
  destruct (build_delateralized_spec argsort st new_map Habs lat Hlat Hl)
    as (allen & Hallen & Hla & Hread).
  exists allen. split_and!; try done.
  intros p x Hp. destruct (Hread p x Hp) as (q & Hq & Heq).
  exists q. split; [done|]. rewrite Heq.
  destruct (decide (q = 0%nat)) as [->|]; [done|].
  apply Hmember; [by eapply Hall|lia].
Qed.

Lemma fixture_sorts_allen :
  sorts_members argsort_stable Fixture.store
    (Np.unique (map Np.abs (id Fixture.store))).
Proof.
  intros keys Hk. vm_compute in Hk. injection Hk as <-. by vm_compute.
Qed.

Lemma allen_scheme_right_self_witness :
  exists allen : list nat,
    _mapping_from_regions_list argsort_stable Fixture.store
      (Np.unique (map Np.abs (id Fixture.store))) false = Ok allen /\
    length allen = 11%nat.
Proof.
  destruct (allen_scheme_right_self argsort_stable Fixture.store)
    as (allen & Hallen & Hl & _).
  - exact fixture_same_length.
  - exact fixture_nodup.
  - reflexivity.
  - exact fixture_mirrored.
  - exact fixture_levels_increase.
  - exact fixture_sorts_allen.
  - exists allen. split; [exact Hallen|exact Hl].
Defined.
